(** * Variable resolution and result propagation of the pipeline reconciler

    A shallow embedding of [pkg/reconciler/pipelinerun/resources/apply.go]
    and the properties its design document states about it.

    Conventions of the embedding:
    - a Go [map[string]T] is a [gmap string T]; reading a missing key is
      [None], and a [nil] map and an empty map coincide (the code in this
      file only reads from maps that may be [nil]);
    - a Go slice is a [list]; indexing out of range panics, and so does the
      dereference of a [nil] pointer: a function that can panic returns an
      [option], with [None] for the panic;
    - objects reached through pointers that the code mutates (the pipeline
      specification, the entries of the run state) live in a store, a
      [gmap] from locations to objects;
    - functions, methods and constants of the repository that live outside
      [apply.go] are the fields of the classes [ResultExternals],
      [SubstitutionExternals] and [MatrixExternals], and the types that
      [apply.go] does not look into are the fields of [Foreign]: the
      theorems hold for every instance; the modules [Reference] and
      [ReferenceResolvers] hold one instance, on which the model runs. *)

From Stdlib Require Import ZArith String Ascii List Decimal DecimalString DecimalZ.
From stdpp Require Import base option list gmap strings.

Local Open Scope Z_scope.

(** ** The parts of Go's standard library that [apply.go] calls *)

Module Go.

(** [strings.Split(s, ".")]: never empty, one more piece than separators. *)
Fixpoint Split_dot (s : string) : list string :=
  match s with
  | EmptyString => [EmptyString]
  | String c s' =>
      if Ascii.eqb c "."%char then EmptyString :: Split_dot s'
      else match Split_dot s' with
           | [] => [String c EmptyString]
           | piece :: pieces => String c piece :: pieces
           end
  end.

(** The range of Go's [int] on the 64-bit platforms the controller runs on. *)
Definition MaxInt : Z := 2 ^ 63 - 1.
Definition MinInt : Z := - 2 ^ 63.

Definition clamp (z : Z) : Z := Z.max MinInt (Z.min MaxInt z).

(** [strconv.Itoa]. *)
Definition Itoa (z : Z) : string := NilZero.string_of_int (Z.to_int z).

(** [strconv.Atoi], with the error dropped as every caller in this file
    drops it: the value is [0] on a syntax error and the nearest bound of
    [int] on a range error.  An optional sign is followed by one or more
    decimal digits. *)
Definition Atoi (s : string) : Z :=
  let parse (neg : bool) (digits : string) :=
    match NilZero.uint_of_string digits with
    | None => 0
    | Some u => clamp (if neg then - Z.of_uint u else Z.of_uint u)
    end in
  match s with
  | String c rest =>
      if Ascii.eqb c "+"%char then parse false rest
      else if Ascii.eqb c "-"%char then parse true rest
      else parse false s
  | EmptyString => 0
  end.

(** The [%v] verb on a [[]string]: the elements between brackets,
    separated by one space. *)
Fixpoint join_space (l : list string) : string :=
  match l with
  | [] => EmptyString
  | [x] => x
  | x :: rest => x +:+ " " +:+ join_space rest
  end.
Definition fmt_v (l : list string) : string := "[" +:+ join_space l +:+ "]".

End Go.

(** ** Data model *)

(** [v1.ParamType] is a string type; the code distinguishes its three
    declared constants from every other value. *)
Inductive ParamType :=
| ParamTypeString
| ParamTypeArray
| ParamTypeObject
| ParamTypeOther (raw : string).

Global Instance ParamType_eq_dec : EqDecision ParamType.
Proof. solve_decision. Defined.

(** Types of other packages that [apply.go] passes around without looking
    inside them. *)
Class Foreign := {
  (** [v1.TaskSpec], the body of an embedded task *)
  TaskSpec : Type;
  (** what a run-state entry records about the runs of its task *)
  TaskRuns : Type;
  (** [ResolvedResultRefs], the resolved result references of a run *)
  ResolvedResultRefs : Type
}.

(** [v1.ParamValue], of which [v1.ResultValue] is an alias. *)
Module ParamValue.
Record t := mk {
  Type_ : ParamType;
  StringVal : string;
  ArrayVal : list string;
  ObjectVal : gmap string string
}.
End ParamValue.

Module Param.
Record t := mk { Name : string; Value : ParamValue.t }.
End Param.

Module ParamSpec.
Record t := mk {
  Name : string;
  Type_ : ParamType;
  Default : option ParamValue.t
}.
End ParamSpec.

Module TaskRunResult.
Record t := mk { Name : string; Type_ : ParamType; Value : ParamValue.t }.
End TaskRunResult.

Module CustomRunResult.
Record t := mk { Name : string; Value : string }.
End CustomRunResult.

Module PipelineResult.
Record t := mk { Name : string; Value : ParamValue.t }.
End PipelineResult.

Module PipelineRunResult.
Record t := mk { Name : string; Value : ParamValue.t }.
End PipelineRunResult.

Module WhenExpression.
Record t := mk {
  Input : string;
  Operator : string;
  Values : list string;
  CEL : string
}.
End WhenExpression.

(** [v1.TaskRef]; [Params] is the slice of its embedded resolver reference,
    [None] when the slice is [nil]. *)
Module TaskRef.
Record t := mk { Name : string; Params : option (list Param.t) }.
End TaskRef.

Module IncludeParams.
Record t := mk { Name : string; Params : list Param.t }.
End IncludeParams.

Module Matrix.
Record t := mk { Params : list Param.t; Include : list IncludeParams.t }.
End Matrix.

Module WorkspacePipelineTaskBinding.
Record t := mk { Name : string; Workspace : string; SubPath : string }.
End WorkspacePipelineTaskBinding.

Module EmbeddedTask.
Record t `{Foreign} := mk { TaskSpec_ : TaskSpec }.
End EmbeddedTask.

(** [v1.PipelineTask].  [Matrix], [TaskRef] and [TaskSpec] are pointers,
    [None] when [nil]; a deep copy owns all three. *)
Module PipelineTask.
Record t `{Foreign} := mk {
  Name : string;
  DisplayName : string;
  Retries : Z;
  Params : list Param.t;
  Matrix : option Matrix.t;
  When : list WhenExpression.t;
  TaskRef : option TaskRef.t;
  TaskSpec_ : option EmbeddedTask.t;
  Workspaces : list WorkspacePipelineTaskBinding.t;
  OnError : string
}.

(** Assignments to one field. *)
Definition setDisplayName `{Foreign} (x : string) (pt : t) : t :=
  mk _ (Name pt) x (Retries pt) (Params pt) (Matrix pt) (When pt) (TaskRef pt)
     (TaskSpec_ pt) (Workspaces pt) (OnError pt).
Definition setParams `{Foreign} (x : list Param.t) (pt : t) : t :=
  mk _ (Name pt) (DisplayName pt) (Retries pt) x (Matrix pt) (When pt) (TaskRef pt)
     (TaskSpec_ pt) (Workspaces pt) (OnError pt).
Definition setMatrix `{Foreign} (x : option Matrix.t) (pt : t) : t :=
  mk _ (Name pt) (DisplayName pt) (Retries pt) (Params pt) x (When pt) (TaskRef pt)
     (TaskSpec_ pt) (Workspaces pt) (OnError pt).
Definition setWhen `{Foreign} (x : list WhenExpression.t) (pt : t) : t :=
  mk _ (Name pt) (DisplayName pt) (Retries pt) (Params pt) (Matrix pt) x (TaskRef pt)
     (TaskSpec_ pt) (Workspaces pt) (OnError pt).
Definition setTaskRef `{Foreign} (x : option TaskRef.t) (pt : t) : t :=
  mk _ (Name pt) (DisplayName pt) (Retries pt) (Params pt) (Matrix pt) (When pt) x
     (TaskSpec_ pt) (Workspaces pt) (OnError pt).
Definition setTaskSpec `{Foreign} (x : option EmbeddedTask.t) (pt : t) : t :=
  mk _ (Name pt) (DisplayName pt) (Retries pt) (Params pt) (Matrix pt) (When pt) (TaskRef pt)
     x (Workspaces pt) (OnError pt).
Definition setWorkspaces `{Foreign} (x : list WorkspacePipelineTaskBinding.t) (pt : t) : t :=
  mk _ (Name pt) (DisplayName pt) (Retries pt) (Params pt) (Matrix pt) (When pt) (TaskRef pt)
     (TaskSpec_ pt) x (OnError pt).
Definition setOnError `{Foreign} (x : string) (pt : t) : t :=
  mk _ (Name pt) (DisplayName pt) (Retries pt) (Params pt) (Matrix pt) (When pt) (TaskRef pt)
     (TaskSpec_ pt) (Workspaces pt) x.
End PipelineTask.

Module PipelineWorkspaceDeclaration.
Record t := mk { Name : string }.
End PipelineWorkspaceDeclaration.

Module WorkspaceBinding.
Record t := mk { Name : string; SubPath : string }.
End WorkspaceBinding.

Module PipelineSpec.
Record t `{Foreign} := mk {
  Params : list ParamSpec.t;
  Tasks : list PipelineTask.t;
  Finally : list PipelineTask.t;
  Workspaces : list PipelineWorkspaceDeclaration.t;
  Results : list PipelineResult.t
}.

Definition setTasks `{Foreign} (x : list PipelineTask.t) (p : t) : t :=
  mk _ (Params p) x (Finally p) (Workspaces p) (Results p).
Definition setFinally `{Foreign} (x : list PipelineTask.t) (p : t) : t :=
  mk _ (Params p) (Tasks p) x (Workspaces p) (Results p).
End PipelineSpec.

Module PipelineRunSpec.
Record t := mk {
  Params : list Param.t;
  Workspaces : list WorkspaceBinding.t
}.
End PipelineRunSpec.

Module PipelineRun.
Record t := mk {
  Name : string;
  Namespace : string;
  UID : string;
  Spec : PipelineRunSpec.t
}.
End PipelineRun.

Module PipelineRunStatus.
Record t `{Foreign} := mk { PipelineSpec_ : option PipelineSpec.t }.
End PipelineRunStatus.

(** [ResolvedPipelineTask], one entry of the run state.  [PipelineTask] is
    a pointer, [None] when [nil]. *)
Module ResolvedPipelineTask.
Record t `{Foreign} := mk {
  PipelineTask_ : option PipelineTask.t;
  TaskRuns_ : TaskRuns;
  ResultsCache : gmap string (list string)
}.

Definition setPipelineTask `{Foreign} (x : option PipelineTask.t) (r : t) : t :=
  mk _ x (TaskRuns_ r) (ResultsCache r).
Definition setResultsCache `{Foreign} (x : gmap string (list string)) (r : t) : t :=
  mk _ (PipelineTask_ r) (TaskRuns_ r) x.
End ResolvedPipelineTask.

(** Locations of the store. *)
Definition loc := positive.

(** [PipelineRunState] is a [[]*ResolvedPipelineTask]: a list of pointers
    into the store of run-state entries.  A pointer with no object in the
    store stands for [nil]. *)
Definition PipelineRunState := list loc.

Module PipelineRunFacts.
Record t := mk { State : PipelineRunState }.
End PipelineRunFacts.

(** ** What the aggregator takes from other files of the repository *)

Class ResultExternals := {
  (** [v1.ResultTaskPart], [v1.ResultFinallyPart], [v1beta1.ResultResultPart] *)
  ResultTaskPart : string;
  ResultFinallyPart : string;
  ResultResultPart : string;
  (** the status-key convention and the reason of a successful run *)
  PipelineTaskStatusPrefix : string;
  PipelineTaskStatusSuffix : string;
  TaskRunReasonSuccessful : string;
  (** [PipelineResult.GetVarSubstitutionExpressions], first component *)
  GetVarSubstitutionExpressions : PipelineResult.t → list string;
  (** [v1.ParseResultName]: the result name and the text of its index *)
  ParseResultName : string → string * string;
  (** [substitution.StripStarVarSubExpression] *)
  StripStarVarSubExpression : string → string;
  (** [ParamValue.ApplyReplacements], as a function of the value *)
  ParamValue_ApplyReplacements :
    ParamValue.t → gmap string string → gmap string (list string) →
    gmap string (gmap string string) → ParamValue.t
}.

(** Left fold of a step that can panic. *)
Fixpoint foldM {A B : Type} (f : B → A → option A) (l : list B) (a : A) : option A :=
  match l with
  | [] => Some a
  | b :: l' => match f b a with
               | Some a' => foldM f l' a'
               | None => None
               end
  end.

(** ** Folding task results into the declared pipeline results *)

Module Aggregator.

(** The variables of [ApplyTaskResultsToPipelineResults] that live across
    the iterations of its outer loop. *)
Record vars := mkVars {
  runResults : list PipelineRunResult.t;
  invalidPipelineResults : list string;
  stringReplacements : gmap string string;
  arrayReplacements : gmap string (list string);
  objectReplacements : gmap string (gmap string string)
}.

Definition init : vars := mkVars [] [] ∅ ∅ ∅.

Definition setString (k v : string) (s : vars) : vars :=
  mkVars (runResults s) (invalidPipelineResults s)
         (<[k := v]> (stringReplacements s)) (arrayReplacements s)
         (objectReplacements s).
Definition setArray (k : string) (v : list string) (s : vars) : vars :=
  mkVars (runResults s) (invalidPipelineResults s)
         (stringReplacements s) (<[k := v]> (arrayReplacements s))
         (objectReplacements s).
Definition setObject (k : string) (v : gmap string string) (s : vars) : vars :=
  mkVars (runResults s) (invalidPipelineResults s)
         (stringReplacements s) (arrayReplacements s)
         (<[k := v]> (objectReplacements s)).
Definition appendInvalid (name : string) (s : vars) : vars :=
  mkVars (runResults s) (invalidPipelineResults s ++ [name])
         (stringReplacements s) (arrayReplacements s)
         (objectReplacements s).
Definition appendRunResult (r : PipelineRunResult.t) (s : vars) : vars :=
  mkVars (runResults s ++ [r]) (invalidPipelineResults s)
         (stringReplacements s) (arrayReplacements s)
         (objectReplacements s).

(** [isMemoized]: the variable is a key of one of the three maps. *)
Definition isMemoized (variable : string) (s : vars) : bool :=
  bool_decide (is_Some (stringReplacements s !! variable))
  || bool_decide (is_Some (arrayReplacements s !! variable))
  || bool_decide (is_Some (objectReplacements s !! variable)).

Definition taskResultValue (taskName resultName : string)
    (taskResults : gmap string (list TaskRunResult.t)) : option ParamValue.t :=
  TaskRunResult.Value <$>
    List.find (λ r, bool_decide (TaskRunResult.Name r = resultName))
              (default [] (taskResults !! taskName)).

Definition runResultValue (taskName resultName : string)
    (runResults : gmap string (list CustomRunResult.t)) : option string :=
  CustomRunResult.Value <$>
    List.find (λ r, bool_decide (CustomRunResult.Name r = resultName))
              (default [] (runResults !! taskName)).

(** [s'] is [s] after some more iterations: results and invalid names
    were only appended, and no entry of the string map was changed. *)
Definition extends (s s' : vars) : Prop :=
  runResults s `prefix_of` runResults s'
  ∧ invalidPipelineResults s `prefix_of` invalidPipelineResults s'
  ∧ stringReplacements s ⊆ stringReplacements s'.

Section WithExternals.
Context `{ResultExternals}.
Variable taskRunResults : gmap string (list TaskRunResult.t).
Variable customTaskResults : gmap string (list CustomRunResult.t).
Variable taskstatus : gmap string string.

Definition statusKey (taskName : string) : string :=
  PipelineTaskStatusPrefix +:+ taskName +:+ PipelineTaskStatusSuffix.

(** The tail shared by the two [else] branches at lines 536-547 and
    560-571: a recorded status other than success drops the declared
    result, anything else marks it invalid. *)
Definition missingResult (name taskName : string) (valid : bool) (s : vars)
    : bool * vars :=
  match taskstatus !! statusKey taskName with
  | Some status =>
      if bool_decide (status ≠ TaskRunReasonSuccessful) then (false, s)
      else (false, appendInvalid name s)
  | None => (false, appendInvalid name s)
  end.

(** One iteration of the inner loop, lines 490-576, for the declared
    result [name]. *)
Definition resolveVariable (name variable : string) (acc : bool * vars)
    : option (bool * vars) :=
  let '(valid, s) := acc in
  if isMemoized variable s then Some (valid, s)
  else
    let variableParts := Go.Split_dot variable in
    p0 ← variableParts !! 0%nat;
    if bool_decide (p0 ≠ ResultTaskPart ∧ p0 ≠ ResultFinallyPart)
    then Some (false, appendInvalid name s)
    else
      p2 ← variableParts !! 2%nat;
      if bool_decide (p2 ≠ ResultResultPart)
      then Some (false, appendInvalid name s)
      else
        match length variableParts with
        | 4%nat =>
            taskName ← variableParts !! 1%nat;
            p3 ← variableParts !! 3%nat;
            let '(resultName, stringIdx) := ParseResultName p3 in
            match taskResultValue taskName resultName taskRunResults with
            | Some resultValue =>
                match ParamValue.Type_ resultValue with
                | ParamTypeString =>
                    Some (valid, setString variable (ParamValue.StringVal resultValue) s)
                | ParamTypeArray =>
                    if bool_decide (stringIdx ≠ "*") then
                      let intIdx := Go.Atoi stringIdx in
                      if bool_decide (intIdx < Z.of_nat (length (ParamValue.ArrayVal resultValue)))
                      then
                        element ← (if bool_decide (intIdx < 0) then None
                                   else ParamValue.ArrayVal resultValue !! Z.to_nat intIdx);
                        Some (valid, setString variable element s)
                      else Some (false, appendInvalid name s)
                    else
                      Some (valid, setArray (StripStarVarSubExpression variable)
                                            (ParamValue.ArrayVal resultValue) s)
                | ParamTypeObject =>
                    Some (valid, setObject (StripStarVarSubExpression variable)
                                           (ParamValue.ObjectVal resultValue) s)
                | ParamTypeOther _ => Some (valid, s)
                end
            | None =>
                match runResultValue taskName resultName customTaskResults with
                | Some resultValue => Some (valid, setString variable resultValue s)
                | None => Some (missingResult name taskName valid s)
                end
            end
        | 5%nat =>
            taskName ← variableParts !! 1%nat;
            p3 ← variableParts !! 3%nat;
            objectKey ← variableParts !! 4%nat;
            let '(resultName, _) := ParseResultName p3 in
            match taskResultValue taskName resultName taskRunResults with
            | Some resultValue =>
                match ParamValue.ObjectVal resultValue !! objectKey with
                | Some v => Some (valid, setString variable v s)
                | None => Some (false, appendInvalid name s)
                end
            | None => Some (missingResult name taskName valid s)
            end
        | _ => Some (false, appendInvalid name s)
        end.

(** What lines 500-575 decide for a variable that is not memoized,
    as a value computed from the variable and the three input tables
    alone; [commit] is the effect of that decision on the variables.
    [resolveVariable_factor] shows that the inner loop is the
    composition of the two. *)
Inductive resolution :=
| Panics
| Invalid
| Dropped
| Ignored
| StringOf (x : string)
| ArrayOf (a : list string)
| ObjectOf (o : gmap string string).

Definition missing (taskName : string) : resolution :=
  match taskstatus !! statusKey taskName with
  | Some status =>
      if bool_decide (status ≠ TaskRunReasonSuccessful) then Dropped else Invalid
  | None => Invalid
  end.

Definition resolve (variable : string) : resolution :=
  match Go.Split_dot variable with
  | [] => Panics
  | p0 :: rest =>
      if bool_decide (p0 ≠ ResultTaskPart ∧ p0 ≠ ResultFinallyPart) then Invalid
      else
        match rest with
        | taskName :: p2 :: rest' =>
            if bool_decide (p2 ≠ ResultResultPart) then Invalid
            else
              match rest' with
              | [p3] =>
                  match taskResultValue taskName (ParseResultName p3).1 taskRunResults with
                  | Some resultValue =>
                      match ParamValue.Type_ resultValue with
                      | ParamTypeString => StringOf (ParamValue.StringVal resultValue)
                      | ParamTypeArray =>
                          if bool_decide ((ParseResultName p3).2 ≠ "*") then
                            let intIdx := Go.Atoi (ParseResultName p3).2 in
                            if bool_decide (intIdx < Z.of_nat (length (ParamValue.ArrayVal resultValue)))
                            then
                              if bool_decide (intIdx < 0) then Panics
                              else from_option StringOf Panics
                                     (ParamValue.ArrayVal resultValue !! Z.to_nat intIdx)
                            else Invalid
                          else ArrayOf (ParamValue.ArrayVal resultValue)
                      | ParamTypeObject => ObjectOf (ParamValue.ObjectVal resultValue)
                      | ParamTypeOther _ => Ignored
                      end
                  | None =>
                      match runResultValue taskName (ParseResultName p3).1 customTaskResults with
                      | Some resultValue => StringOf resultValue
                      | None => missing taskName
                      end
                  end
              | [p3; objectKey] =>
                  match taskResultValue taskName (ParseResultName p3).1 taskRunResults with
                  | Some resultValue =>
                      from_option StringOf Invalid
                        (ParamValue.ObjectVal resultValue !! objectKey)
                  | None => missing taskName
                  end
              | _ => Invalid
              end
        | _ => Panics
        end
  end.

Definition commit (name variable : string) (r : resolution) (acc : bool * vars)
    : option (bool * vars) :=
  match r with
  | Panics => None
  | Invalid => Some (false, appendInvalid name acc.2)
  | Dropped => Some (false, acc.2)
  | Ignored => Some acc
  | StringOf x => Some (acc.1, setString variable x acc.2)
  | ArrayOf a => Some (acc.1, setArray (StripStarVarSubExpression variable) a acc.2)
  | ObjectOf o => Some (acc.1, setObject (StripStarVarSubExpression variable) o acc.2)
  end.

(** One iteration of the outer loop, lines 484-585. *)
Definition resolvePipelineResult (pipelineResult : PipelineResult.t) (s : vars)
    : option vars :=
  let variablesInPipelineResult := GetVarSubstitutionExpressions pipelineResult in
  if bool_decide (length variablesInPipelineResult = 0%nat) then Some s
  else
    '(validPipelineResult, s') ←
      foldM (resolveVariable (PipelineResult.Name pipelineResult))
            variablesInPipelineResult (true, s);
    if validPipelineResult : bool then
      let finalValue :=
        ParamValue_ApplyReplacements (PipelineResult.Value pipelineResult)
          (stringReplacements s') (arrayReplacements s') (objectReplacements s') in
      Some (appendRunResult
              (PipelineRunResult.mk (PipelineResult.Name pipelineResult) finalValue) s')
    else Some s'.

Definition errorMessage (invalid : list string) : string :=
  "invalid pipelineresults " +:+ Go.fmt_v invalid
    +:+ ", the referenced results don't exist".

(** The results and the error ([None] for [nil]); the whole is [None]
    when the call panics. *)
Definition ApplyTaskResultsToPipelineResults (results : list PipelineResult.t)
    : option (list PipelineRunResult.t * option string) :=
  s ← foldM resolvePipelineResult results init;
  if bool_decide (0 < length (invalidPipelineResults s))%nat
  then Some (runResults s, Some (errorMessage (invalidPipelineResults s)))
  else Some (runResults s, None).

(** Another table of custom-run results gives the same at the one place
    where the results of custom runs are read for the variable, line 534:
    the result named by the fourth segment of a reference of four
    segments, when the task has no result of that name among the results
    of the task runs. *)
Definition agreeOn (customTaskResults' : gmap string (list CustomRunResult.t))
    (variable : string) : Prop :=
  ∀ p0 taskName p3,
    Go.Split_dot variable = [p0; taskName; ResultResultPart; p3] →
    p0 = ResultTaskPart ∨ p0 = ResultFinallyPart →
    taskResultValue taskName (ParseResultName p3).1 taskRunResults = None →
    runResultValue taskName (ParseResultName p3).1 customTaskResults
    = runResultValue taskName (ParseResultName p3).1 customTaskResults'.

End WithExternals.
End Aggregator.

(** ** A reference instance of the aggregator's externals

    The general theorems below hold for every instance of
    [ResultExternals]; this one makes the model run on concrete inputs. *)

Module Reference.

Inductive scan :=
| Outside
| Dollar
| Inside (acc : string).

(** Modelled from the spec: the Reference Extractor of section 4.2, which
    "parses a templated string into the set of variable-reference
    expressions it contains (e.g. tasks.build.results.digest)".  The
    expressions are the texts between [$(] and the next [)], in order of
    appearance. *)
Fixpoint extract (st : scan) (s : string) : list string :=
  match s with
  | EmptyString => []
  | String c s' =>
      match st with
      | Outside =>
          if Ascii.eqb c "$"%char then extract Dollar s' else extract Outside s'
      | Dollar =>
          if Ascii.eqb c "("%char then extract (Inside EmptyString) s'
          else if Ascii.eqb c "$"%char then extract Dollar s'
          else extract Outside s'
      | Inside acc =>
          if Ascii.eqb c ")"%char then String.rev acc :: extract Outside s'
          else extract (Inside (String c acc)) s'
      end
  end.

Definition extractReferences (s : string) : list string := extract Outside s.

(** Modelled from the spec: the expressions of a value are those of its
    string, of the elements of its array and of the values of its object
    (section 4.2; the shapes of section 3). *)
Definition valueExpressions (v : ParamValue.t) : list string :=
  extractReferences (ParamValue.StringVal v)
  ++ concat (extractReferences <$> ParamValue.ArrayVal v)
  ++ concat (extractReferences <$> (snd <$> map_to_list (ParamValue.ObjectVal v))).

Fixpoint before (c : ascii) (s : string) : string :=
  match s with
  | EmptyString => EmptyString
  | String a s' => if Ascii.eqb a c then EmptyString else String a (before c s')
  end.

Fixpoint after (c : ascii) (s : string) : string :=
  match s with
  | EmptyString => EmptyString
  | String a s' => if Ascii.eqb a c then s' else after c s'
  end.

(** Modelled from the spec: the grammar of section 6 gives a result
    reference an "optional trailing [<int>], [*]"; the name is what
    precedes the bracket and the index is the text inside it. *)
Definition parseResultName (s : string) : string * string :=
  (before "["%char s, before "]"%char (after "["%char s)).

Fixpoint trimSuffix (s suffix : string) : string :=
  if String.eqb s suffix then EmptyString
  else match s with
       | EmptyString => EmptyString
       | String c s' => String c (trimSuffix s' suffix)
       end.

(** Modelled from the spec: section 4.2, the extractor "strips index/splat
    suffixes to get a base key"; this one strips a trailing splat. *)
Definition stripStar (s : string) : string := trimSuffix s "[*]".

(** Modelled from the spec: the Substitution Engine of section 4.1 on a
    scalar; an expression that is a key of the string map is replaced
    verbatim, every other text is kept. *)
Fixpoint substitute_go (m : gmap string string) (st : scan) (s : string) : string :=
  match s with
  | EmptyString =>
      match st with
      | Outside => EmptyString
      | Dollar => "$"
      | Inside acc => "$(" +:+ String.rev acc
      end
  | String c s' =>
      match st with
      | Outside =>
          if Ascii.eqb c "$"%char then substitute_go m Dollar s'
          else String c (substitute_go m Outside s')
      | Dollar =>
          if Ascii.eqb c "("%char then substitute_go m (Inside EmptyString) s'
          else if Ascii.eqb c "$"%char then String "$"%char (substitute_go m Dollar s')
          else String "$"%char (String c (substitute_go m Outside s'))
      | Inside acc =>
          if Ascii.eqb c ")"%char then
            match m !! String.rev acc with
            | Some v => v
            | None => "$(" +:+ String.rev acc +:+ ")"
            end +:+ substitute_go m Outside s'
          else substitute_go m (Inside (String c acc)) s'
      end
  end.

Definition substitute (s : string) (m : gmap string string) : string :=
  substitute_go m Outside s.

(** Modelled from the spec: section 4.1, an element that is exactly one
    splatted reference to a key of the array map expands to that array;
    any other element is substituted as a scalar. *)
Definition substituteElement (sr : gmap string string)
    (ar : gmap string (list string)) (e : string) : list string :=
  match extractReferences e with
  | [x] =>
      if String.eqb e ("$(" +:+ x +:+ ")") then
        match ar !! stripStar x with
        | Some a => a
        | None => [substitute e sr]
        end
      else [substitute e sr]
  | _ => [substitute e sr]
  end.

(** Modelled from the spec: section 4.1 on a whole value, by shape. *)
Definition applyReplacements (v : ParamValue.t) (sr : gmap string string)
    (ar : gmap string (list string)) (or : gmap string (gmap string string))
    : ParamValue.t :=
  match ParamValue.Type_ v with
  | ParamTypeArray =>
      ParamValue.mk ParamTypeArray (ParamValue.StringVal v)
        (concat (substituteElement sr ar <$> ParamValue.ArrayVal v))
        (ParamValue.ObjectVal v)
  | ParamTypeObject =>
      ParamValue.mk ParamTypeObject (ParamValue.StringVal v) (ParamValue.ArrayVal v)
        ((λ x, substitute x sr) <$> ParamValue.ObjectVal v)
  | ty =>
      ParamValue.mk ty (substitute (ParamValue.StringVal v) sr)
        (ParamValue.ArrayVal v) (ParamValue.ObjectVal v)
  end.

(** Modelled from the spec: the reference grammar of section 6
    ([tasks.<name>.results.<result>], [finally.<name>.results.<result>]),
    the status-key convention [<prefix><taskName><suffix>] of section 4.6,
    and a reason for success that differs from the ["Failed"] of
    section 8. *)
Definition resultExternals : ResultExternals := {|
  ResultTaskPart := "tasks";
  ResultFinallyPart := "finally";
  ResultResultPart := "results";
  PipelineTaskStatusPrefix := "tasks.";
  PipelineTaskStatusSuffix := ".status";
  TaskRunReasonSuccessful := "Succeeded";
  GetVarSubstitutionExpressions := λ r, valueExpressions (PipelineResult.Value r);
  ParseResultName := parseResultName;
  StripStarVarSubExpression := stripStar;
  ParamValue_ApplyReplacements := applyReplacements
|}.

Definition stringValue (s : string) : ParamValue.t :=
  ParamValue.mk ParamTypeString s [] ∅.
Definition arrayValue (a : list string) : ParamValue.t :=
  ParamValue.mk ParamTypeArray EmptyString a ∅.
Definition objectValue (o : gmap string string) : ParamValue.t :=
  ParamValue.mk ParamTypeObject EmptyString [] o.

End Reference.

(** ** Replacement maps of the parameters *)

(** The escaping that [strconv.Quote] applies between the two double quotes
    it adds (the [%q] verb of [fmt.Sprintf]).  Its table of non-printable
    runes is not reproduced; [strconv.Unquote] inverts it, so it is
    injective. *)
Class GoQuote := {
  escape : string → string;
  escape_inj :: Inj (=) (=) escape
}.

Module Parameters.

(** The three maps that every resolver builds. *)
Record replacements := mkReplacements {
  stringReplacements : gmap string string;
  arrayReplacements : gmap string (list string);
  objectReplacements : gmap string (gmap string string)
}.

Definition empty : replacements := mkReplacements ∅ ∅ ∅.

Definition setString (k v : string) (m : replacements) : replacements :=
  mkReplacements (<[k := v]> (stringReplacements m)) (arrayReplacements m)
                 (objectReplacements m).
Definition setArray (k : string) (v : list string) (m : replacements) : replacements :=
  mkReplacements (stringReplacements m) (<[k := v]> (arrayReplacements m))
                 (objectReplacements m).
Definition setObject (k : string) (v : gmap string string) (m : replacements)
    : replacements :=
  mkReplacements (stringReplacements m) (arrayReplacements m)
                 (<[k := v]> (objectReplacements m)).

(** The join of two triples of maps, the left one winning. *)
Definition union (m1 m2 : replacements) : replacements :=
  mkReplacements (stringReplacements m1 ∪ stringReplacements m2)
                 (arrayReplacements m1 ∪ arrayReplacements m2)
                 (objectReplacements m1 ∪ objectReplacements m2).

(** The three forms of [paramPatterns]: ["params.%s"], ["params[%q]"] and
    ["params['%s']"]. *)
Inductive pattern :=
| Dotted
| DoubleQuoted
| SingleQuoted.

Definition paramPatterns : list pattern := [Dotted; DoubleQuoted; SingleQuoted].

Definition doubleQuote : string := String "034"%char EmptyString.

Section WithQuote.
Context `{GoQuote}.

(** [strconv.Quote]. *)
Definition Quote (s : string) : string := doubleQuote +:+ escape s +:+ doubleQuote.

(** [fmt.Sprintf(pattern, name)]. *)
Definition Sprintf (p : pattern) (name : string) : string :=
  match p with
  | Dotted => "params." +:+ name
  | DoubleQuoted => "params[" +:+ Quote name +:+ "]"
  | SingleQuoted => "params['" +:+ name +:+ "']"
  end.

(** [fmt.Sprintf(pattern+"[%d]", name, i)]. *)
Definition Sprintf_index (p : pattern) (name : string) (i : nat) : string :=
  Sprintf p name +:+ "[" +:+ Go.Itoa (Z.of_nat i) +:+ "]".

(** [fmt.Sprintf(objectIndividualVariablePattern, name, k)], the pattern
    being ["params.%s.%s"]. *)
Definition Sprintf_objectIndividual (name k : string) : string :=
  "params." +:+ name +:+ "." +:+ k.

(** The loop over the elements of an array, lines 65-67 and 113-115. *)
Definition setElements (pattern : pattern) (name : string) (elements : list string)
    (m : replacements) : replacements :=
  foldl (λ m i,
           match elements !! i with
           | Some x => setString (Sprintf_index pattern name i) x m
           | None => m
           end)
        m (seq 0 (length elements)).

(** The loop over the keys of an object, lines 74-76 and 122-124.  Go
    visits the keys in an order of its own; the keys written are distinct,
    so the order does not show. *)
Definition setAttributes (name : string) (attributes : gmap string string)
    (m : replacements) : replacements :=
  mkReplacements
    (map_fold (λ k v sr, <[Sprintf_objectIndividual name k := v]> sr)
              (stringReplacements m) attributes)
    (arrayReplacements m) (objectReplacements m).

(** The [switch] on the type of a value, lines 62-83 for a default and
    lines 110-131 for a value of the run; the two texts are the same up to
    the name of the value. *)
Definition setParam (name : string) (value : ParamValue.t) (m : replacements)
    : replacements :=
  match ParamValue.Type_ value with
  | ParamTypeArray =>
      foldl (λ m pattern,
               setArray (Sprintf pattern name) (ParamValue.ArrayVal value)
                 (setElements pattern name (ParamValue.ArrayVal value) m))
            m paramPatterns
  | ParamTypeObject =>
      setAttributes name (ParamValue.ObjectVal value)
        (foldl (λ m pattern,
                  setObject (Sprintf pattern name) (ParamValue.ObjectVal value) m)
               m paramPatterns)
  | _ =>
      foldl (λ m pattern, setString (Sprintf pattern name) (ParamValue.StringVal value) m)
            m paramPatterns
  end.

(** Lines 60-85: the defaults of the declared parameters. *)
Definition setDefaults (params : list ParamSpec.t) (m : replacements) : replacements :=
  foldl (λ m p,
           match ParamSpec.Default p with
           | Some default => setParam (ParamSpec.Name p) default m
           | None => m
           end)
        m params.

Definition setParams (params : list Param.t) (m : replacements) : replacements :=
  foldl (λ m p, setParam (Param.Name p) (Param.Value p) m) m params.

(** Lines 102-135. *)
Definition paramsFromPipelineRun (pr : PipelineRun.t) : replacements :=
  setParams (PipelineRunSpec.Params (PipelineRun.Spec pr)) empty.

(** Lines 89-97: each entry of the maps of the run is written over the
    maps of the defaults. *)
Definition overwrite (run m : replacements) : replacements :=
  mkReplacements
    (map_fold (λ k v sr, <[k := v]> sr) (stringReplacements m) (stringReplacements run))
    (map_fold (λ k v ar, <[k := v]> ar) (arrayReplacements m) (arrayReplacements run))
    (map_fold (λ k v or, <[k := v]> or) (objectReplacements m) (objectReplacements run)).

(** The three maps that [ApplyParameters] hands to [ApplyReplacements],
    lines 55-97. *)
Definition parameterReplacements (params : list ParamSpec.t) (pr : PipelineRun.t)
    : replacements :=
  overwrite (paramsFromPipelineRun pr) (setDefaults params empty).

(** What one parameter writes when nothing was written before. *)
Definition written (name : string) (value : ParamValue.t) : replacements :=
  setParam name value empty.

(** The values that lines 60-97 write, each with the name it is written
    for: the defaults of the declared parameters, then the values of the
    run. *)
Definition writers (params : list ParamSpec.t) (pr : PipelineRun.t)
    : list (string * ParamValue.t) :=
  omap (λ p, (λ default, (ParamSpec.Name p, default)) <$> ParamSpec.Default p) params
  ++ ((λ q, (Param.Name q, Param.Value q))
        <$> PipelineRunSpec.Params (PipelineRun.Spec pr)).

(** A map holds the same under the three forms of a name, and under the
    three forms of each of its indexed elements. *)
Definition wholeAgree {A} (name : string) (m : gmap string A) : Prop :=
  ∀ p p', m !! Sprintf p name = m !! Sprintf p' name.

Definition elementsAgree {A} (name : string) (m : gmap string A) : Prop :=
  ∀ i p p', m !! Sprintf_index p name i = m !! Sprintf_index p' name i.

(** The value of the run is written to every key that the default is
    written to, by the [switch] of [setParam]: both are arrays and the
    value of the run has at least the elements of the default, or both are
    objects and the value of the run has at least the attributes of the
    default, or both take the last branch. *)
Definition covers (value default : ParamValue.t) : Prop :=
  match ParamValue.Type_ default with
  | ParamTypeArray =>
      ParamValue.Type_ value = ParamTypeArray
      ∧ (length (ParamValue.ArrayVal default) ≤ length (ParamValue.ArrayVal value))%nat
  | ParamTypeObject =>
      ParamValue.Type_ value = ParamTypeObject
      ∧ ∀ k, is_Some (ParamValue.ObjectVal default !! k) →
             is_Some (ParamValue.ObjectVal value !! k)
  | _ =>
      ParamValue.Type_ value ≠ ParamTypeArray
      ∧ ParamValue.Type_ value ≠ ParamTypeObject
  end.

End WithQuote.
End Parameters.

(** ** What the resolvers take from other files of the repository *)

Class SubstitutionExternals `{Foreign} := {
  (** [substitution.ApplyReplacements] *)
  substitution_ApplyReplacements : string → gmap string string → string;
  (** [Params.ReplaceVariables]; a map that the caller passes as [nil] is
      [None] *)
  Params_ReplaceVariables :
    list Param.t → gmap string string → option (gmap string (list string)) →
    option (gmap string (gmap string string)) → list Param.t;
  (** [WhenExpressions.ReplaceVariables] *)
  WhenExpressions_ReplaceVariables :
    list WhenExpression.t → gmap string string → option (gmap string (list string)) →
    list WhenExpression.t;
  (** [resources.ApplyReplacements] of the task-run reconciler, as a
      function of the task specification it copies *)
  resources_ApplyReplacements :
    TaskSpec → gmap string string → gmap string (list string) →
    gmap string (gmap string string) → TaskSpec;
  (** [PipelineTask.IsMatrixed] *)
  IsMatrixed : PipelineTask.t → bool;
  (** the three maps of the resolved result references *)
  getStringReplacements : ResolvedResultRefs → gmap string string;
  getArrayReplacements : ResolvedResultRefs → gmap string (list string);
  getObjectReplacements : ResolvedResultRefs → gmap string (gmap string string)
}.

(** ** Substitution into a pipeline specification *)

Module Resolvers.
Import Parameters.

(** The store of pipeline specifications: what the [*v1.PipelineSpec]
    pointers of a call point to. *)
Abbreviation specs := (gmap loc PipelineSpec.t).

Section WithExternals.
Context `{SubstitutionExternals} `{GoQuote}.

(** The substitutions into a matrix: its parameters with one pair of
    array and object maps, the parameters of its include clauses with
    another. *)
Definition replaceMatrix (replacements : gmap string string)
    (arrays : option (gmap string (list string)))
    (objects : option (gmap string (gmap string string)))
    (includeArrays : option (gmap string (list string)))
    (includeObjects : option (gmap string (gmap string string)))
    (m : Matrix.t) : Matrix.t :=
  Matrix.mk
    (Params_ReplaceVariables (Matrix.Params m) replacements arrays objects)
    ((λ include,
        IncludeParams.mk (IncludeParams.Name include)
          (Params_ReplaceVariables (IncludeParams.Params include) replacements
             includeArrays includeObjects))
       <$> Matrix.Include m).

Definition replaceSubPaths (replacements : gmap string string)
    (workspaces : list WorkspacePipelineTaskBinding.t)
    : list WorkspacePipelineTaskBinding.t :=
  (λ w, WorkspacePipelineTaskBinding.mk (WorkspacePipelineTaskBinding.Name w)
          (WorkspacePipelineTaskBinding.Workspace w)
          (substitution_ApplyReplacements (WorkspacePipelineTaskBinding.SubPath w)
             replacements))
    <$> workspaces.

Definition replaceTaskRef (replacements : gmap string string)
    (arrays : option (gmap string (list string)))
    (objects : option (gmap string (gmap string string)))
    (ref : TaskRef.t) : TaskRef.t :=
  TaskRef.mk
    (substitution_ApplyReplacements (TaskRef.Name ref) replacements)
    ((λ params, Params_ReplaceVariables params replacements arrays objects)
       <$> TaskRef.Params ref).

(** Lines 361-377 for one parameter of the task: where a form of its name
    is a key of a copied map, the value of the task takes its place. *)
Definition scopeParam (par : Param.t) (dup : replacements) : replacements :=
  foldl (λ dup pattern,
           let checkName := Sprintf pattern (Param.Name par) in
           let dup :=
             if bool_decide (is_Some (stringReplacements dup !! checkName))
             then setString checkName (ParamValue.StringVal (Param.Value par)) dup
             else dup in
           let dup :=
             if bool_decide (is_Some (arrayReplacements dup !! checkName))
             then setArray checkName (ParamValue.ArrayVal (Param.Value par)) dup
             else dup in
           if bool_decide (is_Some (objectReplacements dup !! checkName))
           then setAttributes (Param.Name par) (ParamValue.ObjectVal (Param.Value par))
                  (setObject checkName (ParamValue.ObjectVal (Param.Value par)) dup)
           else dup)
        dup paramPatterns.

(** Lines 343-384. *)
Definition propagateParams (t : PipelineTask.t) (stringReplacements : gmap string string)
    (arrayReplacements : gmap string (list string))
    (objectReplacements : gmap string (gmap string string)) : PipelineTask.t :=
  match PipelineTask.TaskSpec_ t with
  | None => t
  | Some embedded =>
      if bool_decide (0 < length (PipelineTask.Params t))%nat then
        let dup :=
          foldl (λ dup par, scopeParam par dup)
                (mkReplacements stringReplacements arrayReplacements objectReplacements)
                (PipelineTask.Params t) in
        PipelineTask.setTaskSpec
          (Some (EmbeddedTask.mk _
                   (resources_ApplyReplacements (EmbeddedTask.TaskSpec_ embedded)
                      (Parameters.stringReplacements dup)
                      (Parameters.arrayReplacements dup)
                      (Parameters.objectReplacements dup)))) t
      else
        PipelineTask.setTaskSpec
          (Some (EmbeddedTask.mk _
                   (resources_ApplyReplacements (EmbeddedTask.TaskSpec_ embedded)
                      stringReplacements arrayReplacements objectReplacements))) t
  end.

(** One iteration of the loop of [replaceVariablesInPipelineTasks], lines
    305-325; [None] when a task that [IsMatrixed] reports as matrixed has
    no matrix. *)
Definition replaceVariablesInPipelineTask (replacements : gmap string string)
    (arrayReplacements : gmap string (list string))
    (objectReplacements : gmap string (gmap string string))
    (t : PipelineTask.t) : option PipelineTask.t :=
  let t :=
    PipelineTask.setParams
      (Params_ReplaceVariables (PipelineTask.Params t) replacements
         (Some arrayReplacements) (Some objectReplacements)) t in
  t ← (if IsMatrixed t then
         m ← PipelineTask.Matrix t;
         Some (PipelineTask.setMatrix
                 (Some (replaceMatrix replacements (Some arrayReplacements) None None None m))
                 t)
       else
         Some (PipelineTask.setDisplayName
                 (substitution_ApplyReplacements (PipelineTask.DisplayName t) replacements)
                 t));
  let t :=
    PipelineTask.setWorkspaces (replaceSubPaths replacements (PipelineTask.Workspaces t)) t in
  let t :=
    PipelineTask.setWhen
      (WhenExpressions_ReplaceVariables (PipelineTask.When t) replacements
         (Some arrayReplacements)) t in
  let t :=
    PipelineTask.setTaskRef
      (replaceTaskRef replacements (Some arrayReplacements) (Some objectReplacements)
         <$> PipelineTask.TaskRef t) t in
  let t :=
    PipelineTask.setOnError
      (substitution_ApplyReplacements (PipelineTask.OnError t) replacements) t in
  Some (propagateParams t replacements arrayReplacements objectReplacements).

(** Lines 302-327, on the slice of a specification that the caller
    owns. *)
Definition replaceVariablesInPipelineTasks (tasks : list PipelineTask.t)
    (replacements : gmap string string)
    (arrayReplacements : gmap string (list string))
    (objectReplacements : gmap string (gmap string string))
    : option (list PipelineTask.t) :=
  mapM (replaceVariablesInPipelineTask replacements arrayReplacements objectReplacements)
       tasks.


(** Lines 330-338.  [p.DeepCopy()] allocates the copy at a location that
    the store does not use; the result is the store after the call and the
    pointer returned. *)
Definition ApplyReplacements (h : specs) (p : loc) (replacements : gmap string string)
    (arrayReplacements : gmap string (list string))
    (objectReplacements : gmap string (gmap string string)) : option (specs * loc) :=
  spec ← h !! p;
  let copy := fresh (dom h) in
  tasks ← replaceVariablesInPipelineTasks (PipelineSpec.Tasks spec)
             replacements arrayReplacements objectReplacements;
  finally ← replaceVariablesInPipelineTasks (PipelineSpec.Finally spec)
               replacements arrayReplacements objectReplacements;
  Some (<[copy := PipelineSpec.setFinally finally (PipelineSpec.setTasks tasks spec)]> h,
        copy).

(** Lines 50-100. *)
Definition ApplyParameters (h : specs) (p : loc) (pr : PipelineRun.t)
    : option (specs * loc) :=
  spec ← h !! p;
  let m := parameterReplacements (PipelineSpec.Params spec) pr in
  ApplyReplacements h p (stringReplacements m) (arrayReplacements m)
    (objectReplacements m).

(** Lines 138-145. *)
Definition GetContextReplacements (pipelineName : string) (pr : PipelineRun.t)
    : gmap string string :=
  <["context.pipelineRun.uid" := PipelineRun.UID pr]>
    (<["context.pipelineRun.namespace" := PipelineRun.Namespace pr]>
       (<["context.pipeline.name" := pipelineName]>
          (<["context.pipelineRun.name" := PipelineRun.Name pr]> ∅))).

Definition replaceDisplayNames (replacements : gmap string string)
    (tasks : list PipelineTask.t) : list PipelineTask.t :=
  (λ t, PipelineTask.setDisplayName
          (substitution_ApplyReplacements (PipelineTask.DisplayName t) replacements) t)
    <$> tasks.

(** Lines 149-157.  The two loops assign to [spec.Tasks[i].DisplayName] and
    [spec.Finally[i].DisplayName] through the pointer the caller passed:
    they write to the store at [spec] before [ApplyReplacements] makes its
    copy. *)
Definition ApplyContexts (h : specs) (spec : loc) (pipelineName : string)
    (pr : PipelineRun.t) : option (specs * loc) :=
  s ← h !! spec;
  let s :=
    PipelineSpec.setTasks
      (replaceDisplayNames (GetContextReplacements pipelineName pr) (PipelineSpec.Tasks s))
      s in
  let s :=
    PipelineSpec.setFinally
      (replaceDisplayNames (GetContextReplacements pipelineName pr) (PipelineSpec.Finally s))
      s in
  ApplyReplacements (<[spec := s]> h) spec (GetContextReplacements pipelineName pr) ∅ ∅.

Definition boundKey (name : string) : string := "workspaces." +:+ name +:+ ".bound".

(** Lines 287-299.  [p = p.DeepCopy()] makes a first copy, which the
    function reads; [ApplyReplacements] copies that copy. *)
Definition ApplyWorkspaces (h : specs) (p : loc) (pr : PipelineRun.t)
    : option (specs * loc) :=
  spec ← h !! p;
  let copy := fresh (dom h) in
  let h := <[copy := spec]> h in
  let replacements :=
    foldl (λ m declaredWorkspace,
             <[boundKey (PipelineWorkspaceDeclaration.Name declaredWorkspace) := "false"]> m)
          ∅ (PipelineSpec.Workspaces spec) in
  let replacements :=
    foldl (λ m boundWorkspace,
             <[boundKey (WorkspaceBinding.Name boundWorkspace) := "true"]> m)
          replacements (PipelineRunSpec.Workspaces (PipelineRun.Spec pr)) in
  ApplyReplacements h copy replacements ∅ ∅.

End WithExternals.
End Resolvers.

(** ** Task contexts and the run state *)

Class MatrixExternals `{Foreign} := {
  (** [Param.GetVarSubstitutionExpressions] *)
  Param_GetVarSubstitutionExpressions : Param.t → list string * bool;
  (** [Param.ParseTaskandResultName] *)
  Param_ParseTaskandResultName : Param.t → string * string;
  (** [Matrix.CountCombinations], on a pointer that may be [nil] *)
  Matrix_CountCombinations : option Matrix.t → Z;
  (** [createResultsCacheMatrixedTaskRuns] *)
  createResultsCacheMatrixedTaskRuns : ResolvedPipelineTask.t → gmap string (list string)
}.

Module RunState.

(** The store of run-state entries: what the pointers of a
    [PipelineRunState] point to. *)
Abbreviation entries := (gmap loc ResolvedPipelineTask.t).

(** The store of pipeline tasks: what a [*v1.PipelineTask] points to. *)
Abbreviation tasks := (gmap loc PipelineTask.t).

Section WithExternals.
Context `{SubstitutionExternals} `{!MatrixExternals}.

(** The test of line 169 on one expression. *)
Definition isMatrixContextVar (expression : string) : bool :=
  let subExpressions := Go.Split_dot expression in
  bool_decide (4 ≤ length subExpressions)%nat
  && bool_decide (subExpressions !! 2%nat = Some "matrix")
  && bool_decide (last subExpressions = Some "length").

(** Lines 161-176: a parameter is appended once for each of its
    expressions that passes the test. *)
Definition filterMatrixContextVar (params : list Param.t) : list Param.t :=
  flat_map
    (λ param,
       let '(expressions, ok) := Param_GetVarSubstitutionExpressions param in
       if ok : bool then
         flat_map (λ expression, if isMatrixContextVar expression then [param] else [])
                  expressions
       else [])
    params.


(** What the loop of lines 193-218 changes: the replacements, the entries
    of the run state, and the record of the entries for which
    [createResultsCacheMatrixedTaskRuns] was called, in the order of the
    calls.  The record is not a variable of the code and nothing is computed
    from it. *)
Record resolution := mkResolution {
  replacements : gmap string string;
  state : entries;
  computed : list loc
}.

Definition matrixLengthKey (pipelineTaskName : string) : string :=
  "tasks." +:+ pipelineTaskName +:+ ".matrix.length".

Definition matrixResultLengthKey (pipelineTaskName resultName : string) : string :=
  "tasks." +:+ pipelineTaskName +:+ ".matrix." +:+ resultName +:+ ".length".

(** Lines 196-204. *)
Definition countCombinations (pipelineRunStatus : PipelineRunStatus.t)
    (pipelineTaskName : string) (m : gmap string string) : gmap string string :=
  match PipelineRunStatus.PipelineSpec_ pipelineRunStatus with
  | Some spec =>
      if bool_decide (pipelineTaskName ≠ "") then
        foldl (λ m task,
                 if bool_decide (PipelineTask.Name task = pipelineTaskName) then
                   <[matrixLengthKey pipelineTaskName :=
                       Go.Itoa (Matrix_CountCombinations (PipelineTask.Matrix task))]> m
                 else m)
              m (PipelineSpec.Tasks spec)
      else m
  | None => m
  end.

(** One iteration of the loop of lines 207-216, for the entry that [l]
    points to; [None] when the pointer or the [PipelineTask] of the entry is
    [nil]. *)
Definition lookupResultLength (pipelineTaskName resultName : string) (l : loc)
    (r : resolution) : option resolution :=
  entry ← state r !! l;
  task ← ResolvedPipelineTask.PipelineTask_ entry;
  if bool_decide (PipelineTask.Name task = pipelineTaskName) then
    let '(entry, computed) :=
      if bool_decide (size (ResolvedPipelineTask.ResultsCache entry) = 0%nat) then
        (ResolvedPipelineTask.setResultsCache (createResultsCacheMatrixedTaskRuns entry) entry,
         computed r ++ [l])
      else (entry, computed r) in
    let resultLength :=
      length (default [] (ResolvedPipelineTask.ResultsCache entry !! resultName)) in
    Some (mkResolution
            (<[matrixResultLengthKey pipelineTaskName resultName :=
                 Go.Itoa (Z.of_nat resultLength)]> (replacements r))
            (<[l := entry]> (state r))
            computed)
  else Some r.

(** One iteration of the loop of lines 193-218, for one filtered
    parameter; [facts] is [None] for a [nil] pointer. *)
Definition resolveMatrixContext (pipelineRunStatus : PipelineRunStatus.t)
    (facts : option PipelineRunFacts.t) (p : Param.t) (r : resolution)
    : option resolution :=
  let '(pipelineTaskName, resultName) := Param_ParseTaskandResultName p in
  let r :=
    mkResolution (countCombinations pipelineRunStatus pipelineTaskName (replacements r))
                 (state r) (computed r) in
  if bool_decide (pipelineTaskName ≠ "") && bool_decide (resultName ≠ "") then
    facts ← facts;
    foldM (lookupResultLength pipelineTaskName resultName) (PipelineRunFacts.State facts) r
  else Some r.

(** The replacements that lines 187-218 build. *)
Definition taskContextReplacements (pt : PipelineTask.t)
    (pipelineRunStatus : PipelineRunStatus.t) (facts : option PipelineRunFacts.t)
    (state : entries) : option resolution :=
  foldM (resolveMatrixContext pipelineRunStatus facts)
        (filterMatrixContextVar (PipelineTask.Params pt))
        (mkResolution {[ "context.pipelineTask.retries" := Go.Itoa (PipelineTask.Retries pt) ]}
                      state []).


(** Lines 181-229: the store of tasks after the call, the pointer
    returned, the run state after the call and the record of the cache
    computations. *)
Definition ApplyPipelineTaskContexts (h : tasks) (pt : loc)
    (pipelineRunStatus : PipelineRunStatus.t) (facts : option PipelineRunFacts.t)
    (runState : entries) : option (tasks * loc * entries * list loc) :=
  task ← h !! pt;
  let copy := fresh (dom h) in
  r ← taskContextReplacements task pipelineRunStatus facts runState;
  let task :=
    PipelineTask.setParams
      (Params_ReplaceVariables (PipelineTask.Params task) (replacements r)
         (Some ∅) (Some ∅)) task in
  task ← (if IsMatrixed task then
            m ← PipelineTask.Matrix task;
            Some (PipelineTask.setMatrix
                    (Some (Resolvers.replaceMatrix (replacements r)
                             (Some ∅) (Some ∅) (Some ∅) (Some ∅) m))
                    task)
          else Some task);
  let task :=
    PipelineTask.setDisplayName
      (substitution_ApplyReplacements (PipelineTask.DisplayName task) (replacements r))
      task in
  Some (<[copy := task]> h, copy, state r, computed r).

(** The body of the loop of [ApplyTaskResults], lines 238-261, on the copy
    of the task of an entry. *)
Definition applyTaskResults (stringReplacements : gmap string string)
    (arrayReplacements : gmap string (list string))
    (objectReplacements : gmap string (gmap string string))
    (pipelineTask : PipelineTask.t) : option PipelineTask.t :=
  let pipelineTask :=
    PipelineTask.setParams
      (Params_ReplaceVariables (PipelineTask.Params pipelineTask) stringReplacements
         (Some arrayReplacements) (Some objectReplacements)) pipelineTask in
  pipelineTask ←
    (if IsMatrixed pipelineTask then
       m ← PipelineTask.Matrix pipelineTask;
       Some (PipelineTask.setMatrix
               (Some (Resolvers.replaceMatrix stringReplacements
                        (Some arrayReplacements) None None None m))
               pipelineTask)
     else Some pipelineTask);
  let pipelineTask :=
    PipelineTask.setWhen
      (WhenExpressions_ReplaceVariables (PipelineTask.When pipelineTask)
         stringReplacements (Some arrayReplacements)) pipelineTask in
  let pipelineTask :=
    PipelineTask.setTaskRef
      (Resolvers.replaceTaskRef stringReplacements (Some arrayReplacements)
         (Some objectReplacements) <$> PipelineTask.TaskRef pipelineTask)
      pipelineTask in
  let pipelineTask :=
    PipelineTask.setDisplayName
      (substitution_ApplyReplacements (PipelineTask.DisplayName pipelineTask)
         stringReplacements) pipelineTask in
  Some (PipelineTask.setWorkspaces
          (Resolvers.replaceSubPaths stringReplacements
             (PipelineTask.Workspaces pipelineTask))
          pipelineTask).

(** The body of the loop of [ApplyPipelineTaskStateContext], lines
    270-280. *)
Definition applyStateContext (replacements : gmap string string)
    (pipelineTask : PipelineTask.t) : PipelineTask.t :=
  let pipelineTask :=
    PipelineTask.setParams
      (Params_ReplaceVariables (PipelineTask.Params pipelineTask) replacements None None)
      pipelineTask in
  let pipelineTask :=
    PipelineTask.setWhen
      (WhenExpressions_ReplaceVariables (PipelineTask.When pipelineTask) replacements None)
      pipelineTask in
  let pipelineTask :=
    PipelineTask.setTaskRef
      (Resolvers.replaceTaskRef replacements None None <$> PipelineTask.TaskRef pipelineTask)
      pipelineTask in
  PipelineTask.setDisplayName
    (substitution_ApplyReplacements (PipelineTask.DisplayName pipelineTask) replacements)
    pipelineTask.

(** The loop shared by the two functions: an entry whose [PipelineTask] is
    not [nil] gets the pointer to the substituted copy, any other entry is
    passed over; [None] when a pointer of the state is [nil]. *)
Definition updateEntry (body : PipelineTask.t → option PipelineTask.t) (l : loc)
    (state : entries) : option entries :=
  resolvedPipelineRunTask ← state !! l;
  match ResolvedPipelineTask.PipelineTask_ resolvedPipelineRunTask with
  | Some task =>
      pipelineTask ← body task;
      Some (<[l := ResolvedPipelineTask.setPipelineTask (Some pipelineTask)
                      resolvedPipelineRunTask]> state)
  | None => Some state
  end.

(** Lines 232-264. *)
Definition ApplyTaskResults (targets : PipelineRunState)
    (resolvedResultRefs : ResolvedResultRefs) (state : entries) : option entries :=
  let stringReplacements := getStringReplacements resolvedResultRefs in
  let arrayReplacements := getArrayReplacements resolvedResultRefs in
  let objectReplacements := getObjectReplacements resolvedResultRefs in
  foldM (updateEntry (applyTaskResults stringReplacements arrayReplacements
                        objectReplacements))
        targets state.

(** Lines 267-283. *)
Definition ApplyPipelineTaskStateContext (targets : PipelineRunState)
    (replacements : gmap string string) (state : entries) : option entries :=
  foldM (updateEntry (λ task, Some (applyStateContext replacements task))) targets state.

(** The task named by a reference is not found: no task of the pipeline
    specification of the status has the name, and no entry of the run
    state has it. *)
Definition notInSpec (pipelineRunStatus : PipelineRunStatus.t) (pipelineTaskName : string)
    : Prop :=
  ∀ spec task,
    PipelineRunStatus.PipelineSpec_ pipelineRunStatus = Some spec →
    task ∈ PipelineSpec.Tasks spec →
    PipelineTask.Name task ≠ pipelineTaskName.

Definition notInState (facts : option PipelineRunFacts.t) (state : entries)
    (pipelineTaskName : string) : Prop :=
  ∃ facts', facts = Some facts'
    ∧ ∀ l, l ∈ PipelineRunFacts.State facts' →
           ∃ entry task,
             state !! l = Some entry
             ∧ ResolvedPipelineTask.PipelineTask_ entry = Some task
             ∧ PipelineTask.Name task ≠ pipelineTaskName.

Definition notFound (pipelineRunStatus : PipelineRunStatus.t)
    (facts : option PipelineRunFacts.t) (state : entries) (p : Param.t) : Prop :=
  notInSpec pipelineRunStatus (Param_ParseTaskandResultName p).1
  ∧ ((Param_ParseTaskandResultName p).1 = ""
     ∨ (Param_ParseTaskandResultName p).2 = ""
     ∨ notInState facts state (Param_ParseTaskandResultName p).1).

(** How often the cache of the entry at [l] was computed. *)
Definition timesComputed (l : loc) (computed : list loc) : nat :=
  length (filter (λ l', l' = l) computed).

(** What the loop keeps true of the entry at each location, [state0] being
    the run state at the start of the call: either its cache was not
    computed and the entry is as it was, or its cache was empty, was
    computed, and the entry holds the computed cache; and a computed cache
    that is not empty was computed once. *)
Definition cacheInvariant (state0 : entries) (r : resolution) : Prop :=
  ∀ l,
    match state0 !! l with
    | None => state r !! l = None ∧ (l ∉ computed r)
    | Some entry0 =>
        ((l ∉ computed r) ∧ state r !! l = Some entry0)
        ∨ (size (ResolvedPipelineTask.ResultsCache entry0) = 0%nat
           ∧ (l ∈ computed r)
           ∧ state r !! l
             = Some (ResolvedPipelineTask.setResultsCache
                       (createResultsCacheMatrixedTaskRuns entry0) entry0)
           ∧ (size (createResultsCacheMatrixedTaskRuns entry0) ≠ 0%nat →
              timesComputed l (computed r) = 1%nat))
    end.

End WithExternals.
End RunState.

(** ** A reference instance of the resolvers' externals *)

Module ReferenceResolvers.

(** The identity escapes nothing: it is what [strconv.Quote] does to a name
    of letters, digits, dashes and dots. *)
Definition goQuote : GoQuote := {| escape := id |}.

(** An embedded task is represented by its script, the results of the runs
    of a task by the results of each run in the order of the runs, and the
    resolved references by the three maps they resolve to. *)
Definition foreign : Foreign := {|
  TaskSpec := string;
  TaskRuns := list (list (string * string));
  ResolvedResultRefs := Parameters.replacements
|}.
#[local] Existing Instance foreign.

(** Modelled from the spec: section 4.1, the Substitution Engine on each
    value of a list of parameters; a map that is not supplied matches no
    key. *)
Definition replaceVariables (params : list Param.t) (sr : gmap string string)
    (ar : option (gmap string (list string)))
    (or : option (gmap string (gmap string string))) : list Param.t :=
  (λ p, Param.mk (Param.Name p)
          (Reference.applyReplacements (Param.Value p) sr (default ∅ ar) (default ∅ or)))
    <$> params.

(** Modelled from the spec: section 4.6, the substitution into the
    when-conditions, with the string map and the array map. *)
Definition replaceWhen (when : list WhenExpression.t) (sr : gmap string string)
    (ar : option (gmap string (list string))) : list WhenExpression.t :=
  (λ w, WhenExpression.mk (Reference.substitute (WhenExpression.Input w) sr)
          (WhenExpression.Operator w)
          (concat (Reference.substituteElement sr (default ∅ ar) <$> WhenExpression.Values w))
          (WhenExpression.CEL w))
    <$> when.

(** Modelled from the spec: section 3, a matrixed task owns a matrix
    specification of parameters and of extra combinations. *)
Definition isMatrixed (t : PipelineTask.t) : bool :=
  match PipelineTask.Matrix t with
  | Some m =>
      bool_decide (Matrix.Params m ≠ []) || bool_decide (Matrix.Include m ≠ [])
  | None => false
  end.

(** Modelled from the spec: the Substitution Engine of section 4.1 applied
    to the fields of a task, and the three maps of section 3. *)
Definition substitutionExternals : SubstitutionExternals := {|
  substitution_ApplyReplacements := Reference.substitute;
  Params_ReplaceVariables := replaceVariables;
  WhenExpressions_ReplaceVariables := replaceWhen;
  resources_ApplyReplacements := λ script sr _ _, Reference.substitute script sr;
  IsMatrixed := isMatrixed;
  getStringReplacements := Parameters.stringReplacements;
  getArrayReplacements := Parameters.arrayReplacements;
  getObjectReplacements := Parameters.objectReplacements
|}.

(** Modelled from the spec: section 4.2, the Reference Extractor on the
    value of a parameter, and whether it found an expression. *)
Definition expressionsOf (p : Param.t) : list string * bool :=
  let expressions := Reference.valueExpressions (Param.Value p) in
  (expressions, bool_decide (expressions ≠ [])).

(** Modelled from the spec: section 4.5, the task and the result named by a
    reference of the form [tasks.<name>.matrix.length] or
    [tasks.<name>.matrix.<result>.length]. *)
Fixpoint parseTaskAndResult (expressions : list string) : string * string :=
  match expressions with
  | [] => (EmptyString, EmptyString)
  | expression :: rest =>
      match Go.Split_dot expression with
      | [_; name; _; _] => (name, EmptyString)
      | [_; name; _; result; _] => (name, result)
      | _ => parseTaskAndResult rest
      end
  end.

(** Modelled from the spec: section 4.5, "product of each matrix
    parameter's value-sequence length, or explicit include count when no
    matrix axes are defined". *)
Definition countCombinations (m : option Matrix.t) : Z :=
  match m with
  | None => 0
  | Some m =>
      match Matrix.Params m with
      | [] => Z.of_nat (length (Matrix.Include m))
      | params =>
          foldr (λ p n, Z.of_nat (length (ParamValue.ArrayVal (Param.Value p))) * n) 1 params
      end
  end.

(** Modelled from the spec: section 4.5, "gathering the named result's
    value across every one of that task's matrix-expanded child runs in
    run-execution order". *)
Definition resultsCache (entry : ResolvedPipelineTask.t) : gmap string (list string) :=
  foldl (λ cache run,
           foldl (λ cache result,
                    <[result.1 := default [] (cache !! result.1) ++ [result.2]]> cache)
                 cache run)
        ∅ (ResolvedPipelineTask.TaskRuns_ entry).

Definition matrixExternals : MatrixExternals := {|
  Param_GetVarSubstitutionExpressions := expressionsOf;
  Param_ParseTaskandResultName := λ p, parseTaskAndResult (expressionsOf p).1;
  Matrix_CountCombinations := countCombinations;
  createResultsCacheMatrixedTaskRuns := resultsCache
|}.

Definition task (name displayName : string) (params : list Param.t)
    (matrix : option Matrix.t) : PipelineTask.t :=
  PipelineTask.mk _ name displayName 0 params matrix [] None None [] EmptyString.

Definition entry (task : option PipelineTask.t) (runs : list (list (string * string)))
    (cache : gmap string (list string)) : ResolvedPipelineTask.t :=
  ResolvedPipelineTask.mk foreign task runs cache.

End ReferenceResolvers.

(** ** Results and artifacts of the task runs *)

(** What the propagation of results and artifacts takes from other files
    of the repository and from [encoding/json]. *)
Class PropagationExternals := {
  (** [workspace.ReplaceWorkspaceBindingsVars] *)
  ReplaceWorkspaceBindingsVars :
    list WorkspaceBinding.t → gmap string string → list WorkspaceBinding.t;
  (** [v1.ArtifactValue] and the errors of [json.Marshal] *)
  ArtifactValue : Type;
  MarshalError : Type;
  (** [json.Marshal] on a [[]v1.ArtifactValue], the bytes as a string *)
  json_Marshal : list ArtifactValue → MarshalError + string
}.

(** [v1.Artifact]: a name and its values. *)
Module Artifact.
Record t `{PropagationExternals} := mk { Name : string; Values : list ArtifactValue }.
End Artifact.

(** [v1.Artifacts]. *)
Module Artifacts.
Record t `{PropagationExternals} := mk {
  Inputs : list Artifact.t;
  Outputs : list Artifact.t
}.
End Artifacts.

(** [resources.ResolvedTask]; [TaskSpec] is a pointer, [None] when
    [nil]. *)
Module ResolvedTask.
Record t `{Foreign} := mk { TaskSpec_ : option TaskSpec }.
End ResolvedTask.

(** The functions of this part [range] over Go maps, which visits the
    entries in an order that the language leaves open.  They take the
    entries as the list in which the [range] visits them, and their
    properties are stated for every such list. *)
Module Propagation.
Import Parameters.

Section WithExternals.
Context `{SubstitutionExternals} `{!GoQuote} `{!PropagationExternals}.

(** [fmt.Sprintf("tasks.%s.results.%s", taskName, name)]. *)
Definition resultKey (taskName name : string) : string :=
  "tasks." +:+ taskName +:+ ".results." +:+ name.

(** [fmt.Sprintf("tasks.%s.results.%s.%s", taskName, name, k)]. *)
Definition resultAttributeKey (taskName name k : string) : string :=
  "tasks." +:+ taskName +:+ ".results." +:+ name +:+ "." +:+ k.

(** The loop over the attributes of an object result, lines 398-400 and
    423-425; the keys written for one result are distinct. *)
Definition setResultAttributes (taskName name : string) (attributes : gmap string string)
    (stringReplacements : gmap string string) : gmap string string :=
  map_fold (λ k v sr, <[resultAttributeKey taskName name k := v]> sr)
           stringReplacements attributes.

Definition setRunWorkspaces (workspaces : list WorkspaceBinding.t) (pr : PipelineRun.t)
    : PipelineRun.t :=
  PipelineRun.mk (PipelineRun.Name pr) (PipelineRun.Namespace pr) (PipelineRun.UID pr)
    (PipelineRunSpec.mk (PipelineRunSpec.Params (PipelineRun.Spec pr)) workspaces).

(** The [switch] of lines 392-401 for one result of the task
    [taskName]. *)
Definition bindingResult (taskName : string) (stringReplacements : gmap string string)
    (res : TaskRunResult.t) : gmap string string :=
  match TaskRunResult.Type_ res with
  | ParamTypeString =>
      <[resultKey taskName (TaskRunResult.Name res) :=
          ParamValue.StringVal (TaskRunResult.Value res)]> stringReplacements
  | ParamTypeArray => stringReplacements
  | ParamTypeObject =>
      setResultAttributes taskName (TaskRunResult.Name res)
        (ParamValue.ObjectVal (TaskRunResult.Value res)) stringReplacements
  | ParamTypeOther _ => stringReplacements
  end.

(** Lines 389-403, the entries of [trResults] in the order in which the
    [range] visits them. *)
Definition bindingReplacements (trResults : list (string * list TaskRunResult.t))
    : gmap string string :=
  foldl (λ sr '(taskName, taskResults), foldl (bindingResult taskName) sr taskResults)
        ∅ trResults.

(** Lines 388-406; the run after the call. *)
Definition ApplyResultsToWorkspaceBindings
    (trResults : list (string * list TaskRunResult.t)) (pr : PipelineRun.t)
    : PipelineRun.t :=
  setRunWorkspaces
    (ReplaceWorkspaceBindingsVars (PipelineRunSpec.Workspaces (PipelineRun.Spec pr))
       (bindingReplacements trResults))
    pr.

(** Lines 620-623; the run after the call. *)
Definition ApplyParametersToWorkspaceBindings (pr : PipelineRun.t) : PipelineRun.t :=
  let parameters := stringReplacements (paramsFromPipelineRun pr) in
  setRunWorkspaces
    (ReplaceWorkspaceBindingsVars (PipelineRunSpec.Workspaces (PipelineRun.Spec pr))
       parameters)
    pr.

(** The [switch] of lines 417-426 for one result of the task
    [taskName]. *)
Definition propagatedResult (taskName : string) (m : replacements) (res : TaskRunResult.t)
    : replacements :=
  match TaskRunResult.Type_ res with
  | ParamTypeString =>
      setString (resultKey taskName (TaskRunResult.Name res))
        (ParamValue.StringVal (TaskRunResult.Value res)) m
  | ParamTypeArray =>
      setArray (resultKey taskName (TaskRunResult.Name res))
        (ParamValue.ArrayVal (TaskRunResult.Value res)) m
  | ParamTypeObject =>
      mkReplacements
        (setResultAttributes taskName (TaskRunResult.Name res)
           (ParamValue.ObjectVal (TaskRunResult.Value res)) (stringReplacements m))
        (arrayReplacements m) (objectReplacements m)
  | ParamTypeOther _ => m
  end.

(** Lines 413-428, the entries of [runStates.GetTaskRunsResults()] in the
    order in which the [range] visits them. *)
Definition propagatedReplacements (taskRunsResults : list (string * list TaskRunResult.t))
    : replacements :=
  foldl (λ m '(taskName, taskResults), foldl (propagatedResult taskName) m taskResults)
        empty taskRunsResults.

(** Lines 409-430, on the field [ResolvedTask] of the entry, the only one
    that the function reads or writes: the field after the call.
    [taskRunsResults] is what [runStates.GetTaskRunsResults()] returns. *)
Definition PropagateResults (resolvedTask : option ResolvedTask.t)
    (taskRunsResults : list (string * list TaskRunResult.t)) : option ResolvedTask.t :=
  match resolvedTask with
  | None => None
  | Some task =>
      match ResolvedTask.TaskSpec_ task with
      | None => Some task
      | Some spec =>
          let m := propagatedReplacements taskRunsResults in
          Some (ResolvedTask.mk _
                  (Some (resources_ApplyReplacements spec (stringReplacements m)
                           (arrayReplacements m) ∅)))
      end
  end.

(** [fmt.Sprintf("tasks.%s.inputs.%s", taskName, name)] and its form for
    the outputs; [kind] is [inputs] or [outputs]. *)
Definition artifactKey (taskName kind name : string) : string :=
  "tasks." +:+ taskName +:+ "." +:+ kind +:+ "." +:+ name.

(** [fmt.Sprintf("tasks.%s.inputs", taskName)] and its form for the
    outputs. *)
Definition firstArtifactKey (taskName kind : string) : string :=
  "tasks." +:+ taskName +:+ "." +:+ kind.

(** The loops of lines 440-449 and 450-459 from the index [i] on; the two
    texts are the same up to [inputs] and [outputs]. *)
Fixpoint bindArtifacts (taskName kind : string) (i : nat) (artifacts : list Artifact.t)
    (stringReplacements : gmap string string) : MarshalError + gmap string string :=
  match artifacts with
  | [] => inr stringReplacements
  | artifact :: rest =>
      match json_Marshal (Artifact.Values artifact) with
      | inl err => inl err
      | inr b =>
          let stringReplacements :=
            <[artifactKey taskName kind (Artifact.Name artifact) := b]> stringReplacements in
          let stringReplacements :=
            if bool_decide (i = 0%nat)
            then <[firstArtifactKey taskName kind := b]> stringReplacements
            else stringReplacements in
          bindArtifacts taskName kind (S i) rest stringReplacements
      end
  end.

(** The body of the loop of lines 438-461 for the artifacts of one task,
    a pointer that may be [nil]. *)
Definition bindTaskArtifacts (taskName : string) (artifacts : option Artifacts.t)
    (stringReplacements : gmap string string) : MarshalError + gmap string string :=
  match artifacts with
  | None => inr stringReplacements
  | Some artifacts =>
      match bindArtifacts taskName "inputs" 0 (Artifacts.Inputs artifacts)
              stringReplacements with
      | inl err => inl err
      | inr stringReplacements =>
          bindArtifacts taskName "outputs" 0 (Artifacts.Outputs artifacts)
            stringReplacements
      end
  end.

(** Lines 437-461, the entries of [runStates.GetTaskRunsArtifacts()] in
    the order in which the [range] visits them. *)
Fixpoint artifactReplacements (taskRunsArtifacts : list (string * option Artifacts.t))
    (stringReplacements : gmap string string) : MarshalError + gmap string string :=
  match taskRunsArtifacts with
  | [] => inr stringReplacements
  | (taskName, artifacts) :: rest =>
      match bindTaskArtifacts taskName artifacts stringReplacements with
      | inl err => inl err
      | inr stringReplacements => artifactReplacements rest stringReplacements
      end
  end.

(** Lines 433-464, on the field [ResolvedTask] of the entry: the field
    after the call and the error returned, [None] for [nil]. *)
Definition PropagateArtifacts (resolvedTask : option ResolvedTask.t)
    (taskRunsArtifacts : list (string * option Artifacts.t))
    : option ResolvedTask.t * option MarshalError :=
  match resolvedTask with
  | None => (None, None)
  | Some task =>
      match ResolvedTask.TaskSpec_ task with
      | None => (Some task, None)
      | Some spec =>
          match artifactReplacements taskRunsArtifacts ∅ with
          | inl err => (Some task, Some err)
          | inr stringReplacements =>
              (Some (ResolvedTask.mk _
                       (Some (resources_ApplyReplacements spec stringReplacements ∅ ∅))),
               None)
          end
      end
  end.

(** What a result of the task [taskName] writes to the string map: a
    string result its string under the key of the result, an object result
    each attribute under the key of the attribute; and what it writes to
    the array map of [PropagateResults]. *)
Definition stringWrite (taskName : string) (res : TaskRunResult.t) (key v : string)
    : Prop :=
  (TaskRunResult.Type_ res = ParamTypeString
   ∧ key = resultKey taskName (TaskRunResult.Name res)
   ∧ v = ParamValue.StringVal (TaskRunResult.Value res))
  ∨ (TaskRunResult.Type_ res = ParamTypeObject
     ∧ ∃ k, key = resultAttributeKey taskName (TaskRunResult.Name res) k
            ∧ ParamValue.ObjectVal (TaskRunResult.Value res) !! k = Some v).

Definition arrayWrite (taskName : string) (res : TaskRunResult.t) (key : string)
    (a : list string) : Prop :=
  TaskRunResult.Type_ res = ParamTypeArray
  ∧ key = resultKey taskName (TaskRunResult.Name res)
  ∧ a = ParamValue.ArrayVal (TaskRunResult.Value res).

(** What the artifact at the index [j] of the inputs ([kind] is [inputs])
    or of the outputs of the task [taskName] writes, [b] being the encoding
    of its values. *)
Definition artifactWrite (taskName kind : string) (j : nat) (artifact : Artifact.t)
    (key b : string) : Prop :=
  json_Marshal (Artifact.Values artifact) = inr b
  ∧ (key = artifactKey taskName kind (Artifact.Name artifact)
     ∨ (key = firstArtifactKey taskName kind ∧ j = 0%nat)).

(** What the artifacts of the task [taskName] write: what one of its
    inputs or one of its outputs writes. *)
Definition taskArtifactWrite (taskName : string) (artifacts : Artifacts.t)
    (key b : string) : Prop :=
  ∃ j artifact,
    (Artifacts.Inputs artifacts !! j = Some artifact
     ∧ artifactWrite taskName "inputs" j artifact key b)
    ∨ (Artifacts.Outputs artifacts !! j = Some artifact
       ∧ artifactWrite taskName "outputs" j artifact key b).

End WithExternals.
End Propagation.

(** ** Notions used to state the properties of the replacement maps *)

Module Keys.
Import Parameters.

Section WithQuote.
Context `{GoQuote}.

(** The map [m], one of the three that lines 55-97 build, holds what the
    defaults and the values of the run write, and nothing else: every entry
    of [m] is an entry that one of the writers writes, and every key that
    a writer writes is a key of [m]. *)
Definition writtenBy {A} (proj : replacements → gmap string A)
    (params : list ParamSpec.t) (pr : PipelineRun.t) (m : gmap string A) : Prop :=
  (∀ key x, m !! key = Some x →
            ∃ name value, (name, value) ∈ writers params pr
                          ∧ proj (written name value) !! key = Some x)
  ∧ (∀ name value key,
       (name, value) ∈ writers params pr →
       is_Some (proj (written name value) !! key) →
       is_Some (m !! key)).

(** The body of the loop over [paramPatterns] of lines 362-377, for the
    parameter [par] of the task and one pattern. *)
Definition scopePattern (par : Param.t) (dup : replacements) (pattern : pattern)
    : replacements :=
  let checkName := Sprintf pattern (Param.Name par) in
  let dup :=
    if bool_decide (is_Some (stringReplacements dup !! checkName))
    then setString checkName (ParamValue.StringVal (Param.Value par)) dup
    else dup in
  let dup :=
    if bool_decide (is_Some (arrayReplacements dup !! checkName))
    then setArray checkName (ParamValue.ArrayVal (Param.Value par)) dup
    else dup in
  if bool_decide (is_Some (objectReplacements dup !! checkName))
  then setAttributes (Param.Name par) (ParamValue.ObjectVal (Param.Value par))
         (setObject checkName (ParamValue.ObjectVal (Param.Value par)) dup)
  else dup.

(** The copies of the three maps after lines 361-378. *)
Definition scopeParams (params : list Param.t) (dup : replacements) : replacements :=
  foldl (λ dup par, foldl (scopePattern par) dup paramPatterns) dup params.

End WithQuote.
End Keys.

(** ** A reference instance of the externals of the propagation *)

Module ReferencePropagation.

(** Modelled from the spec: the Substitution Engine of section 4.1 on the
    sub-path of each workspace binding of the run. *)
Definition replaceBindings (bindings : list WorkspaceBinding.t)
    (sr : gmap string string) : list WorkspaceBinding.t :=
  (λ b, WorkspaceBinding.mk (WorkspaceBinding.Name b)
          (Reference.substitute (WorkspaceBinding.SubPath b) sr))
    <$> bindings.

Fixpoint join_comma (l : list string) : string :=
  match l with
  | [] => EmptyString
  | [x] => x
  | x :: rest => x +:+ "," +:+ join_comma rest
  end.

(** Modelled from the spec: section 7, "SerializationFailure (artifact
    value cannot be encoded)".  A value is its text, or a value that the
    encoder refuses; the encoding of the values is their texts between
    brackets, separated by commas. *)
Definition marshal (values : list (option string)) : string + string :=
  match mapM id values with
  | Some texts => inr ("[" +:+ join_comma texts +:+ "]")
  | None => inl "unsupported value"
  end.

Definition propagationExternals : PropagationExternals := {|
  ReplaceWorkspaceBindingsVars := replaceBindings;
  ArtifactValue := option string;
  MarshalError := string;
  json_Marshal := marshal
|}.

End ReferencePropagation.

(* ================================================================= *)
(** * Properties *)

(** ** Go's standard library *)

Module GoFacts.
Import Go.

Lemma Split_dot_nonempty s : Split_dot s ≠ [].
Proof.
  destruct s as [|c s]; simpl; [done|].
  destruct (Ascii.eqb c "."); [done|]. by destruct (Split_dot s).
Qed.

Lemma Split_dot_head s : is_Some (Split_dot s !! 0%nat).
Proof.
  pose proof (Split_dot_nonempty s). destruct (Split_dot s); [done|]. by eexists.
Qed.

Lemma to_uint_first (p : positive) :
  ∃ c rest, NilZero.string_of_uint (Pos.to_uint p) = String c rest
            ∧ c ≠ "+"%char ∧ c ≠ "-"%char ∧ c ≠ "*"%char
            ∧ Pos.to_uint p ≠ Nil.
Proof.
  pose proof (DecimalPos.Unsigned.to_uint_nonnil p) as Hnn.
  destruct (Pos.to_uint p) eqn:E; [done|..];
    (eexists _, _; split; [reflexivity|]; repeat split; done).
Qed.

Lemma Itoa_nonneg_first (z : Z) :
  0 ≤ z →
  ∃ c rest u, Itoa z = String c rest ∧ c ≠ "+"%char ∧ c ≠ "-"%char ∧ c ≠ "*"%char
              ∧ NilZero.uint_of_string (String c rest) = Some u ∧ Z.of_uint u = z.
Proof.
  intros Hz. unfold Itoa. destruct z as [|p|p]; [| |lia].
  - exists "0"%char, EmptyString, (D0 Nil). by repeat split.
  - destruct (to_uint_first p) as (c & rest & E & ? & ? & ? & Hnn).
    exists c, rest, (Pos.to_uint p).
    change (Z.to_int (Z.pos p)) with (Decimal.Pos (Pos.to_uint p)).
    change (NilZero.string_of_int (Decimal.Pos (Pos.to_uint p)))
      with (NilZero.string_of_uint (Pos.to_uint p)).
    rewrite <- E. repeat split; try done.
    + by apply NilZero.usu.
    + unfold Z.of_uint. rewrite DecimalPos.Unsigned.of_to. done.
Qed.

(** Reading back the decimal text of a natural number gives the number,
    or the largest [int] when the number does not fit. *)
Lemma Atoi_Itoa_nat (i : nat) :
  Atoi (Itoa (Z.of_nat i)) = Z.min MaxInt (Z.of_nat i).
Proof.
  destruct (Itoa_nonneg_first (Z.of_nat i)) as (c & rest & u & -> & Hp & Hm & _ & Hu & Hz);
    [lia|].
  unfold Atoi.
  destruct (Ascii.eqb_spec c "+"); [done|].
  destruct (Ascii.eqb_spec c "-"); [done|].
  rewrite Hu, Hz. unfold clamp, MinInt, MaxInt. lia.
Qed.

Lemma Itoa_nat_not_star (i : nat) : Itoa (Z.of_nat i) ≠ "*".
Proof.
  destruct (Itoa_nonneg_first (Z.of_nat i)) as (c & rest & u & -> & _ & _ & Hs & _);
    [lia|].
  intros [= -> _]. done.
Qed.

End GoFacts.

(** ** The aggregator *)

Lemma foldM_app {A B : Type} (f : B → A → option A) (l1 l2 : list B) (a : A) :
  foldM f (l1 ++ l2) a = foldM f l1 a ≫= foldM f l2.
Proof.
  revert a. induction l1 as [|b l1 IH]; intros a; simpl; [done|].
  destruct (f b a); simpl; [apply IH|done].
Qed.

Global Arguments Aggregator.resolveVariable : simpl never.
Global Arguments Aggregator.resolvePipelineResult : simpl never.

Module AggregatorFacts.
Import Aggregator.

Section WithExternals.
Context `{ResultExternals}.
Variable taskRunResults : gmap string (list TaskRunResult.t).
Variable customTaskResults : gmap string (list CustomRunResult.t).
Variable taskstatus : gmap string string.

Local Abbreviation resolveVariable :=
  (resolveVariable taskRunResults customTaskResults taskstatus).
Local Abbreviation resolvePipelineResult :=
  (resolvePipelineResult taskRunResults customTaskResults taskstatus).
Local Abbreviation ApplyTaskResultsToPipelineResults :=
  (ApplyTaskResultsToPipelineResults taskRunResults customTaskResults taskstatus).

Local Abbreviation resolve :=
  (resolve taskRunResults customTaskResults taskstatus).

Lemma missingResult_missing name taskName valid s :
  Some (missingResult taskstatus name taskName valid s)
  = commit name name (missing taskstatus taskName) (valid, s).
Proof.
  unfold missingResult, missing.
  destruct (taskstatus !! statusKey taskName); [|done]. by case_bool_decide.
Qed.

(** The inner loop is the memo check followed by the commit of a
    decision that does not depend on the variables. *)
Lemma resolveVariable_factor name variable acc :
  resolveVariable name variable acc =
    if isMemoized variable acc.2 then Some acc
    else commit name variable (resolve variable) acc.
Proof.
  destruct acc as [valid s]. unfold Aggregator.resolveVariable, Aggregator.resolve. simpl.
  destruct (isMemoized variable s); [done|].
  destruct (Go.Split_dot variable) as [|p0 rest]; [done|]. simpl.
  case_bool_decide; [done|].
  destruct rest as [|taskName [|p2 rest']]; [done..|]. simpl.
  case_bool_decide; [done|].
  destruct rest' as [|p3 [|objectKey [|? ?]]]; simpl; try done.
  - destruct (ParseResultName p3) as [resultName stringIdx]; simpl.
    destruct (taskResultValue _ _ _) as [resultValue|]; simpl.
    + destruct (ParamValue.Type_ resultValue); simpl; try done.
      repeat case_bool_decide; simpl; try done.
      by destruct (ParamValue.ArrayVal resultValue !! _).
    + destruct (runResultValue _ _ _); simpl; [done|].
      rewrite missingResult_missing.
      unfold commit, missing. simpl.
      destruct (taskstatus !! _); [|done]. by case_bool_decide.
  - destruct (ParseResultName p3) as [resultName stringIdx]; simpl.
    destruct (taskResultValue _ _ _) as [resultValue|]; simpl.
    + by destruct (ParamValue.ObjectVal resultValue !! objectKey).
    + rewrite missingResult_missing.
      unfold commit, missing. simpl.
      destruct (taskstatus !! _); [|done]. by case_bool_decide.
Qed.

Lemma isMemoized_init variable : isMemoized variable init = false.
Proof.
  unfold isMemoized, init; simpl. rewrite !lookup_empty.
  rewrite !bool_decide_eq_false_2; [done|apply is_Some_None..].
Qed.

Lemma isMemoized_false variable s :
  isMemoized variable s = false ↔
    stringReplacements s !! variable = None
    ∧ arrayReplacements s !! variable = None
    ∧ objectReplacements s !! variable = None.
Proof.
  unfold isMemoized. rewrite !orb_false_iff, !bool_decide_eq_false.
  rewrite <- !eq_None_not_Some. tauto.
Qed.

Global Instance extends_preorder : PreOrder extends.
Proof.
  split.
  - intros s. by repeat split.
  - intros s1 s2 s3 (?&?&?) (?&?&?). repeat split; by etrans.
Qed.

Lemma resolveVariable_extends name variable valid s valid' s' :
  resolveVariable name variable (valid, s) = Some (valid', s') →
  extends s s' ∧ runResults s' = runResults s ∧ (valid' = true → valid = true).
Proof.
  rewrite resolveVariable_factor. simpl.
  destruct (isMemoized variable s) eqn:Hmemo.
  { intros [= <- <-]. done. }
  apply isMemoized_false in Hmemo as (Hs & _ & _).
  destruct (resolve variable); simpl; intros [= <- <-];
    (split; [|done]); repeat split; simpl; try done.
  - by apply prefix_app_r.
  - by apply insert_subseteq.
Qed.

Lemma resolveVariables_extends name variables valid s valid' s' :
  foldM (resolveVariable name) variables (valid, s) = Some (valid', s') →
  extends s s' ∧ runResults s' = runResults s ∧ (valid' = true → valid = true).
Proof.
  revert valid s. induction variables as [|v vs IH]; intros valid s; simpl.
  { intros [= <- <-]. done. }
  destruct (resolveVariable name v (valid, s)) as [[valid1 s1]|] eqn:E; [|done].
  intros Hrest. apply resolveVariable_extends in E as (? & ? & ?).
  apply IH in Hrest as (? & ? & ?).
  split; [by etrans|split; [congruence|tauto]].
Qed.

Lemma resolvePipelineResult_extends pipelineResult s s' :
  resolvePipelineResult pipelineResult s = Some s' → extends s s'.
Proof.
  unfold Aggregator.resolvePipelineResult. case_bool_decide.
  { intros [= <-]. done. }
  destruct (foldM _ _ _) as [[valid s1]|] eqn:E; [|done]. simpl.
  apply resolveVariables_extends in E as ((? & ? & ?) & ? & _).
  destruct valid; intros [= <-]; [|done].
  repeat split; simpl; try done. by apply prefix_app_r.
Qed.

Lemma resolvePipelineResults_extends results s s' :
  foldM resolvePipelineResult results s = Some s' → extends s s'.
Proof.
  revert s. induction results as [|r rs IH]; intros s; simpl.
  { intros [= <-]. done. }
  destruct (resolvePipelineResult r s) as [s1|] eqn:E; [|done].
  intros Hrest. apply resolvePipelineResult_extends in E.
  apply IH in Hrest. by etrans.
Qed.

(** A reference of four or five segments whose result is in neither
    table is decided by the recorded status alone. *)
Lemma resolve_missing variable p0 taskName p3 keys :
  Go.Split_dot variable = p0 :: taskName :: ResultResultPart :: p3 :: keys →
  (length keys ≤ 1)%nat →
  p0 = ResultTaskPart ∨ p0 = ResultFinallyPart →
  taskResultValue taskName (ParseResultName p3).1 taskRunResults = None →
  runResultValue taskName (ParseResultName p3).1 customTaskResults = None →
  resolve variable = missing taskstatus taskName.
Proof.
  intros Hsplit Hlen Hp0 Htask Hrun. unfold Aggregator.resolve. rewrite Hsplit.
  rewrite bool_decide_eq_false_2 by (intros [? ?]; destruct Hp0; done).
  rewrite bool_decide_eq_false_2 by (intros ?; done).
  destruct keys as [|objectKey [|? ?]]; simpl in Hlen; [| |lia].
  - by rewrite Htask, Hrun.
  - by rewrite Htask.
Qed.

(** A reference of fewer than three segments that starts like a
    result reference: line 502 reads [variableParts[2]] and panics. *)
Lemma resolve_short variable p0 rest :
  Go.Split_dot variable = p0 :: rest →
  (length rest < 2)%nat →
  p0 = ResultTaskPart ∨ p0 = ResultFinallyPart →
  resolve variable = Panics.
Proof.
  intros Hsplit Hlen Hp0. unfold Aggregator.resolve. rewrite Hsplit.
  rewrite bool_decide_eq_false_2 by (intros [? ?]; destruct Hp0; done).
  destruct rest as [|? [|? ?]]; simpl in Hlen; [done|done|lia].
Qed.

(** A reference of three or more segments does not panic, provided the
    text that [ParseResultName] returns for an index is not read as a
    negative number. *)
Lemma resolve_long variable :
  (3 ≤ length (Go.Split_dot variable))%nat →
  (∀ p3, Go.Split_dot variable !! 3%nat = Some p3 →
         0 ≤ Go.Atoi (ParseResultName p3).2) →
  resolve variable ≠ Panics.
Proof.
  intros Hlen Hidx. unfold Aggregator.resolve.
  destruct (Go.Split_dot variable) as [|p0 [|taskName [|p2 rest']]];
    simpl in Hlen; try lia.
  case_bool_decide; [done|]. case_bool_decide; [done|].
  destruct rest' as [|p3 [|objectKey [|? ?]]]; try done.
  - specialize (Hidx p3 eq_refl).
    destruct (taskResultValue _ _ _) as [resultValue|].
    + destruct (ParamValue.Type_ resultValue); try done.
      case_bool_decide; [|done]. simpl. case_bool_decide as Hlt; [|done].
      rewrite bool_decide_eq_false_2 by lia.
      destruct (ParamValue.ArrayVal resultValue !! _) eqn:Hel; [done|].
      apply lookup_ge_None in Hel. lia.
    + destruct (runResultValue _ _ _); [done|].
      unfold Aggregator.missing. destruct (taskstatus !! _); [|done].
      by case_bool_decide.
  - destruct (taskResultValue _ _ _) as [resultValue|].
    + by destruct (ParamValue.ObjectVal resultValue !! objectKey).
    + unfold Aggregator.missing. destruct (taskstatus !! _); [|done].
      by case_bool_decide.
Qed.

(** The call returns when no variable of a declared result panics. *)
Lemma ApplyTaskResultsToPipelineResults_returns results :
  (∀ pipelineResult variable,
     pipelineResult ∈ results →
     variable ∈ GetVarSubstitutionExpressions pipelineResult →
     resolve variable ≠ Panics) →
  is_Some (ApplyTaskResultsToPipelineResults results).
Proof.
  intros Hsafe. unfold Aggregator.ApplyTaskResultsToPipelineResults.
  assert (∀ name variables acc,
            (∀ variable, variable ∈ variables → resolve variable ≠ Panics) →
            is_Some (foldM (resolveVariable name) variables acc)) as Hinner.
  { intros name variables. induction variables as [|v vs IH]; intros acc Hvs; simpl.
    - by eexists.
    - rewrite resolveVariable_factor.
      assert (resolve v ≠ Panics) as Hv by (apply Hvs; by left).
      destruct (isMemoized v acc.2).
      + apply IH. intros v' Hv'. apply Hvs. by right.
      + destruct (resolve v); try done; simpl; apply IH;
          intros v' Hv'; apply Hvs; by right. }
  assert (∀ s, is_Some (foldM resolvePipelineResult results s)) as Houter.
  { induction results as [|r rs IH]; intros s; simpl; [by eexists|].
    assert (is_Some (resolvePipelineResult r s)) as [s' Hs'].
    { unfold Aggregator.resolvePipelineResult. case_bool_decide; [by eexists|].
      destruct (Hinner (PipelineResult.Name r) (GetVarSubstitutionExpressions r) (true, s))
        as [[valid s1] ->].
      - intros v Hv. apply (Hsafe r v); [by left|done].
      - simpl. destruct valid; by eexists. }
    rewrite Hs'. apply IH. intros r' v Hr' Hv. apply (Hsafe r' v); [by right|done]. }
  destruct (Houter init) as [s ->]. simpl. case_bool_decide; by eexists.
Qed.

(** What a call returns, when it returns, is read off the variables:
    everything an iteration of the outer loop has collected is still
    there at the end, and the error is [nil] exactly when no name was
    collected as invalid. *)
Lemma ApplyTaskResultsToPipelineResults_collects before pipelineResult after s s' out :
  foldM resolvePipelineResult before init = Some s →
  resolvePipelineResult pipelineResult s = Some s' →
  ApplyTaskResultsToPipelineResults (before ++ pipelineResult :: after) = Some out →
  ∃ invalid,
    runResults s' `prefix_of` out.1
    ∧ invalidPipelineResults s' `prefix_of` invalid
    ∧ out.2 = (if bool_decide (invalid = []) then None
               else Some (errorMessage invalid)).
Proof.
  intros Hbefore Hstep. unfold Aggregator.ApplyTaskResultsToPipelineResults.
  rewrite foldM_app, Hbefore. simpl. rewrite Hstep.
  destruct (foldM _ after s') as [s''|] eqn:Hafter; [|done]. simpl.
  apply resolvePipelineResults_extends in Hafter as (? & ? & _).
  intros Hout. exists (invalidPipelineResults s''). revert Hout.
  destruct (invalidPipelineResults s'') as [|? ?] eqn:E;
    repeat case_bool_decide; simpl in *; try lia; try done;
    intros [= <-]; done.
Qed.

(** A declared result with one variable: the inner loop is one step. *)
Lemma resolvePipelineResult_single pipelineResult variable s :
  GetVarSubstitutionExpressions pipelineResult = [variable] →
  resolvePipelineResult pipelineResult s =
    resolveVariable (PipelineResult.Name pipelineResult) variable (true, s) ≫=
      λ '(validPipelineResult, s'),
        if validPipelineResult : bool then
          Some (appendRunResult
                  (PipelineRunResult.mk (PipelineResult.Name pipelineResult)
                     (ParamValue_ApplyReplacements (PipelineResult.Value pipelineResult)
                        (stringReplacements s') (arrayReplacements s')
                        (objectReplacements s'))) s')
        else Some s'.
Proof.
  intros Hv. unfold Aggregator.resolvePipelineResult. rewrite Hv. simpl.
  by destruct (Aggregator.resolveVariable _ _ _ _ _ _) as [[? ?]|].
Qed.

(** The indexed reference to an array result, lines 518-527. *)
Lemma resolveVariable_array_index name variable p0 taskName p3 resultName
    (i : nat) resultValue valid s :
  Go.Split_dot variable = [p0; taskName; ResultResultPart; p3] →
  p0 = ResultTaskPart ∨ p0 = ResultFinallyPart →
  ParseResultName p3 = (resultName, Go.Itoa (Z.of_nat i)) →
  taskResultValue taskName resultName taskRunResults = Some resultValue →
  ParamValue.Type_ resultValue = ParamTypeArray →
  Z.of_nat (length (ParamValue.ArrayVal resultValue)) ≤ Go.MaxInt →
  isMemoized variable s = false →
  resolveVariable name variable (valid, s) =
    Some (match ParamValue.ArrayVal resultValue !! i with
          | Some element => (valid, setString variable element s)
          | None => (false, appendInvalid name s)
          end).
Proof.
  intros Hsplit Hp0 Hparse Hres Hty Hlen Hmemo.
  unfold Aggregator.resolveVariable. rewrite Hmemo, Hsplit. simpl.
  rewrite bool_decide_eq_false_2 by (intros [? ?]; destruct Hp0; done).
  rewrite bool_decide_eq_false_2 by (intros ?; done).
  rewrite Hparse, Hres, Hty.
  rewrite bool_decide_eq_true_2 by apply GoFacts.Itoa_nat_not_star.
  rewrite GoFacts.Atoi_Itoa_nat.
  destruct (ParamValue.ArrayVal resultValue !! i) as [element|] eqn:Hi.
  - apply lookup_lt_Some in Hi as Hlt.
    rewrite Z.min_r by lia.
    rewrite bool_decide_eq_true_2 by lia.
    rewrite bool_decide_eq_false_2 by lia.
    rewrite Nat2Z.id, Hi. done.
  - apply lookup_ge_None in Hi.
    rewrite bool_decide_eq_false_2; [done|].
    unfold Go.MaxInt in *. lia.
Qed.

End WithExternals.
End AggregatorFacts.

(** *** Array results referenced by index *)

(** C5.  For a four-segment reference [tasks.<name>.results.<result>[i]]
    (or its [finally] form) to an array-typed task result, with [i] a
    natural number written in decimal: when [i] is within the bounds of
    the array the reference resolves to the [i]-th element, and when [i] is
    at or beyond its length the declared result is marked invalid and named
    in the error.  The function returns for every [i]: no index reaches the
    array without the bounds check.  The first part is one iteration of the
    inner loop from any variables in which the reference is not memoized;
    the second part is the whole call on that declared result. *)
Theorem array_index_is_bounds_checked `{ResultExternals}
    (taskRunResults : gmap string (list TaskRunResult.t))
    (customTaskResults : gmap string (list CustomRunResult.t))
    (taskstatus : gmap string string)
    (variable p0 taskName p3 resultName : string) (i : nat)
    (resultValue : ParamValue.t) :
  Go.Split_dot variable = [p0; taskName; ResultResultPart; p3] →
  p0 = ResultTaskPart ∨ p0 = ResultFinallyPart →
  ParseResultName p3 = (resultName, Go.Itoa (Z.of_nat i)) →
  Aggregator.taskResultValue taskName resultName taskRunResults = Some resultValue →
  ParamValue.Type_ resultValue = ParamTypeArray →
  Z.of_nat (length (ParamValue.ArrayVal resultValue)) ≤ Go.MaxInt →
  (∀ name valid s,
     Aggregator.isMemoized variable s = false →
     Aggregator.resolveVariable taskRunResults customTaskResults taskstatus
       name variable (valid, s) =
     Some (match ParamValue.ArrayVal resultValue !! i with
           | Some element => (valid, Aggregator.setString variable element s)
           | None => (false, Aggregator.appendInvalid name s)
           end))
  ∧ (∀ pipelineResult,
       GetVarSubstitutionExpressions pipelineResult = [variable] →
       Aggregator.ApplyTaskResultsToPipelineResults
         taskRunResults customTaskResults taskstatus [pipelineResult] =
       Some (match ParamValue.ArrayVal resultValue !! i with
             | Some element =>
                 ([PipelineRunResult.mk (PipelineResult.Name pipelineResult)
                     (ParamValue_ApplyReplacements (PipelineResult.Value pipelineResult)
                        {[variable := element]} ∅ ∅)],
                  None)
             | None =>
                 ([], Some (Aggregator.errorMessage [PipelineResult.Name pipelineResult]))
             end)).
Proof.
  intros Hsplit Hp0 Hparse Hres Hty Hlen.
  assert (Hstep := λ name valid s,
            AggregatorFacts.resolveVariable_array_index taskRunResults customTaskResults
              taskstatus name variable p0 taskName p3 resultName i resultValue valid s
              Hsplit Hp0 Hparse Hres Hty Hlen).
  split; [exact Hstep|].
  intros pipelineResult Hvars.
  unfold Aggregator.ApplyTaskResultsToPipelineResults. simpl.
  rewrite (AggregatorFacts.resolvePipelineResult_single _ _ _ _ _ _ Hvars).
  rewrite Hstep by apply AggregatorFacts.isMemoized_init.
  destruct (ParamValue.ArrayVal resultValue !! i) as [element|]; simpl.
  - rewrite insert_empty. done.
  - done.
Qed.

Lemma array_index_is_bounds_checked_witness :
  let tasks : gmap string (list TaskRunResult.t) :=
    {[ "build" := [TaskRunResult.mk "arr" ParamTypeArray
                     (Reference.arrayValue ["a"; "b"; "c"])] ]} in
  Aggregator.ApplyTaskResultsToPipelineResults (H := Reference.resultExternals)
    tasks ∅ ∅
    [PipelineResult.mk "second" (Reference.stringValue "$(tasks.build.results.arr[1])")]
  = Some ([PipelineRunResult.mk "second" (Reference.stringValue "b")], None)
  ∧ Aggregator.ApplyTaskResultsToPipelineResults (H := Reference.resultExternals)
      tasks ∅ ∅
      [PipelineResult.mk "sixth" (Reference.stringValue "$(tasks.build.results.arr[5])")]
    = Some ([], Some "invalid pipelineresults [sixth], the referenced results don't exist").
Proof.
  intros tasks. split.
  - refine (proj2 (array_index_is_bounds_checked (H := Reference.resultExternals)
                     tasks ∅ ∅ "tasks.build.results.arr[1]" "tasks" "build" "arr[1]" "arr"
                     1 (Reference.arrayValue ["a"; "b"; "c"]) _ _ _ _ _ _) _ _);
      try reflexivity; [by left | by vm_compute].
  - refine (proj2 (array_index_is_bounds_checked (H := Reference.resultExternals)
                     tasks ∅ ∅ "tasks.build.results.arr[5]" "tasks" "build" "arr[5]" "arr"
                     5 (Reference.arrayValue ["a"; "b"; "c"]) _ _ _ _ _ _) _ _);
      try reflexivity; [by left | by vm_compute].
Defined.

(** *** Results of producers that did not succeed *)

(** C2.  A declared result whose only variable is a well-formed reference
    (four or five segments) to a result that is in neither the task-result
    table nor the custom-task-result table.  If the status table has an
    entry for the task under [<prefix><taskName><suffix>] with a value other
    than the reason of success, the iteration for that declared result
    leaves every variable as it was, so the call returns exactly what it
    returns without that declared result: nothing is added to the results
    and nothing to the invalid names.  If the status table has no entry for
    the task, the iteration adds the name of the declared result to the
    invalid names, and the error of a call that ends with it lists the
    name. *)
Theorem skipped_producer_is_dropped `{ResultExternals}
    (taskRunResults : gmap string (list TaskRunResult.t))
    (customTaskResults : gmap string (list CustomRunResult.t))
    (pipelineResult : PipelineResult.t)
    (variable p0 taskName p3 : string) (keys : list string) :
  GetVarSubstitutionExpressions pipelineResult = [variable] →
  Go.Split_dot variable = p0 :: taskName :: ResultResultPart :: p3 :: keys →
  (length keys ≤ 1)%nat →
  p0 = ResultTaskPart ∨ p0 = ResultFinallyPart →
  Aggregator.taskResultValue taskName (ParseResultName p3).1 taskRunResults = None →
  Aggregator.runResultValue taskName (ParseResultName p3).1 customTaskResults = None →
  (∀ taskstatus status s,
     taskstatus !! Aggregator.statusKey taskName = Some status →
     status ≠ TaskRunReasonSuccessful →
     Aggregator.isMemoized variable s = false →
     Aggregator.resolvePipelineResult taskRunResults customTaskResults taskstatus
       pipelineResult s = Some s
     ∧ ∀ before after,
         foldM (Aggregator.resolvePipelineResult taskRunResults customTaskResults taskstatus)
           before Aggregator.init = Some s →
         Aggregator.ApplyTaskResultsToPipelineResults taskRunResults customTaskResults
           taskstatus (before ++ pipelineResult :: after)
         = Aggregator.ApplyTaskResultsToPipelineResults taskRunResults customTaskResults
             taskstatus (before ++ after))
  ∧ (∀ taskstatus s,
       taskstatus !! Aggregator.statusKey taskName = None →
       Aggregator.isMemoized variable s = false →
       Aggregator.resolvePipelineResult taskRunResults customTaskResults taskstatus
         pipelineResult s
       = Some (Aggregator.appendInvalid (PipelineResult.Name pipelineResult) s)
       ∧ ∀ before,
           foldM (Aggregator.resolvePipelineResult taskRunResults customTaskResults taskstatus)
             before Aggregator.init = Some s →
           Aggregator.ApplyTaskResultsToPipelineResults taskRunResults customTaskResults
             taskstatus (before ++ [pipelineResult])
           = Some (Aggregator.runResults s,
                   Some (Aggregator.errorMessage
                           (Aggregator.invalidPipelineResults s
                              ++ [PipelineResult.Name pipelineResult])))).
Proof.
  intros Hvars Hsplit Hlen Hp0 Htask Hrun.
  assert (Hres := λ taskstatus,
            AggregatorFacts.resolve_missing taskRunResults customTaskResults taskstatus
              variable p0 taskName p3 keys Hsplit Hlen Hp0 Htask Hrun).
  split.
  - intros taskstatus status s Hstatus Hne Hmemo.
    assert (Aggregator.resolvePipelineResult taskRunResults customTaskResults taskstatus
              pipelineResult s = Some s) as Hstep.
    { rewrite (AggregatorFacts.resolvePipelineResult_single _ _ _ _ _ _ Hvars).
      rewrite AggregatorFacts.resolveVariable_factor. simpl. rewrite Hmemo, Hres.
      unfold Aggregator.missing. rewrite Hstatus.
      by rewrite bool_decide_eq_true_2. }
    split; [done|]. intros before after Hbefore.
    unfold Aggregator.ApplyTaskResultsToPipelineResults.
    rewrite !foldM_app, Hbefore. simpl. by rewrite Hstep.
  - intros taskstatus s Hstatus Hmemo.
    assert (Aggregator.resolvePipelineResult taskRunResults customTaskResults taskstatus
              pipelineResult s
            = Some (Aggregator.appendInvalid (PipelineResult.Name pipelineResult) s))
      as Hstep.
    { rewrite (AggregatorFacts.resolvePipelineResult_single _ _ _ _ _ _ Hvars).
      rewrite AggregatorFacts.resolveVariable_factor. simpl. rewrite Hmemo, Hres.
      unfold Aggregator.missing. by rewrite Hstatus. }
    split; [done|]. intros before Hbefore.
    unfold Aggregator.ApplyTaskResultsToPipelineResults.
    rewrite foldM_app, Hbefore. simpl. rewrite Hstep. simpl.
    rewrite bool_decide_eq_true_2; [done|].
    rewrite length_app. simpl. lia.
Qed.

Lemma skipped_producer_is_dropped_witness :
  let digest :=
    PipelineResult.mk "image-digest" (Reference.stringValue "$(tasks.build.results.digest)") in
  Aggregator.ApplyTaskResultsToPipelineResults (H := Reference.resultExternals)
    ∅ ∅ {[ "tasks.build.status" := "Failed" ]} [digest]
  = Some ([], None)
  ∧ Aggregator.ApplyTaskResultsToPipelineResults (H := Reference.resultExternals)
      ∅ ∅ ∅ [digest]
    = Some ([], Some "invalid pipelineresults [image-digest], the referenced results don't exist").
Proof.
  intros digest.
  pose proof (skipped_producer_is_dropped (H := Reference.resultExternals)
                ∅ ∅ digest "tasks.build.results.digest" "tasks" "build" "digest" []
                eq_refl eq_refl (le_S _ _ (le_n 0)) (or_introl eq_refl) eq_refl eq_refl)
    as [Hdropped Hinvalid].
  split.
  - refine (proj2 (Hdropped {[ "tasks.build.status" := "Failed" ]} "Failed"
                     Aggregator.init _ _ _) [] [] _); try reflexivity.
    by vm_compute.
  - refine (proj2 (Hinvalid ∅ Aggregator.init _ _) [] _); reflexivity.
Defined.

(** *** Collecting the failures of the declared results *)

(** C1, at an input on which the code does not do what the design asks.
    The first declared result resolves; the second holds the reference
    [$(tasks.foo)], of two segments.  The design asks for the first result
    together with an error naming the second.  The second reference passes
    the test of its first segment, line 502 then reads [variableParts[2]]
    of a two-element slice, and the whole call panics: the first result is
    lost with it. *)
Theorem short_reference_aborts_the_aggregation :
  let tasks : gmap string (list TaskRunResult.t) :=
    {[ "build" := [TaskRunResult.mk "digest" ParamTypeString
                     (Reference.stringValue "sha256:abc")] ]} in
  let digest :=
    PipelineResult.mk "image-digest" (Reference.stringValue "$(tasks.build.results.digest)") in
  let short := PipelineResult.mk "short" (Reference.stringValue "$(tasks.foo)") in
  Aggregator.ApplyTaskResultsToPipelineResults (H := Reference.resultExternals)
    tasks ∅ ∅ [digest]
  = Some ([PipelineRunResult.mk "image-digest" (Reference.stringValue "sha256:abc")], None)
  ∧ GetVarSubstitutionExpressions (ResultExternals := Reference.resultExternals) short
    = ["tasks.foo"]
  ∧ Go.Split_dot "tasks.foo" = ["tasks"; "foo"]
  ∧ Aggregator.ApplyTaskResultsToPipelineResults (H := Reference.resultExternals)
      tasks ∅ ∅ [digest; short]
    = None.
Proof. repeat split. Qed.

(** The same for every instance of the externals: a declared result whose
    first variable has fewer than three segments, the first of them
    [tasks] or [finally], makes the call panic wherever it stands. *)
Lemma short_reference_panics `{ResultExternals}
    (taskRunResults : gmap string (list TaskRunResult.t))
    (customTaskResults : gmap string (list CustomRunResult.t))
    (taskstatus : gmap string string)
    (before after : list PipelineResult.t) (pipelineResult : PipelineResult.t)
    (variable p0 : string) (rest variables : list string) (s : Aggregator.vars) :
  foldM (Aggregator.resolvePipelineResult taskRunResults customTaskResults taskstatus)
    before Aggregator.init = Some s →
  GetVarSubstitutionExpressions pipelineResult = variable :: variables →
  Go.Split_dot variable = p0 :: rest →
  (length rest < 2)%nat →
  p0 = ResultTaskPart ∨ p0 = ResultFinallyPart →
  Aggregator.isMemoized variable s = false →
  Aggregator.ApplyTaskResultsToPipelineResults taskRunResults customTaskResults taskstatus
    (before ++ pipelineResult :: after) = None.
Proof.
  intros Hbefore Hvars Hsplit Hlen Hp0 Hmemo.
  unfold Aggregator.ApplyTaskResultsToPipelineResults.
  rewrite foldM_app, Hbefore. simpl.
  unfold Aggregator.resolvePipelineResult. rewrite Hvars. simpl.
  rewrite AggregatorFacts.resolveVariable_factor. simpl. rewrite Hmemo.
  by rewrite (AggregatorFacts.resolve_short _ _ _ _ _ _ Hsplit Hlen Hp0).
Qed.

(** *** Memoization across declared results *)

(** C10, as the code has it.  The memo is keyed by the text of the
    expression: (1) an expression that is a key of one of the three maps is
    skipped, whatever the input tables hold, and the variables stay as they
    are; (2) an iteration for an expression that is not a key commits a
    decision computed from the expression and the input tables alone,
    whatever the variables hold, so that a repeated lookup decides the same;
    (3) no entry of the string map is changed or removed by the rest of the
    call. *)
Theorem memoization_is_keyed_by_expression `{ResultExternals}
    (taskRunResults : gmap string (list TaskRunResult.t))
    (customTaskResults : gmap string (list CustomRunResult.t))
    (taskstatus : gmap string string) :
  (∀ name variable valid s,
     Aggregator.isMemoized variable s = true →
     ∀ taskRunResults' customTaskResults' taskstatus',
       Aggregator.resolveVariable taskRunResults' customTaskResults' taskstatus'
         name variable (valid, s) = Some (valid, s))
  ∧ (∀ name variable valid s,
       Aggregator.isMemoized variable s = false →
       Aggregator.resolveVariable taskRunResults customTaskResults taskstatus
         name variable (valid, s)
       = Aggregator.commit name variable
           (Aggregator.resolve taskRunResults customTaskResults taskstatus variable)
           (valid, s))
  ∧ (∀ results s s' variable value,
       foldM (Aggregator.resolvePipelineResult taskRunResults customTaskResults taskstatus)
         results s = Some s' →
       Aggregator.stringReplacements s !! variable = Some value →
       Aggregator.stringReplacements s' !! variable = Some value).
Proof.
  split; [|split].
  - intros name variable valid s Hmemo ???.
    rewrite AggregatorFacts.resolveVariable_factor. simpl. by rewrite Hmemo.
  - intros name variable valid s Hmemo.
    rewrite AggregatorFacts.resolveVariable_factor. simpl. by rewrite Hmemo.
  - intros results s s' variable value Hfold Hs.
    apply AggregatorFacts.resolvePipelineResults_extends in Hfold as (_ & _ & Hsub).
    by eapply lookup_weaken.
Qed.

Lemma memoization_is_keyed_by_expression_witness :
  let tasks : gmap string (list TaskRunResult.t) :=
    {[ "build" := [TaskRunResult.mk "digest" ParamTypeString
                     (Reference.stringValue "sha256:abc")] ]} in
  let variable := "tasks.build.results.digest" in
  let s := Aggregator.setString variable "sha256:abc" Aggregator.init in
  Aggregator.resolveVariable (H := Reference.resultExternals) ∅ ∅ ∅
    "again" variable (true, s) = Some (true, s)
  ∧ Aggregator.resolveVariable (H := Reference.resultExternals) tasks ∅ ∅
      "first" variable (true, Aggregator.init) = Some (true, s)
  ∧ Aggregator.stringReplacements
      (Aggregator.appendRunResult
         (PipelineRunResult.mk "again" (Reference.stringValue "sha256:abc")) s)
      !! variable = Some "sha256:abc".
Proof.
  intros tasks variable s.
  destruct (memoization_is_keyed_by_expression (H := Reference.resultExternals) tasks ∅ ∅)
    as (Hskip & Hcommit & Hkeep).
  split; [|split].
  - apply Hskip. reflexivity.
  - rewrite Hcommit; reflexivity.
  - apply (Hkeep [PipelineResult.mk "again" (Reference.stringValue "$(tasks.build.results.digest)")] s);
      reflexivity.
Defined.

(** C10 as stated fails for splatted references.  The reference
    [tasks.build.results.arr[*]] is resolved into the array map while the
    first declared result is processed, under the key stripped of its
    splat (line 529); the memo check of lines 491-499 looks for the
    unstripped text, misses, and the task-result table is read again for
    the second occurrence: with another table the entry that was stored is
    replaced. *)
Lemma splat_reference_is_looked_up_again :
  let tasks : gmap string (list TaskRunResult.t) :=
    {[ "build" := [TaskRunResult.mk "arr" ParamTypeArray
                     (Reference.arrayValue ["a"; "b"; "c"])] ]} in
  let tasks' : gmap string (list TaskRunResult.t) :=
    {[ "build" := [TaskRunResult.mk "arr" ParamTypeArray (Reference.arrayValue ["z"])] ]} in
  let variable := "tasks.build.results.arr[*]" in
  let first := PipelineResult.mk "first" (Reference.arrayValue ["$(tasks.build.results.arr[*])"]) in
  ∃ s,
    Aggregator.resolvePipelineResult (H := Reference.resultExternals) tasks ∅ ∅
      first Aggregator.init = Some s
    ∧ Aggregator.arrayReplacements s !! "tasks.build.results.arr" = Some ["a"; "b"; "c"]
    ∧ Aggregator.isMemoized variable s = false
    ∧ Aggregator.resolveVariable (H := Reference.resultExternals) tasks' ∅ ∅
        "second" variable (true, s)
      = Some (true, Aggregator.setArray "tasks.build.results.arr" ["z"] s)
    ∧ Aggregator.setArray "tasks.build.results.arr" ["z"] s ≠ s.
Proof.
  intros tasks tasks' variable first.
  eexists. split; [reflexivity|]. repeat split.
  intros Heq. apply (f_equal (λ s, Aggregator.arrayReplacements s !! "tasks.build.results.arr")) in Heq.
  vm_compute in Heq. discriminate.
Qed.

(** ** The replacement maps of the parameters *)

Module StringFacts.

Lemma app_cons (c : ascii) (s t : string) : String c s +:+ t = String c (s +:+ t).
Proof. reflexivity. Qed.

Lemma app_nil_l (t : string) : "" +:+ t = t.
Proof. reflexivity. Qed.

Lemma length_app (s t : string) :
  String.length (s +:+ t) = (String.length s + String.length t)%nat.
Proof.
  induction s as [|c s IH]; [done|].
  rewrite app_cons. simpl. by rewrite IH.
Qed.

Lemma app_nil_r (s : string) : s +:+ "" = s.
Proof. induction s as [|c s IH]; [done|]. by rewrite app_cons, IH. Qed.

Lemma app_assoc (s t u : string) : (s +:+ t) +:+ u = s +:+ t +:+ u.
Proof. induction s as [|c s IH]; [done|]. by rewrite !app_cons, IH. Qed.

(** Cancellation on the right. *)
Lemma app_inj_r (s1 s2 t : string) : s1 +:+ t = s2 +:+ t → s1 = s2.
Proof.
  revert s2. induction s1 as [|c s1 IH]; intros [|c2 s2] Heq.
  - done.
  - apply (f_equal String.length) in Heq.
    rewrite app_nil_l, app_cons in Heq. simpl in Heq. rewrite length_app in Heq. lia.
  - apply (f_equal String.length) in Heq.
    rewrite app_nil_l, app_cons in Heq. simpl in Heq. rewrite length_app in Heq. lia.
  - rewrite !app_cons in Heq. injection Heq as -> Heq. f_equal. by apply IH.
Qed.

Lemma Itoa_nat_inj (i j : nat) : Go.Itoa (Z.of_nat i) = Go.Itoa (Z.of_nat j) → i = j.
Proof.
  unfold Go.Itoa. intros Heq.
  assert (∀ z, NilZero.int_of_string (NilZero.string_of_int (Z.to_int z)) = Some (Z.to_int z))
    as Hback.
  { intros z. apply NilZero.isi; destruct z as [|p|p]; try done; simpl;
      intros [= Hp]; by apply (DecimalPos.Unsigned.to_uint_nonnil p). }
  pose proof (Hback (Z.of_nat i)) as Hi. rewrite Heq, Hback in Hi.
  injection Hi as Hi. apply DecimalZ.to_int_inj in Hi. lia.
Qed.

End StringFacts.

Global Arguments Parameters.setParam : simpl never.

Module ParametersFacts.
Import Parameters.

Lemma union_empty_l m : union empty m = m.
Proof. destruct m. unfold union; simpl. by rewrite !(left_id_L ∅ (∪)). Qed.

Lemma union_assoc m1 m2 m3 : union m1 (union m2 m3) = union (union m1 m2) m3.
Proof. unfold union; simpl. by rewrite !(assoc_L (∪)). Qed.

Lemma setString_union k v m : setString k v m = union (setString k v empty) m.
Proof.
  unfold setString, union; simpl.
  by rewrite insert_empty, <- insert_union_singleton_l, !(left_id_L ∅ (∪)).
Qed.

Lemma setArray_union k v m : setArray k v m = union (setArray k v empty) m.
Proof.
  unfold setArray, union; simpl.
  by rewrite insert_empty, <- insert_union_singleton_l, !(left_id_L ∅ (∪)).
Qed.

Lemma setObject_union k v m : setObject k v m = union (setObject k v empty) m.
Proof.
  unfold setObject, union; simpl.
  by rewrite insert_empty, <- insert_union_singleton_l, !(left_id_L ∅ (∪)).
Qed.

(** Steps that only add entries compose, and so do their folds. *)
Lemma compose_union (f g : replacements → replacements) :
  (∀ m, f m = union (f empty) m) →
  (∀ m, g m = union (g empty) m) →
  ∀ m, f (g m) = union (f (g empty)) m.
Proof.
  intros Hf Hg m. rewrite Hf, Hg, union_assoc. by rewrite <- Hf.
Qed.

Lemma foldl_union {B} (step : replacements → B → replacements) (l : list B) :
  (∀ x m, step m x = union (step empty x) m) →
  ∀ m, foldl step m l = union (foldl step empty l) m.
Proof.
  intros Hstep. induction l as [|x l IH] using rev_ind; intros m; simpl.
  - by rewrite union_empty_l.
  - rewrite !foldl_app. simpl.
    apply (compose_union (λ m, step m x) (λ m, foldl step m l)); [|done].
    intros m'. apply Hstep.
Qed.

Lemma map_fold_insert_union {A} (g : string → string) (sr : gmap string A)
    (o : gmap string A) :
  map_fold (λ k v sr, <[g k := v]> sr) sr o
  = map_fold (λ k v sr, <[g k := v]> sr) ∅ o ∪ sr.
Proof.
  rewrite <- (left_id_L ∅ (∪) sr) at 1.
  apply (map_fold_comm_acc (λ k v sr, <[g k := v]> sr) (λ y, y ∪ sr)).
  intros j z y. by rewrite insert_union_l.
Qed.

Section WithQuote.
Context `{GoQuote}.

Lemma setElements_union pattern name elements m :
  setElements pattern name elements m
  = union (setElements pattern name elements empty) m.
Proof.
  apply foldl_union. intros i m'. destruct (elements !! i).
  - apply setString_union.
  - by rewrite union_empty_l.
Qed.

Lemma setAttributes_union name attributes m :
  setAttributes name attributes m = union (setAttributes name attributes empty) m.
Proof.
  unfold setAttributes, union; simpl.
  rewrite map_fold_insert_union at 1. by rewrite !(left_id_L ∅ (∪)).
Qed.

Lemma setParam_union name value m :
  setParam name value m = union (written name value) m.
Proof.
  unfold written, setParam. destruct (ParamValue.Type_ value).
  - apply foldl_union. intros. apply setString_union.
  - apply foldl_union. intros pattern m'.
    apply (compose_union (setArray _ _) (setElements _ _ _)).
    + intros. apply setArray_union.
    + intros. apply setElements_union.
  - apply (compose_union (setAttributes _ _) (λ m, foldl _ m paramPatterns)).
    + intros. apply setAttributes_union.
    + apply foldl_union. intros. apply setObject_union.
  - apply foldl_union. intros. apply setString_union.
Qed.

Lemma setParams_union params m :
  setParams params m = union (setParams params empty) m.
Proof. apply foldl_union. intros. apply setParam_union. Qed.

Lemma setParams_app params1 params2 m :
  setParams (params1 ++ params2) m = setParams params2 (setParams params1 m).
Proof. apply foldl_app. Qed.

Lemma setDefaults_union params m :
  setDefaults params m = union (setDefaults params empty) m.
Proof.
  apply foldl_union. intros p m'. destruct (ParamSpec.Default p).
  - apply setParam_union.
  - by rewrite union_empty_l.
Qed.

Lemma map_fold_overwrite {A} (run m : gmap string A) :
  map_fold (λ k v sr, <[k := v]> sr) m run = run ∪ m.
Proof.
  apply (map_fold_weak_ind (λ r run, r = run ∪ m)).
  - by rewrite (left_id_L ∅ (∪)).
  - intros k v run' r _ ->. by rewrite insert_union_l.
Qed.

(** Lines 89-97 are the join in which the run wins. *)
Lemma overwrite_union run m : overwrite run m = union run m.
Proof. unfold overwrite, union. by rewrite !map_fold_overwrite. Qed.

(** *** The keys *)

Lemma Sprintf_inj p p' name name' :
  Sprintf p name = Sprintf p' name' → p = p' ∧ name = name'.
Proof.
  destruct p, p'; unfold Sprintf, Quote, doubleQuote; intros Heq;
    cbn in Heq; simplify_eq/=; try done; split; try done.
  - rewrite !StringFacts.app_nil_l in Heq.
    do 2 apply StringFacts.app_inj_r in Heq. by apply (inj escape).
  - by apply StringFacts.app_inj_r in Heq.
Qed.

Lemma Sprintf_index_pattern p p' name name' i i' :
  Sprintf_index p name i = Sprintf_index p' name' i' → p = p'.
Proof.
  destruct p, p'; unfold Sprintf_index, Sprintf, Quote, doubleQuote; intros Heq;
    cbn in Heq; by simplify_eq/=.
Qed.

Lemma Sprintf_index_inj p name i i' :
  Sprintf_index p name i = Sprintf_index p name i' → i = i'.
Proof.
  unfold Sprintf_index. intros Heq. apply (inj (String.app _)) in Heq.
  apply (inj (String.app _)) in Heq.
  apply StringFacts.app_inj_r in Heq. by apply StringFacts.Itoa_nat_inj.
Qed.

Lemma Sprintf_objectIndividual_inj name k k' :
  Sprintf_objectIndividual name k = Sprintf_objectIndividual name k' → k = k'.
Proof.
  unfold Sprintf_objectIndividual. intros Heq.
  by repeat apply (inj (String.app _)) in Heq.
Qed.

(** A bracketed form never starts like a dotted one. *)
Lemma Sprintf_bracket_not_dotted p name rest rest' :
  p ≠ Dotted → Sprintf p name +:+ rest ≠ "params." +:+ rest'.
Proof.
  destruct p; [done|..]; intros _; unfold Sprintf, Quote, doubleQuote; intros Heq;
    cbn in Heq; by simplify_eq/=.
Qed.

(** *** What one parameter writes *)

Lemma setElements_others pattern name elements m :
  arrayReplacements (setElements pattern name elements m) = arrayReplacements m
  ∧ objectReplacements (setElements pattern name elements m) = objectReplacements m.
Proof.
  unfold setElements. generalize (seq 0 (length elements)) as l.
  intros l. revert m. induction l as [|i l IH]; intros m; simpl; [done|].
  destruct (IH (match elements !! i with
                | Some x => setString (Sprintf_index pattern name i) x m
                | None => m
                end)) as [-> ->].
  by destruct (elements !! i).
Qed.

Lemma setElements_strings pattern name elements key x :
  stringReplacements (setElements pattern name elements empty) !! key = Some x
  ↔ ∃ i, key = Sprintf_index pattern name i ∧ elements !! i = Some x.
Proof.
  unfold setElements.
  assert (∀ l : list nat,
            stringReplacements
              (foldl (λ m i, match elements !! i with
                             | Some x => setString (Sprintf_index pattern name i) x m
                             | None => m
                             end) empty l) !! key = Some x
            ↔ ∃ i, i ∈ l ∧ key = Sprintf_index pattern name i ∧ elements !! i = Some x)
    as Hgen.
  { induction l as [|i l IH] using rev_ind; simpl.
    - rewrite lookup_empty. split; [done|]. intros (i & Hi & _). by apply elem_of_nil in Hi.
    - rewrite foldl_app. simpl. destruct (elements !! i) as [y|] eqn:Hy; simpl.
      + rewrite lookup_insert_Some, IH. split.
        * intros [[<- <-]|[Hne (j & Hj & -> & Hx)]].
          -- exists i. rewrite elem_of_app, list_elem_of_singleton. auto.
          -- exists j. rewrite elem_of_app. auto.
        * intros (j & Hj & -> & Hx).
          destruct (decide (j = i)) as [->|Hne].
          -- left. split; [done|congruence].
          -- right. split.
             ++ intros Heq. by apply Sprintf_index_inj in Heq.
             ++ exists j. apply elem_of_app in Hj as [Hj|Hj%list_elem_of_singleton]; done.
      + rewrite IH. split.
        * intros (j & Hj & -> & Hx). exists j. rewrite elem_of_app. auto.
        * intros (j & Hj & -> & Hx). exists j.
          apply elem_of_app in Hj as [Hj|Hj%list_elem_of_singleton]; [done|].
          congruence. }
  rewrite Hgen. split.
  - intros (i & _ & ? & ?). eauto.
  - intros (i & -> & Hx). exists i. split; [|done].
    apply elem_of_seq. apply lookup_lt_Some in Hx. lia.
Qed.

Lemma setAttributes_strings name attributes key x :
  stringReplacements (setAttributes name attributes empty) !! key = Some x
  ↔ ∃ k, key = Sprintf_objectIndividual name k ∧ attributes !! k = Some x.
Proof.
  unfold setAttributes; simpl. revert key x.
  apply (map_fold_weak_ind
           (λ (r : gmap string string) (m : gmap string string),
              ∀ key x, r !! key = Some x
                       ↔ ∃ k, key = Sprintf_objectIndividual name k ∧ m !! k = Some x)).
  - intros key x. rewrite lookup_empty. split; [done|].
    intros (k & _ & Hk). by rewrite lookup_empty in Hk.
  - intros k v m r Hfresh IH key x. rewrite lookup_insert_Some, IH. split.
    + intros [[<- <-]|[Hne (k' & -> & Hk')]].
      * exists k. by rewrite lookup_insert_eq.
      * exists k'. split; [done|]. rewrite lookup_insert_ne; [done|]. by intros ->.
    + intros (k' & -> & Hk'). apply lookup_insert_Some in Hk' as [[<- <-]|[Hne Hk']].
      * by left.
      * right. split; [|by exists k'].
        intros Heq. by apply Sprintf_objectIndividual_inj in Heq.
Qed.

Lemma lookup_three {A} (k1 k2 k3 key : string) (v x : A) :
  (<[k3 := v]> (<[k2 := v]> (<[k1 := v]> (∅ : gmap string A)))) !! key = Some x
  ↔ (key = k1 ∨ key = k2 ∨ key = k3) ∧ x = v.
Proof.
  rewrite !lookup_insert_Some, lookup_empty. split.
  - intros [[<- <-]|[? [[<- <-]|[? [[<- <-]|[? ?]]]]]]; auto; done.
  - intros [Hkey ->].
    destruct (decide (k3 = key)); [by left|right; split; [done|]].
    destruct (decide (k2 = key)); [by left|right; split; [done|]].
    destruct (decide (k1 = key)); [by left|].
    destruct Hkey as [?|[?|?]]; congruence.
Qed.

Lemma some_pattern key name :
  (∃ p, key = Sprintf p name)
  ↔ key = Sprintf Dotted name ∨ key = Sprintf DoubleQuoted name
    ∨ key = Sprintf SingleQuoted name.
Proof.
  split.
  - intros [[] ->]; auto.
  - intros [->|[->| ->]]; eauto.
Qed.

(** A value that is neither an array nor an object writes its string under
    the three forms, and nothing else. *)
Lemma written_string name value :
  ParamValue.Type_ value ≠ ParamTypeArray →
  ParamValue.Type_ value ≠ ParamTypeObject →
  (∀ key x, stringReplacements (written name value) !! key = Some x
            ↔ (∃ p, key = Sprintf p name) ∧ x = ParamValue.StringVal value)
  ∧ arrayReplacements (written name value) = ∅
  ∧ objectReplacements (written name value) = ∅.
Proof.
  intros Ha Ho. unfold written, setParam.
  destruct (ParamValue.Type_ value); try done; unfold paramPatterns;
    cbn [foldl setString stringReplacements arrayReplacements objectReplacements empty];
    (split; [|done]); intros key x; by rewrite lookup_three, some_pattern.
Qed.

(** An array writes itself under the three forms and each of its elements
    under the three indexed forms, and nothing else. *)
Lemma written_array name value :
  ParamValue.Type_ value = ParamTypeArray →
  (∀ key x, stringReplacements (written name value) !! key = Some x
            ↔ ∃ p i, key = Sprintf_index p name i ∧ ParamValue.ArrayVal value !! i = Some x)
  ∧ (∀ key a, arrayReplacements (written name value) !! key = Some a
              ↔ (∃ p, key = Sprintf p name) ∧ a = ParamValue.ArrayVal value)
  ∧ objectReplacements (written name value) = ∅.
Proof.
  intros Hty. unfold written, setParam. rewrite Hty.
  unfold paramPatterns. cbn [foldl].
  set (elements := ParamValue.ArrayVal value).
  split; [|split].
  - intros key x.
    rewrite (setElements_union SingleQuoted). cbn [union stringReplacements setArray].
    rewrite (setElements_union DoubleQuoted). cbn [union stringReplacements setArray].
    split.
    + intros Hkey. apply lookup_union_Some_raw in Hkey as [Hkey|[_ Hkey]].
      { apply setElements_strings in Hkey as (i & ? & ?). by exists SingleQuoted, i. }
      apply lookup_union_Some_raw in Hkey as [Hkey|[_ Hkey]].
      { apply setElements_strings in Hkey as (i & ? & ?). by exists DoubleQuoted, i. }
      apply setElements_strings in Hkey as (i & ? & ?). by exists Dotted, i.
    + intros (p & i & -> & Hx).
      assert (∀ p', p' ≠ p →
                stringReplacements (setElements p' name elements empty)
                  !! Sprintf_index p name i = None) as Hother.
      { intros p' Hne. apply eq_None_not_Some. intros [y Hy].
        apply setElements_strings in Hy as (j & Heq & _).
        by apply Sprintf_index_pattern in Heq. }
      assert (stringReplacements (setElements p name elements empty)
                !! Sprintf_index p name i = Some x) as Hmine.
      { apply setElements_strings. eauto. }
      destruct p.
      * rewrite lookup_union_r by (by apply Hother).
        by rewrite lookup_union_r by (by apply Hother).
      * rewrite lookup_union_r by (by apply Hother).
        by apply lookup_union_Some_l.
      * by apply lookup_union_Some_l.
  - intros key a.
    do 3 (cbn [setArray arrayReplacements];
          rewrite (proj1 (setElements_others _ _ _ _))).
    cbn [arrayReplacements empty].
    by rewrite lookup_three, some_pattern.
  - do 3 (cbn [setArray objectReplacements];
          rewrite (proj2 (setElements_others _ _ _ _))).
    done.
Qed.

(** An object writes itself under the three forms and each of its
    attributes under the dotted form alone. *)
Lemma written_object name value :
  ParamValue.Type_ value = ParamTypeObject →
  (∀ key x, stringReplacements (written name value) !! key = Some x
            ↔ ∃ k, key = Sprintf_objectIndividual name k
                   ∧ ParamValue.ObjectVal value !! k = Some x)
  ∧ arrayReplacements (written name value) = ∅
  ∧ (∀ key o, objectReplacements (written name value) !! key = Some o
              ↔ (∃ p, key = Sprintf p name) ∧ o = ParamValue.ObjectVal value).
Proof.
  intros Hty. unfold written, setParam. rewrite Hty.
  unfold paramPatterns. cbn [foldl].
  split; [|split; [done|]].
  - intros key x. rewrite setAttributes_union. cbn [union stringReplacements setObject empty].
    rewrite (right_id_L ∅ (∪)). apply setAttributes_strings.
  - intros key o. cbn [setAttributes setObject objectReplacements empty].
    by rewrite lookup_three, some_pattern.
Qed.

End WithQuote.
End ParametersFacts.

(** *** Values of the run and defaults *)

Module OverrideFacts.
Import Parameters ParametersFacts.

Section WithQuote.
Context `{GoQuote}.

Lemma parameterReplacements_union params pr :
  parameterReplacements params pr
  = union (paramsFromPipelineRun pr) (setDefaults params empty).
Proof. apply overwrite_union. Qed.

(** The maps of the run are those of its parameters, the later ones
    winning. *)
Lemma setParams_split before q after :
  setParams (before ++ q :: after) empty
  = union (setParams after empty)
      (union (written (Param.Name q) (Param.Value q)) (setParams before empty)).
Proof.
  rewrite setParams_app. simpl. fold (setParams after).
  rewrite setParams_union. f_equal. apply setParam_union.
Qed.

(** What a parameter of the run writes is in the maps handed to the
    substitution, unless a later parameter of the run writes the same
    key. *)
Lemma run_param_wins params pr before q after :
  PipelineRunSpec.Params (PipelineRun.Spec pr) = before ++ q :: after →
  let w := written (Param.Name q) (Param.Value q) in
  let later := setParams after empty in
  let m := parameterReplacements params pr in
  (∀ key x, stringReplacements w !! key = Some x →
            stringReplacements later !! key = None →
            stringReplacements m !! key = Some x)
  ∧ (∀ key x, arrayReplacements w !! key = Some x →
              arrayReplacements later !! key = None →
              arrayReplacements m !! key = Some x)
  ∧ (∀ key x, objectReplacements w !! key = Some x →
              objectReplacements later !! key = None →
              objectReplacements m !! key = Some x).
Proof.
  intros Hparams w later m. subst m.
  rewrite parameterReplacements_union. unfold paramsFromPipelineRun.
  rewrite Hparams, setParams_split. fold w later. simpl.
  repeat split; intros key x Hw Hlater;
    apply lookup_union_Some_l; rewrite lookup_union_r by done;
    by apply lookup_union_Some_l.
Qed.

(** A value of the run that covers a default is written to every key that
    the default is written to. *)
Lemma written_covers name value default :
  covers value default →
  (∀ key, is_Some (stringReplacements (written name default) !! key) →
          is_Some (stringReplacements (written name value) !! key))
  ∧ (∀ key, is_Some (arrayReplacements (written name default) !! key) →
            is_Some (arrayReplacements (written name value) !! key))
  ∧ (∀ key, is_Some (objectReplacements (written name default) !! key) →
            is_Some (objectReplacements (written name value) !! key)).
Proof.
  unfold covers. intros Hcovers.
  destruct (ParamValue.Type_ default) eqn:Hdefault.
  - destruct Hcovers as [Hna Hno].
    destruct (ParametersFacts.written_string name default) as (Hds & Hda & Hdo);
      [by rewrite Hdefault..|].
    destruct (ParametersFacts.written_string name value Hna Hno) as (Hvs & _ & _).
    rewrite Hda, Hdo. split; [|split]; [|by intros key [? ?%lookup_empty_Some]..].
    intros key [x Hx]. apply Hds in Hx as [Hkey _]. eexists. by apply Hvs.
  - destruct Hcovers as [Hvalue Hlength].
    destruct (ParametersFacts.written_array name default Hdefault) as (Hds & Hda & Hdo).
    destruct (ParametersFacts.written_array name value Hvalue) as (Hvs & Hva & _).
    rewrite Hdo. split; [|split]; [| |by intros key [? ?%lookup_empty_Some]].
    + intros key [x Hx]. apply Hds in Hx as (p & i & -> & Hi).
      apply lookup_lt_Some in Hi.
      destruct (lookup_lt_is_Some_2 (ParamValue.ArrayVal value) i) as [y Hy]; [lia|].
      exists y. apply Hvs. eauto.
    + intros key [a Ha]. apply Hda in Ha as [Hkey _]. eexists. by apply Hva.
  - destruct Hcovers as [Hvalue Hkeys].
    destruct (ParametersFacts.written_object name default Hdefault) as (Hds & Hda & Hdo).
    destruct (ParametersFacts.written_object name value Hvalue) as (Hvs & _ & Hvo).
    rewrite Hda. split; [|split]; [|by intros key [? ?%lookup_empty_Some]|].
    + intros key [x Hx]. apply Hds in Hx as (k & -> & Hk).
      destruct (Hkeys k) as [y Hy]; [by eexists|]. exists y. apply Hvs. eauto.
    + intros key [o Ho]. apply Hdo in Ho as [Hkey _]. eexists. by apply Hvo.
  - destruct Hcovers as [Hna Hno].
    destruct (ParametersFacts.written_string name default) as (Hds & Hda & Hdo);
      [by rewrite Hdefault..|].
    destruct (ParametersFacts.written_string name value Hna Hno) as (Hvs & _ & _).
    rewrite Hda, Hdo. split; [|split]; [|by intros key [? ?%lookup_empty_Some]..].
    intros key [x Hx]. apply Hds in Hx as [Hkey _]. eexists. by apply Hvs.
Qed.

(** The maps of the run hold every key that one of its parameters
    writes. *)
Lemma run_holds pr before q after :
  PipelineRunSpec.Params (PipelineRun.Spec pr) = before ++ q :: after →
  let w := written (Param.Name q) (Param.Value q) in
  let run := paramsFromPipelineRun pr in
  (∀ key, is_Some (stringReplacements w !! key) →
          is_Some (stringReplacements run !! key))
  ∧ (∀ key, is_Some (arrayReplacements w !! key) →
            is_Some (arrayReplacements run !! key))
  ∧ (∀ key, is_Some (objectReplacements w !! key) →
            is_Some (objectReplacements run !! key)).
Proof.
  intros Hparams w run. subst run. unfold paramsFromPipelineRun.
  rewrite Hparams, setParams_split. fold w. simpl.
  repeat split; intros key Hkey; rewrite !lookup_union_is_Some; auto.
Qed.

End WithQuote.
End OverrideFacts.

(** C3.  [ApplyParameters] substitutes with the three maps in which every
    entry written for a parameter of the run stands in place of the entry
    of a default under the same key, and an entry of a default stays under
    every key that the run does not write.  The type tag of the value of
    the run alone chooses the map: a string (or a value of any other tag) is
    written to the string map under the three forms of its name, an array to
    the array map and element by element to the string map, an object to
    the object map and attribute by attribute to the string map; the type of
    the default plays no part and nothing fails.  A parameter of the run
    holds these keys unless a later parameter of the same run writes the
    same key.  Every key that a default is written to holds a value of the
    run when the value of the run covers the default: both are arrays and
    the one of the run is at least as long, both are objects and the one of
    the run has the attributes of the default, or both are written as
    strings. *)
Theorem run_values_override_defaults `{SubstitutionExternals} `{!GoQuote}
    (h : Resolvers.specs) (p : loc) (spec : PipelineSpec.t) (pr : PipelineRun.t) :
  h !! p = Some spec →
  let defaults := Parameters.setDefaults (PipelineSpec.Params spec) Parameters.empty in
  let run := Parameters.paramsFromPipelineRun pr in
  let m := Parameters.parameterReplacements (PipelineSpec.Params spec) pr in
  Resolvers.ApplyParameters h p pr
  = Resolvers.ApplyReplacements h p (Parameters.stringReplacements m)
      (Parameters.arrayReplacements m) (Parameters.objectReplacements m)
  ∧ (∀ key,
       Parameters.stringReplacements m !! key
       = match Parameters.stringReplacements run !! key with
         | Some x => Some x
         | None => Parameters.stringReplacements defaults !! key
         end)
  ∧ (∀ key,
       Parameters.arrayReplacements m !! key
       = match Parameters.arrayReplacements run !! key with
         | Some x => Some x
         | None => Parameters.arrayReplacements defaults !! key
         end)
  ∧ (∀ key,
       Parameters.objectReplacements m !! key
       = match Parameters.objectReplacements run !! key with
         | Some x => Some x
         | None => Parameters.objectReplacements defaults !! key
         end)
  ∧ (∀ before q after,
       PipelineRunSpec.Params (PipelineRun.Spec pr) = before ++ q :: after →
       let name := Param.Name q in
       let value := Param.Value q in
       let later := Parameters.setParams after Parameters.empty in
       match ParamValue.Type_ value with
       | ParamTypeArray =>
           ∀ pattern,
             (Parameters.arrayReplacements later !! Parameters.Sprintf pattern name = None →
              Parameters.arrayReplacements m !! Parameters.Sprintf pattern name
              = Some (ParamValue.ArrayVal value))
             ∧ (∀ i x,
                  ParamValue.ArrayVal value !! i = Some x →
                  Parameters.stringReplacements later
                    !! Parameters.Sprintf_index pattern name i = None →
                  Parameters.stringReplacements m
                    !! Parameters.Sprintf_index pattern name i = Some x)
       | ParamTypeObject =>
           (∀ pattern,
              Parameters.objectReplacements later !! Parameters.Sprintf pattern name = None →
              Parameters.objectReplacements m !! Parameters.Sprintf pattern name
              = Some (ParamValue.ObjectVal value))
           ∧ (∀ k x,
                ParamValue.ObjectVal value !! k = Some x →
                Parameters.stringReplacements later
                  !! Parameters.Sprintf_objectIndividual name k = None →
                Parameters.stringReplacements m
                  !! Parameters.Sprintf_objectIndividual name k = Some x)
       | _ =>
           ∀ pattern,
             Parameters.stringReplacements later !! Parameters.Sprintf pattern name = None →
             Parameters.stringReplacements m !! Parameters.Sprintf pattern name
             = Some (ParamValue.StringVal value)
       end)
  ∧ (∀ before q after default,
       PipelineRunSpec.Params (PipelineRun.Spec pr) = before ++ q :: after →
       Parameters.covers (Param.Value q) default →
       let w := Parameters.written (Param.Name q) default in
       (∀ key,
          is_Some (Parameters.stringReplacements w !! key) →
          is_Some (Parameters.stringReplacements run !! key)
          ∧ Parameters.stringReplacements m !! key
            = Parameters.stringReplacements run !! key)
       ∧ (∀ key,
            is_Some (Parameters.arrayReplacements w !! key) →
            is_Some (Parameters.arrayReplacements run !! key)
            ∧ Parameters.arrayReplacements m !! key
              = Parameters.arrayReplacements run !! key)
       ∧ (∀ key,
            is_Some (Parameters.objectReplacements w !! key) →
            is_Some (Parameters.objectReplacements run !! key)
            ∧ Parameters.objectReplacements m !! key
              = Parameters.objectReplacements run !! key)).
Proof.
  intros Hp defaults run m.
  assert (∀ {A} (proj : Parameters.replacements → gmap string A) key,
            (∀ m1 m2, proj (Parameters.union m1 m2) = proj m1 ∪ proj m2) →
            is_Some (proj run !! key) → proj m !! key = proj run !! key) as Hwins.
  { intros A proj key Hproj [x Hx]. subst m.
    rewrite OverrideFacts.parameterReplacements_union, Hproj. fold run.
    rewrite Hx. by apply lookup_union_Some_l. }
  split; [|split; [|split; [|split; [|split]]]]; cycle 5.
  { intros before q after default Hparams Hcovers w.
    destruct (OverrideFacts.written_covers (Param.Name q) (Param.Value q) default Hcovers)
      as (Hs & Ha & Ho).
    destruct (OverrideFacts.run_holds pr before q after Hparams) as (Hrs & Hra & Hro).
    fold run in Hrs, Hra, Hro.
    split; [|split]; intros key Hkey.
    - assert (is_Some (Parameters.stringReplacements run !! key)) as Hrun
        by (apply Hrs, Hs, Hkey).
      split; [done|]. by apply (Hwins _ Parameters.stringReplacements).
    - assert (is_Some (Parameters.arrayReplacements run !! key)) as Hrun
        by (apply Hra, Ha, Hkey).
      split; [done|]. by apply (Hwins _ Parameters.arrayReplacements).
    - assert (is_Some (Parameters.objectReplacements run !! key)) as Hrun
        by (apply Hro, Ho, Hkey).
      split; [done|]. by apply (Hwins _ Parameters.objectReplacements). }
  - unfold Resolvers.ApplyParameters. by rewrite Hp.
  - intros key. subst m. rewrite OverrideFacts.parameterReplacements_union. simpl.
    rewrite lookup_union. fold run defaults.
    by destruct (Parameters.stringReplacements run !! key),
                (Parameters.stringReplacements defaults !! key).
  - intros key. subst m. rewrite OverrideFacts.parameterReplacements_union. simpl.
    rewrite lookup_union. fold run defaults.
    by destruct (Parameters.arrayReplacements run !! key),
                (Parameters.arrayReplacements defaults !! key).
  - intros key. subst m. rewrite OverrideFacts.parameterReplacements_union. simpl.
    rewrite lookup_union. fold run defaults.
    by destruct (Parameters.objectReplacements run !! key),
                (Parameters.objectReplacements defaults !! key).
  - intros before q after Hparams name value later.
    destruct (OverrideFacts.run_param_wins (PipelineSpec.Params spec) pr before q after Hparams)
      as (Hs & Ha & Ho).
    fold name value later m in Hs, Ha, Ho.
    destruct (ParamValue.Type_ value) eqn:Hty.
    + destruct (ParametersFacts.written_string name value) as (Hw & _ & _);
        [by rewrite Hty..|].
      intros pattern Hlater. apply Hs; [|done]. apply Hw. eauto.
    + destruct (ParametersFacts.written_array name value Hty) as (Hws & Hwa & _).
      intros pattern. split.
      * intros Hlater. apply Ha; [|done]. apply Hwa. eauto.
      * intros i x Hx Hlater. apply Hs; [|done]. apply Hws. eauto.
    + destruct (ParametersFacts.written_object name value Hty) as (Hws & _ & Hwo).
      split.
      * intros pattern Hlater. apply Ho; [|done]. apply Hwo. eauto.
      * intros k x Hx Hlater. apply Hs; [|done]. apply Hws. eauto.
    + destruct (ParametersFacts.written_string name value) as (Hw & _ & _);
        [by rewrite Hty..|].
      intros pattern Hlater. apply Hs; [|done]. apply Hw. eauto.
Qed.

Lemma run_values_override_defaults_witness :
  let spec : PipelineSpec.t (H := ReferenceResolvers.foreign) :=
    PipelineSpec.mk _
      [ParamSpec.mk "greeting" ParamTypeString (Some (Reference.stringValue "hi"))]
      [ReferenceResolvers.task "t" ""
         [Param.mk "msg" (Reference.stringValue "$(params.greeting), world")] None]
      [] [] [] in
  let pr :=
    PipelineRun.mk "run" "ns" "uid"
      (PipelineRunSpec.mk [Param.mk "greeting" (Reference.stringValue "hello")] []) in
  let m :=
    Parameters.parameterReplacements (H := ReferenceResolvers.goQuote)
      (PipelineSpec.Params spec) pr in
  (∀ pattern,
     Parameters.stringReplacements m
       !! Parameters.Sprintf (H := ReferenceResolvers.goQuote) pattern "greeting"
     = Some "hello")
  ∧ Resolvers.ApplyParameters (H0 := ReferenceResolvers.substitutionExternals)
      (H1 := ReferenceResolvers.goQuote) {[ 1%positive := spec ]} 1%positive pr
    = Resolvers.ApplyReplacements (H0 := ReferenceResolvers.substitutionExternals)
        (H1 := ReferenceResolvers.goQuote) {[ 1%positive := spec ]} 1%positive
        (Parameters.stringReplacements m) (Parameters.arrayReplacements m)
        (Parameters.objectReplacements m).
Proof.
  intros spec pr m.
  assert (({[ 1%positive := spec ]} : Resolvers.specs) !! 1%positive = Some spec) as Hp
    by (vm_compute; reflexivity).
  destruct (run_values_override_defaults (H0 := ReferenceResolvers.substitutionExternals)
              (H1 := ReferenceResolvers.goQuote)
              {[ 1%positive := spec ]} 1%positive spec pr Hp)
    as (Happly & _ & _ & _ & Hrun & _).
  split; [|exact Happly].
  intros pattern.
  exact (Hrun [] (Param.mk "greeting" (Reference.stringValue "hello")) [] eq_refl
           pattern eq_refl).
Defined.

(** C3, the claim as it was stated.  The pipeline declares [x], a string
    with the default [d], and [xs], an array with the default [a, b]; the
    run gives [x] the array [z] and [xs] the array [y].  The values of the
    run are written to the array map and, element by element, to the
    string map (lines 113-116); the entry of the default of [x] in the
    string map (line 81) and the entry of the second element of the default
    of [xs] (line 66) are under keys that the run does not write, and lines
    89-91 leave them.  The display name [$(params.x) $(params.xs[1])] of
    a task is substituted with the two defaults. *)
Theorem default_outlives_the_run_value :
  let spec : PipelineSpec.t (H := ReferenceResolvers.foreign) :=
    PipelineSpec.mk _
      [ParamSpec.mk "x" ParamTypeString (Some (Reference.stringValue "d"));
       ParamSpec.mk "xs" ParamTypeArray (Some (Reference.arrayValue ["a"; "b"]))]
      [ReferenceResolvers.task "t" "$(params.x) $(params.xs[1])" [] None]
      [] [] [] in
  let pr :=
    PipelineRun.mk "run" "ns" "uid"
      (PipelineRunSpec.mk
         [Param.mk "x" (Reference.arrayValue ["z"]);
          Param.mk "xs" (Reference.arrayValue ["y"])] []) in
  let m :=
    Parameters.parameterReplacements (H := ReferenceResolvers.goQuote)
      (PipelineSpec.Params spec) pr in
  Parameters.arrayReplacements m !! "params.x" = Some ["z"]
  ∧ Parameters.stringReplacements m !! "params.x" = Some "d"
  ∧ Parameters.arrayReplacements m !! "params.xs" = Some ["y"]
  ∧ Parameters.stringReplacements m !! "params.xs[0]" = Some "y"
  ∧ Parameters.stringReplacements m !! "params.xs[1]" = Some "b"
  ∧ ∃ h' spec' t',
      Resolvers.ApplyParameters (H0 := ReferenceResolvers.substitutionExternals)
        (H1 := ReferenceResolvers.goQuote) {[ 1%positive := spec ]} 1%positive pr
      = Some (h', 2%positive)
      ∧ h' !! 2%positive = Some spec'
      ∧ PipelineSpec.Tasks spec' !! 0%nat = Some t'
      ∧ PipelineTask.DisplayName t' = "d b".
Proof.
  intros spec pr m.
  split; [by vm_compute|]. split; [by vm_compute|]. split; [by vm_compute|].
  split; [by vm_compute|]. split; [by vm_compute|].
  eexists _, _, _. split; [by vm_compute|]. split; [by vm_compute|].
  split; by vm_compute.
Qed.

(** *** The three forms of a parameter *)

Module FormsFacts.
Import Parameters ParametersFacts.

Section WithQuote.
Context `{GoQuote}.

Lemma app_ne_self (s t : string) : t ≠ "" → s +:+ t ≠ s.
Proof.
  intros Ht Heq. apply (f_equal String.length) in Heq.
  rewrite StringFacts.length_app in Heq. destruct t; [done|]. simpl in Heq. lia.
Qed.

(** The forms differ from their first characters on. *)
Lemma Sprintf_prefix_pattern p p' name name' rest rest' :
  Sprintf p name +:+ rest = Sprintf p' name' +:+ rest' → p = p'.
Proof.
  destruct p, p'; unfold Sprintf, Quote, doubleQuote; intros Heq;
    cbn in Heq; by simplify_eq/=.
Qed.

Lemma Sprintf_index_ne_Sprintf p p' name i :
  Sprintf_index p name i ≠ Sprintf p' name.
Proof.
  unfold Sprintf_index. intros Heq.
  assert (p = p') as <-.
  { apply (Sprintf_prefix_pattern p p' name name ("[" +:+ Go.Itoa (Z.of_nat i) +:+ "]") "").
    by rewrite StringFacts.app_nil_r. }
  by apply app_ne_self in Heq.
Qed.

Lemma Sprintf_ne_objectIndividual p name k :
  Sprintf p name ≠ Sprintf_objectIndividual name k.
Proof.
  unfold Sprintf_objectIndividual. intros Heq. destruct p.
  - unfold Sprintf in Heq. apply (inj (String.app _)) in Heq.
    symmetry in Heq. by apply app_ne_self in Heq.
  - rewrite <- (StringFacts.app_nil_r (Sprintf _ _)) in Heq.
    by apply Sprintf_bracket_not_dotted in Heq.
  - rewrite <- (StringFacts.app_nil_r (Sprintf _ _)) in Heq.
    by apply Sprintf_bracket_not_dotted in Heq.
Qed.

Lemma Sprintf_index_ne_objectIndividual p name i k :
  Sprintf_index p name i ≠ Sprintf_objectIndividual name k.
Proof.
  unfold Sprintf_index, Sprintf_objectIndividual. intros Heq. destruct p.
  - unfold Sprintf in Heq. rewrite StringFacts.app_assoc in Heq.
    do 2 apply (inj (String.app _)) in Heq. cbn in Heq. by simplify_eq/=.
  - by apply Sprintf_bracket_not_dotted in Heq.
  - by apply Sprintf_bracket_not_dotted in Heq.
Qed.

(** Each parameter writes the three forms of its own name alike. *)
Lemma written_agree name value :
  wholeAgree name (stringReplacements (written name value))
  ∧ elementsAgree name (stringReplacements (written name value))
  ∧ wholeAgree name (arrayReplacements (written name value))
  ∧ wholeAgree name (objectReplacements (written name value)).
Proof.
  destruct (decide (ParamValue.Type_ value = ParamTypeArray)) as [Ha|Ha];
    [|destruct (decide (ParamValue.Type_ value = ParamTypeObject)) as [Ho|Ho]].
  - destruct (written_array name value Ha) as (Hs & Harr & ->).
    repeat split; try done.
    + intros p p'. apply option_eq. intros x. rewrite !Hs. split.
      * intros (q & i & Heq & _). symmetry in Heq. by apply Sprintf_index_ne_Sprintf in Heq.
      * intros (q & i & Heq & _). symmetry in Heq. by apply Sprintf_index_ne_Sprintf in Heq.
    + intros i p p'. apply option_eq. intros x. rewrite !Hs. split.
      * intros (q & j & Heq & Hx).
        assert (q = p) as -> by (symmetry; by eapply Sprintf_index_pattern).
        apply Sprintf_index_inj in Heq as <-. eauto.
      * intros (q & j & Heq & Hx).
        assert (q = p') as -> by (symmetry; by eapply Sprintf_index_pattern).
        apply Sprintf_index_inj in Heq as <-. eauto.
    + intros p p'. apply option_eq. intros x. rewrite !Harr.
      split; intros [_ ->]; eauto.
  - destruct (written_object name value Ho) as (Hs & -> & Hobj).
    repeat split; try done.
    + intros p p'. apply option_eq. intros x. rewrite !Hs. split.
      * intros (k & Heq & _). by apply Sprintf_ne_objectIndividual in Heq.
      * intros (k & Heq & _). by apply Sprintf_ne_objectIndividual in Heq.
    + intros i p p'. apply option_eq. intros x. rewrite !Hs. split.
      * intros (k & Heq & _). by apply Sprintf_index_ne_objectIndividual in Heq.
      * intros (k & Heq & _). by apply Sprintf_index_ne_objectIndividual in Heq.
    + intros p p'. apply option_eq. intros x. rewrite !Hobj.
      split; intros [_ ->]; eauto.
  - destruct (written_string name value Ha Ho) as (Hs & -> & ->).
    repeat split; try done.
    + intros p p'. apply option_eq. intros x. rewrite !Hs.
      split; intros [_ ->]; eauto.
    + intros i p p'. apply option_eq. intros x. rewrite !Hs. split.
      * intros [(q & Heq) _]. by apply Sprintf_index_ne_Sprintf in Heq.
      * intros [(q & Heq) _]. by apply Sprintf_index_ne_Sprintf in Heq.
Qed.

(** What holds of the empty map, of a join, and of what each writer writes
    holds of the maps handed to the substitution. *)
Lemma writers_ind {A} (proj : replacements → gmap string A) (P : gmap string A → Prop)
    params pr :
  proj empty = ∅ →
  (∀ a b, proj (union a b) = proj a ∪ proj b) →
  P ∅ →
  (∀ m1 m2, P m1 → P m2 → P (m1 ∪ m2)) →
  (∀ name value, (name, value) ∈ writers params pr → P (proj (written name value))) →
  P (proj (parameterReplacements params pr)).
Proof.
  intros Hempty Hunion HP0 HPu Hw.
  rewrite OverrideFacts.parameterReplacements_union, Hunion. apply HPu.
  - unfold paramsFromPipelineRun.
    assert (∀ q, q ∈ PipelineRunSpec.Params (PipelineRun.Spec pr) →
                 P (proj (written (Param.Name q) (Param.Value q)))) as Hrun.
    { intros q Hq. apply Hw. unfold writers. apply elem_of_app. right.
      apply list_elem_of_fmap. by exists q. }
    revert Hrun. generalize (PipelineRunSpec.Params (PipelineRun.Spec pr)) as l.
    induction l as [|q l IH] using rev_ind; intros Hrun.
    + simpl. by rewrite Hempty.
    + rewrite setParams_app. simpl. rewrite setParam_union, Hunion. apply HPu.
      * apply Hrun. apply elem_of_app. right. by apply list_elem_of_singleton.
      * apply IH. intros q' Hq'. apply Hrun. apply elem_of_app. by left.
  - assert (∀ p default, p ∈ params → ParamSpec.Default p = Some default →
                         P (proj (written (ParamSpec.Name p) default))) as Hdef.
    { intros p default Hp Hd. apply Hw. unfold writers. apply elem_of_app. left.
      apply list_elem_of_omap. exists p. split; [done|]. by rewrite Hd. }
    revert Hdef. generalize params as l.
    induction l as [|p l IH] using rev_ind; intros Hdef.
    + simpl. by rewrite Hempty.
    + unfold setDefaults. rewrite foldl_app. simpl. fold (setDefaults l empty).
      assert (P (proj (setDefaults l empty))) as Hl.
      { apply IH. intros p' d Hp' Hd. eapply Hdef; [|done]. apply elem_of_app. by left. }
      destruct (ParamSpec.Default p) as [default|] eqn:Hd; [|done].
      rewrite setParam_union, Hunion. apply HPu; [|done].
      eapply Hdef; [|done]. apply elem_of_app. right. by apply list_elem_of_singleton.
Qed.

Lemma wholeAgree_union {A} name (m1 m2 : gmap string A) :
  wholeAgree name m1 → wholeAgree name m2 → wholeAgree name (m1 ∪ m2).
Proof. intros H1 H2 p p'. by rewrite !lookup_union, (H1 p p'), (H2 p p'). Qed.

Lemma elementsAgree_union {A} name (m1 m2 : gmap string A) :
  elementsAgree name m1 → elementsAgree name m2 → elementsAgree name (m1 ∪ m2).
Proof. intros H1 H2 i p p'. by rewrite !lookup_union, (H1 i p p'), (H2 i p p'). Qed.

(** In the array map and in the object map a parameter writes whole forms
    of its own name only. *)
Lemma written_other_name name name' value :
  name' ≠ name →
  ∀ p, arrayReplacements (written name' value) !! Sprintf p name = None
       ∧ objectReplacements (written name' value) !! Sprintf p name = None.
Proof.
  intros Hne p.
  destruct (decide (ParamValue.Type_ value = ParamTypeArray)) as [Ha|Ha];
    [|destruct (decide (ParamValue.Type_ value = ParamTypeObject)) as [Ho|Ho]].
  - destruct (written_array name' value Ha) as (_ & Harr & ->). split; [|done].
    apply eq_None_not_Some. intros [x [[q Heq] _]%Harr].
    apply Sprintf_inj in Heq as [_ ?]. done.
  - destruct (written_object name' value Ho) as (_ & -> & Hobj). split; [done|].
    apply eq_None_not_Some. intros [x [[q Heq] _]%Hobj].
    apply Sprintf_inj in Heq as [_ ?]. done.
  - by destruct (written_string name' value Ha Ho) as (_ & -> & ->).
Qed.

End WithQuote.
End FormsFacts.

(** C4, as the code has it.  For every name: (1) what a parameter writes is
    written alike under the dotted, the double-quoted and the single-quoted
    form of its name, for the whole value in each of the three maps and for
    every indexed element of an array; (2) the attributes of an object are
    written to the string map under the dotted form [params.<name>.<key>]
    and under no other key, so no bracketed form followed by [.<key>] is a
    key; (3) the array map and the object map that [ApplyParameters] builds
    hold the same under the three forms of every name; (4) so does its
    string map, for the whole value and for every index, when no parameter
    of another name writes one of those keys. *)
Theorem three_forms_are_written_alike `{GoQuote}
    (params : list ParamSpec.t) (pr : PipelineRun.t) (name : string) :
  let m := Parameters.parameterReplacements params pr in
  (∀ value,
     Parameters.wholeAgree name
       (Parameters.stringReplacements (Parameters.written name value))
     ∧ Parameters.elementsAgree name
         (Parameters.stringReplacements (Parameters.written name value))
     ∧ Parameters.wholeAgree name
         (Parameters.arrayReplacements (Parameters.written name value))
     ∧ Parameters.wholeAgree name
         (Parameters.objectReplacements (Parameters.written name value)))
  ∧ (∀ value,
       ParamValue.Type_ value = ParamTypeObject →
       (∀ key x,
          Parameters.stringReplacements (Parameters.written name value) !! key = Some x
          ↔ ∃ k, key = Parameters.Sprintf_objectIndividual name k
                 ∧ ParamValue.ObjectVal value !! k = Some x)
       ∧ (∀ p k,
            p ≠ Parameters.Dotted →
            Parameters.stringReplacements (Parameters.written name value)
              !! (Parameters.Sprintf p name +:+ "." +:+ k) = None))
  ∧ Parameters.wholeAgree name (Parameters.arrayReplacements m)
  ∧ Parameters.wholeAgree name (Parameters.objectReplacements m)
  ∧ ((∀ name' value',
        (name', value') ∈ Parameters.writers params pr →
        name' ≠ name →
        ∀ p,
          Parameters.stringReplacements (Parameters.written name' value')
            !! Parameters.Sprintf p name = None
          ∧ ∀ i,
              Parameters.stringReplacements (Parameters.written name' value')
                !! Parameters.Sprintf_index p name i = None) →
     Parameters.wholeAgree name (Parameters.stringReplacements m)
     ∧ Parameters.elementsAgree name (Parameters.stringReplacements m)).
Proof.
  intros m. split; [|split; [|split; [|split]]].
  - intros value. apply FormsFacts.written_agree.
  - intros value Hty.
    destruct (ParametersFacts.written_object name value Hty) as (Hs & _ & _).
    split; [done|]. intros p k Hp.
    apply eq_None_not_Some. intros [x (k' & Heq & _)%Hs].
    by apply ParametersFacts.Sprintf_bracket_not_dotted in Heq.
  - subst m.
    apply (FormsFacts.writers_ind Parameters.arrayReplacements
             (Parameters.wholeAgree name)); try done.
    + apply FormsFacts.wholeAgree_union.
    + intros name' value' _. destruct (decide (name' = name)) as [->|Hne].
      * apply FormsFacts.written_agree.
      * intros p p'.
        destruct (FormsFacts.written_other_name name name' value' Hne p) as [-> _].
        by destruct (FormsFacts.written_other_name name name' value' Hne p') as [-> _].
  - subst m.
    apply (FormsFacts.writers_ind Parameters.objectReplacements
             (Parameters.wholeAgree name)); try done.
    + apply FormsFacts.wholeAgree_union.
    + intros name' value' _. destruct (decide (name' = name)) as [->|Hne].
      * apply FormsFacts.written_agree.
      * intros p p'.
        destruct (FormsFacts.written_other_name name name' value' Hne p) as [_ ->].
        by destruct (FormsFacts.written_other_name name name' value' Hne p') as [_ ->].
  - intros Hothers. subst m. split.
    + apply (FormsFacts.writers_ind Parameters.stringReplacements
               (Parameters.wholeAgree name)); try done.
      * apply FormsFacts.wholeAgree_union.
      * intros name' value' Hin. destruct (decide (name' = name)) as [->|Hne].
        -- apply FormsFacts.written_agree.
        -- intros p p'.
           destruct (Hothers name' value' Hin Hne p) as [-> _].
           by destruct (Hothers name' value' Hin Hne p') as [-> _].
    + apply (FormsFacts.writers_ind Parameters.stringReplacements
               (Parameters.elementsAgree name)); try done.
      * apply FormsFacts.elementsAgree_union.
      * intros name' value' Hin. destruct (decide (name' = name)) as [->|Hne].
        -- apply FormsFacts.written_agree.
        -- intros i p p'.
           destruct (Hothers name' value' Hin Hne p) as [_ Hp].
           destruct (Hothers name' value' Hin Hne p') as [_ Hp'].
           by rewrite Hp, Hp'.
Qed.

Lemma three_forms_are_written_alike_witness :
  let params :=
    [ParamSpec.mk "greeting" ParamTypeString (Some (Reference.stringValue "hi"))] in
  let pr :=
    PipelineRun.mk "run" "ns" "uid"
      (PipelineRunSpec.mk [Param.mk "greeting" (Reference.stringValue "hello")] []) in
  let m := Parameters.parameterReplacements (H := ReferenceResolvers.goQuote) params pr in
  Parameters.wholeAgree (H := ReferenceResolvers.goQuote) "greeting"
    (Parameters.stringReplacements m)
  ∧ Parameters.elementsAgree (H := ReferenceResolvers.goQuote) "greeting"
      (Parameters.stringReplacements m)
  ∧ Parameters.stringReplacements m !! "params['greeting']" = Some "hello".
Proof.
  intros params pr m.
  destruct (three_forms_are_written_alike (H := ReferenceResolvers.goQuote)
              params pr "greeting") as (_ & _ & _ & _ & Hstrings).
  split; [apply Hstrings|split; [apply Hstrings|reflexivity]];
    intros name' value' Hin Hne; exfalso;
    vm_compute in Hin;
    repeat (apply elem_of_cons in Hin as [Hin|Hin]; [by injection Hin as -> _|]);
    by apply elem_of_nil in Hin.
Defined.

(** C4 as stated fails for the projection of one attribute of an object.
    The default [{url: "u"}] of the object parameter [image] is addressed by
    [params.image.url]; the same attribute through the double-quoted or the
    single-quoted form of the name is a key of no map. *)
Lemma object_attribute_has_no_bracketed_form :
  let params :=
    [ParamSpec.mk "image" ParamTypeObject
       (Some (Reference.objectValue {[ "url" := "u" ]}))] in
  let pr := PipelineRun.mk "run" "ns" "uid" (PipelineRunSpec.mk [] []) in
  let m := Parameters.parameterReplacements (H := ReferenceResolvers.goQuote) params pr in
  Parameters.stringReplacements m !! "params.image.url" = Some "u"
  ∧ Parameters.stringReplacements m
      !! (Parameters.Sprintf (H := ReferenceResolvers.goQuote)
            Parameters.DoubleQuoted "image" +:+ ".url") = None
  ∧ Parameters.stringReplacements m !! "params['image'].url" = None
  ∧ Parameters.objectReplacements m
      !! Parameters.Sprintf (H := ReferenceResolvers.goQuote)
           Parameters.DoubleQuoted "image" = Some {[ "url" := "u" ]}.
Proof. repeat split. Qed.

(** *** The specification passed to a resolver *)

Module FrameFacts.
Import Resolvers.

Section WithExternals.
Context `{SubstitutionExternals} `{!GoQuote}.

(** [ApplyReplacements] writes to one location, which the store did not
    use: every object of the store, the one passed among them, is after the
    call what it was before. *)
Lemma ApplyReplacements_frame (h h' : specs) (p copy : loc) sr ar or :
  ApplyReplacements h p sr ar or = Some (h', copy) →
  h !! copy = None ∧ ∀ l, l ≠ copy → h' !! l = h !! l.
Proof.
  unfold ApplyReplacements. intros Hcall.
  destruct (h !! p) as [spec|]; [|done]. simpl in Hcall.
  destruct (replaceVariablesInPipelineTasks (PipelineSpec.Tasks spec) sr ar or);
    [|done]; simpl in Hcall.
  destruct (replaceVariablesInPipelineTasks (PipelineSpec.Finally spec) sr ar or);
    [|done]; simpl in Hcall.
  injection Hcall as <- <-. split.
  - apply not_elem_of_dom. apply is_fresh.
  - intros l' Hl. by rewrite lookup_insert_ne.
Qed.

Lemma ApplyReplacements_input (h h' : specs) (p copy : loc) sr ar or :
  ApplyReplacements h p sr ar or = Some (h', copy) →
  copy ≠ p ∧ h' !! p = h !! p.
Proof.
  intros Hcall. pose proof Hcall as [Hfresh Hframe]%ApplyReplacements_frame.
  assert (copy ≠ p) as Hne.
  { intros ->. unfold ApplyReplacements in Hcall. by rewrite Hfresh in Hcall. }
  split; [done|]. by apply Hframe.
Qed.

Lemma ApplyParameters_input (h h' : specs) (p copy : loc) pr :
  ApplyParameters h p pr = Some (h', copy) → copy ≠ p ∧ h' !! p = h !! p.
Proof.
  unfold ApplyParameters. destruct (h !! p) eqn:Hp; [|done]. simpl.
  intros [? Hin]%ApplyReplacements_input. split; [done|]. by rewrite Hin.
Qed.

Lemma ApplyWorkspaces_input (h h' : specs) (p copy : loc) pr :
  ApplyWorkspaces h p pr = Some (h', copy) → copy ≠ p ∧ h' !! p = h !! p.
Proof.
  unfold ApplyWorkspaces. destruct (h !! p) as [spec|] eqn:Hp; [|done]. simpl.
  intros Hcall.
  assert (fresh (dom h) ≠ p) as Hne.
  { intros Heq. pose proof (is_fresh (dom h)) as Hfresh. rewrite Heq in Hfresh.
    apply Hfresh. apply elem_of_dom. by rewrite Hp. }
  pose proof Hcall as [Hfresh Hframe]%ApplyReplacements_frame.
  assert (copy ≠ p) as Hne'.
  { intros ->. by rewrite lookup_insert_ne, Hp in Hfresh. }
  split; [done|]. rewrite Hframe by done. by rewrite lookup_insert_ne.
Qed.

(** [ApplyContexts] assigns the display names through the pointer it was
    given: after the call the object passed holds the substituted display
    names, whatever they were. *)
Lemma ApplyContexts_input (h h' : specs) (spec copy : loc) s pipelineName pr :
  h !! spec = Some s →
  ApplyContexts h spec pipelineName pr = Some (h', copy) →
  h' !! spec
  = Some (PipelineSpec.setFinally
            (replaceDisplayNames (GetContextReplacements pipelineName pr)
               (PipelineSpec.Finally s))
            (PipelineSpec.setTasks
               (replaceDisplayNames (GetContextReplacements pipelineName pr)
                  (PipelineSpec.Tasks s))
               s)).
Proof.
  intros Hs. unfold ApplyContexts. rewrite Hs. simpl.
  intros [_ ->]%ApplyReplacements_input. by rewrite lookup_insert_eq.
Qed.

End WithExternals.

Section TaskContexts.
Context `{SubstitutionExternals} `{!MatrixExternals}.

Lemma ApplyPipelineTaskContexts_input (h h' : RunState.tasks) (pt copy : loc)
    status facts state state' computed :
  RunState.ApplyPipelineTaskContexts h pt status facts state
  = Some (h', copy, state', computed) →
  copy ≠ pt ∧ h' !! pt = h !! pt.
Proof.
  unfold RunState.ApplyPipelineTaskContexts.
  destruct (h !! pt) as [task|] eqn:Hpt; [|done]. simpl.
  destruct (RunState.taskContextReplacements _ _ _ _) as [r|]; [|done]. simpl.
  match goal with |- context [mbind _ ?x] => destruct x as [task'|] end; [|done].
  simpl. intros [= <- <- _ _].
  assert (fresh (dom h) ≠ pt) as Hne.
  { intros Heq. pose proof (is_fresh (dom h)) as Hfresh. rewrite Heq in Hfresh.
    apply Hfresh. apply elem_of_dom. by rewrite Hpt. }
  split; [done|]. by rewrite lookup_insert_ne.
Qed.

End TaskContexts.
End FrameFacts.

(** C6, at an input on which the code does not do what the design asks.
    The specification passed to [ApplyContexts] has one task whose display
    name is [$(context.pipeline.name)].  The design asks that the
    specification passed be, after the call, what it was before, as it is
    for [ApplyParameters], [ApplyWorkspaces] and [ApplyPipelineTaskContexts]
    ([FrameFacts]).  Lines 150-155 assign the substituted display names to
    [spec.Tasks[i]] and [spec.Finally[i]] before line 156 makes the copy:
    after the call the object at the pointer passed has the display name
    [build-and-test]. *)
Theorem ApplyContexts_writes_to_its_input :
  let task name : PipelineTask.t (H := ReferenceResolvers.foreign) :=
    ReferenceResolvers.task "t" name [] None in
  let spec name : PipelineSpec.t (H := ReferenceResolvers.foreign) :=
    PipelineSpec.mk _ [] [task name] [] [] [] in
  let pr := PipelineRun.mk "run" "ns" "uid" (PipelineRunSpec.mk [] []) in
  let h : Resolvers.specs := {[ 1%positive := spec "$(context.pipeline.name)" ]} in
  ∃ h',
    Resolvers.ApplyContexts (H0 := ReferenceResolvers.substitutionExternals)
      (H1 := ReferenceResolvers.goQuote) h 1%positive "build-and-test" pr
    = Some (h', 2%positive)
    ∧ h !! 1%positive = Some (spec "$(context.pipeline.name)")
    ∧ h' !! 1%positive = Some (spec "build-and-test")
    ∧ h' !! 2%positive = Some (spec "build-and-test").
Proof. intros task spec pr h. eexists. repeat split. Qed.

(** *** Entries of the run state without a task *)

Module EntryFacts.
Import RunState.

Section WithForeign.
Context `{Foreign}.

(** The loop over the entries, for a body that returns: it returns, it
    passes over the entries without a task and over the entries that are
    not targets, and it gives every other target the substituted copy of
    its task. *)
Lemma updateEntries (body : PipelineTask.t → option PipelineTask.t)
    (targets : PipelineRunState) :
  (∀ task, is_Some (body task)) →
  ∀ state : entries,
    (∀ l, l ∈ targets → is_Some (state !! l)) →
    ∃ state' : entries,
      foldM (updateEntry body) targets state = Some state'
      ∧ (∀ l, is_Some (state' !! l) ↔ is_Some (state !! l))
      ∧ (∀ l entry, state !! l = Some entry →
                    ResolvedPipelineTask.PipelineTask_ entry = None →
                    state' !! l = Some entry)
      ∧ (∀ l, l ∉ targets → state' !! l = state !! l)
      ∧ (NoDup targets →
         ∀ l entry task,
           l ∈ targets → state !! l = Some entry →
           ResolvedPipelineTask.PipelineTask_ entry = Some task →
           ∃ task', body task = Some task'
                    ∧ state' !! l
                      = Some (ResolvedPipelineTask.setPipelineTask (Some task') entry)).
Proof.
  intros Hbody. induction targets as [|l ls IH]; intros state Hstate.
  { exists state. repeat split; try done. intros _ l entry task Hl. by apply elem_of_nil in Hl. }
  destruct (Hstate l) as [e He]; [by left|].
  assert (∃ state1 : entries,
            updateEntry body l state = Some state1
            ∧ (∀ l', is_Some (state1 !! l') ↔ is_Some (state !! l'))
            ∧ (∀ l', l' ≠ l → state1 !! l' = state !! l')
            ∧ match ResolvedPipelineTask.PipelineTask_ e with
              | None => state1 = state
              | Some task =>
                  ∃ task', body task = Some task'
                           ∧ state1 !! l
                             = Some (ResolvedPipelineTask.setPipelineTask (Some task') e)
              end) as (state1 & Hstep & Hdom1 & Hother1 & Hl1).
  { unfold updateEntry. rewrite He. simpl.
    destruct (ResolvedPipelineTask.PipelineTask_ e) as [task|] eqn:Htask.
    - destruct (Hbody task) as [task' Htask']. rewrite Htask'. simpl.
      eexists. split; [done|]. split; [|split].
      + intros l'. rewrite lookup_insert_is_Some'. split; [|by right].
        intros [<-|?]; [by rewrite He|done].
      + intros l' Hne. by rewrite lookup_insert_ne.
      + exists task'. by rewrite lookup_insert_eq.
    - exists state. by repeat split. }
  destruct (IH state1) as (state' & Hfold & Hdom & Hnil & Hother & Hdone).
  { intros l' Hl'. apply Hdom1, Hstate. by right. }
  exists state'. simpl. rewrite Hstep. split; [done|]. split; [|split; [|split]].
  - intros l'. by rewrite Hdom, Hdom1.
  - intros l' entry Hentry Hnone. apply Hnil; [|done].
    destruct (decide (l' = l)) as [->|Hne].
    + rewrite He in Hentry. injection Hentry as ->. rewrite Hnone in Hl1. by rewrite Hl1.
    + by rewrite Hother1.
  - intros l' Hl'. apply not_elem_of_cons in Hl' as [Hne Hl'].
    by rewrite Hother, Hother1.
  - intros Hnodup l' entry task Hl' Hentry Htask.
    apply NoDup_cons in Hnodup as [Hfresh Hnodup].
    destruct (decide (l' = l)) as [->|Hne].
    + rewrite He in Hentry. injection Hentry as ->. rewrite Htask in Hl1.
      destruct Hl1 as (task' & Hbody' & Hl1). exists task'. split; [done|].
      by rewrite Hother.
    + apply elem_of_cons in Hl' as [?|Hl']; [done|].
      apply (Hdone Hnodup l' entry task); [done| |done]. by rewrite Hother1.
Qed.

End WithForeign.
End EntryFacts.

(** C9.  Let no pointer of the targets be [nil], and let [IsMatrixed]
    report as matrixed only tasks that have a matrix.  Then
    [ApplyTaskResults] and [ApplyPipelineTaskStateContext] return; an entry
    whose [PipelineTask] is [nil] is after the call what it was before; and
    every target with a task holds the substituted copy of its task (for
    targets that are listed once). *)
Theorem nil_tasks_are_passed_over `{SubstitutionExternals}
    (targets : PipelineRunState) (resolvedResultRefs : ResolvedResultRefs)
    (replacements : gmap string string) (state : RunState.entries) :
  (∀ l, l ∈ targets → is_Some (state !! l)) →
  (∀ task, IsMatrixed task = true → is_Some (PipelineTask.Matrix task)) →
  (∃ state' : RunState.entries,
     RunState.ApplyTaskResults targets resolvedResultRefs state = Some state'
     ∧ (∀ l entry, state !! l = Some entry →
                   ResolvedPipelineTask.PipelineTask_ entry = None →
                   state' !! l = Some entry)
     ∧ (NoDup targets →
        ∀ l entry task,
          l ∈ targets → state !! l = Some entry →
          ResolvedPipelineTask.PipelineTask_ entry = Some task →
          ∃ task',
            RunState.applyTaskResults (getStringReplacements resolvedResultRefs)
              (getArrayReplacements resolvedResultRefs)
              (getObjectReplacements resolvedResultRefs) task = Some task'
            ∧ state' !! l
              = Some (ResolvedPipelineTask.setPipelineTask (Some task') entry)))
  ∧ (∃ state' : RunState.entries,
       RunState.ApplyPipelineTaskStateContext targets replacements state = Some state'
       ∧ (∀ l entry, state !! l = Some entry →
                     ResolvedPipelineTask.PipelineTask_ entry = None →
                     state' !! l = Some entry)
       ∧ (NoDup targets →
          ∀ l entry task,
            l ∈ targets → state !! l = Some entry →
            ResolvedPipelineTask.PipelineTask_ entry = Some task →
            state' !! l
            = Some (ResolvedPipelineTask.setPipelineTask
                      (Some (RunState.applyStateContext replacements task)) entry))).
Proof.
  intros Hstate Hmatrix. split.
  - destruct (EntryFacts.updateEntries
                (RunState.applyTaskResults (getStringReplacements resolvedResultRefs)
                   (getArrayReplacements resolvedResultRefs)
                   (getObjectReplacements resolvedResultRefs)) targets)
      with (state := state) as (state' & Hfold & _ & Hnil & _ & Hdone); [|done|].
    { intros task. unfold RunState.applyTaskResults.
      match goal with |- context [IsMatrixed ?t] =>
        destruct (IsMatrixed t) eqn:Hm; [destruct (Hmatrix t Hm) as [m ->]|] end;
        simpl; by eexists. }
    exists state'. by repeat split.
  - destruct (EntryFacts.updateEntries
                (λ task, Some (RunState.applyStateContext replacements task)) targets)
      with (state := state) as (state' & Hfold & _ & Hnil & _ & Hdone); [|done|].
    { intros task. by eexists. }
    exists state'. split; [done|]. split; [done|].
    intros Hnodup l entry task Hl Hentry Htask.
    destruct (Hdone Hnodup l entry task Hl Hentry Htask) as (task' & [= <-] & ?). done.
Qed.

Lemma nil_tasks_are_passed_over_witness :
  let withoutTask := ReferenceResolvers.entry None [] ∅ in
  let withTask name :=
    ReferenceResolvers.entry (Some (ReferenceResolvers.task "deploy" name [] None)) [] ∅ in
  let state : RunState.entries :=
    {[ 1%positive := withoutTask;
       2%positive := withTask "deploy $(tasks.build.results.digest)" ]} in
  let refs : ResolvedResultRefs (Foreign := ReferenceResolvers.foreign) :=
    Parameters.mkReplacements {[ "tasks.build.results.digest" := "abc" ]} ∅ ∅ in
  ∃ state' : RunState.entries,
    RunState.ApplyTaskResults (H0 := ReferenceResolvers.substitutionExternals)
      [1%positive; 2%positive] refs state = Some state'
    ∧ state' !! 1%positive = Some withoutTask
    ∧ state' !! 2%positive = Some (withTask "deploy abc").
Proof.
  intros withoutTask withTask state refs.
  destruct (nil_tasks_are_passed_over (H0 := ReferenceResolvers.substitutionExternals)
              [1%positive; 2%positive] refs ∅ state)
    as [(state' & Hcall & Hnil & Hdone) _].
  - intros l Hl.
    apply elem_of_cons in Hl as [->|Hl]; [by eexists|].
    apply elem_of_cons in Hl as [->|Hl]; [by eexists|].
    by apply elem_of_nil in Hl.
  - intros task. simpl. unfold ReferenceResolvers.isMatrixed.
    by destruct (PipelineTask.Matrix task); [eexists|].
  - exists state'. split; [done|]. split.
    + by apply Hnil.
    + assert (NoDup [1%positive; 2%positive]) as Hnodup.
      { apply NoDup_cons. split; [by intros ?%list_elem_of_singleton|apply NoDup_singleton]. }
      destruct (Hdone Hnodup 2%positive
                  (withTask "deploy $(tasks.build.results.digest)")
                  (ReferenceResolvers.task "deploy" "deploy $(tasks.build.results.digest)" [] None))
        as (task' & Hbody & Hl); [by right; left|done|done|].
      vm_compute in Hbody. injection Hbody as <-. exact Hl.
Defined.

(** *** Matrix lengths and the results cache *)

Module MatrixFacts.
Import RunState.

Section WithExternals.
Context `{SubstitutionExternals} `{!MatrixExternals}.

Lemma resolution_eta (r : resolution) :
  mkResolution (replacements r) (state r) (computed r) = r.
Proof. by destruct r. Qed.

Lemma countCombinations_notInSpec status pipelineTaskName m :
  notInSpec status pipelineTaskName →
  countCombinations status pipelineTaskName m = m.
Proof.
  unfold notInSpec, countCombinations. intros Hmiss.
  destruct (PipelineRunStatus.PipelineSpec_ status) as [spec|]; [|done].
  case_bool_decide; [|done].
  specialize (Hmiss spec). revert Hmiss.
  generalize (PipelineSpec.Tasks spec) as l. intros l Hmiss.
  induction l as [|task l IH] using rev_ind; [done|].
  rewrite foldl_app. simpl. rewrite IH.
  - rewrite bool_decide_eq_false_2; [done|].
    apply Hmiss; [done|]. apply elem_of_app. right. by apply list_elem_of_singleton.
  - intros task' ? Hin. apply Hmiss; [done|]. apply elem_of_app. by left.
Qed.

Lemma lookupResultLength_other pipelineTaskName resultName l r entry task :
  state r !! l = Some entry →
  ResolvedPipelineTask.PipelineTask_ entry = Some task →
  PipelineTask.Name task ≠ pipelineTaskName →
  lookupResultLength pipelineTaskName resultName l r = Some r.
Proof.
  intros He Ht Hne. unfold lookupResultLength. rewrite He. simpl. rewrite Ht. simpl.
  by rewrite bool_decide_eq_false_2.
Qed.

(** The entry of the task named, lines 209-213: the cache is computed when
    it is empty, and the length of the result in the cache, [0] when the
    cache does not have the result, is written under the key. *)
Lemma lookupResultLength_found pipelineTaskName resultName l r entry task :
  state r !! l = Some entry →
  ResolvedPipelineTask.PipelineTask_ entry = Some task →
  PipelineTask.Name task = pipelineTaskName →
  let empty := bool_decide (size (ResolvedPipelineTask.ResultsCache entry) = 0%nat) in
  let cache :=
    if empty then createResultsCacheMatrixedTaskRuns entry
    else ResolvedPipelineTask.ResultsCache entry in
  lookupResultLength pipelineTaskName resultName l r
  = Some (mkResolution
            (<[matrixResultLengthKey pipelineTaskName resultName :=
                 Go.Itoa (Z.of_nat (length (default [] (cache !! resultName))))]>
               (replacements r))
            (if empty then
               <[l := ResolvedPipelineTask.setResultsCache
                        (createResultsCacheMatrixedTaskRuns entry) entry]> (state r)
             else state r)
            (if empty then computed r ++ [l] else computed r)).
Proof.
  intros He Ht Hname empty cache. unfold lookupResultLength. rewrite He. simpl.
  rewrite Ht. simpl. rewrite bool_decide_eq_true_2 by done.
  subst empty cache. case_bool_decide; simpl; [done|].
  by rewrite (insert_id (state r) l entry).
Qed.

Lemma lookupResultLengths_notInState pipelineTaskName resultName targets r :
  (∀ l, l ∈ targets →
        ∃ entry task,
          state r !! l = Some entry
          ∧ ResolvedPipelineTask.PipelineTask_ entry = Some task
          ∧ PipelineTask.Name task ≠ pipelineTaskName) →
  foldM (lookupResultLength pipelineTaskName resultName) targets r = Some r.
Proof.
  induction targets as [|l ls IH]; intros Hmiss; simpl; [done|].
  destruct (Hmiss l) as (entry & task & He & Ht & Hne); [by left|].
  rewrite (lookupResultLength_other _ _ _ _ _ _ He Ht Hne).
  apply IH. intros l' Hl'. apply Hmiss. by right.
Qed.

(** A reference whose task is not found changes nothing. *)
Lemma resolveMatrixContext_notFound status facts p r :
  notFound status facts (state r) p →
  resolveMatrixContext status facts p r = Some r.
Proof.
  unfold notFound, resolveMatrixContext.
  destruct (Param_ParseTaskandResultName p) as [pipelineTaskName resultName]. simpl.
  intros [Hspec Hstate].
  rewrite countCombinations_notInSpec by done. rewrite resolution_eta.
  destruct Hstate as [->|[->|(facts' & -> & Hstate)]].
  - done.
  - rewrite (bool_decide_eq_false_2 ("" ≠ "")) by (by intros ?).
    by rewrite andb_false_r.
  - destruct (_ && _); [|done]. simpl.
    by apply lookupResultLengths_notInState.
Qed.

Lemma resolveMatrixContexts_notFound status facts params r :
  (∀ p, p ∈ params → notFound status facts (state r) p) →
  foldM (resolveMatrixContext status facts) params r = Some r.
Proof.
  induction params as [|p ps IH]; intros Hmiss; simpl; [done|].
  rewrite resolveMatrixContext_notFound by (apply Hmiss; by left).
  apply IH. intros p' Hp'. apply Hmiss. by right.
Qed.

(** **** The cache *)

Lemma timesComputed_app l xs ys :
  timesComputed l (xs ++ ys) = (timesComputed l xs + timesComputed l ys)%nat.
Proof. unfold timesComputed. by rewrite filter_app, length_app. Qed.

Lemma timesComputed_notin l xs : l ∉ xs → timesComputed l xs = 0%nat.
Proof.
  unfold timesComputed. induction xs as [|x xs IH]; intros Hl; [done|].
  apply not_elem_of_cons in Hl as [Hne Hl].
  rewrite filter_cons_False by (by intros ->). by apply IH.
Qed.

Lemma timesComputed_singleton l : timesComputed l [l] = 1%nat.
Proof. unfold timesComputed. by rewrite filter_cons_True. Qed.

Lemma setResultsCache_empty (entry : ResolvedPipelineTask.t) cache :
  size (ResolvedPipelineTask.ResultsCache entry) = 0%nat →
  size cache = 0%nat →
  ResolvedPipelineTask.setResultsCache cache entry = entry.
Proof.
  destruct entry as [task runs cache0]. unfold ResolvedPipelineTask.setResultsCache.
  simpl. intros Hold%map_size_empty_iff Hnew%map_size_empty_iff. by subst.
Qed.

Lemma cacheInvariant_init state0 m : cacheInvariant state0 (mkResolution m state0 []).
Proof.
  intros l. simpl. destruct (state0 !! l); [left|]; split; try done; apply not_elem_of_nil.
Qed.

Lemma cacheInvariant_replacements state0 r m :
  cacheInvariant state0 r →
  cacheInvariant state0 (mkResolution m (state r) (computed r)).
Proof. done. Qed.

Lemma lookupResultLength_invariant state0 pipelineTaskName resultName l r r' :
  cacheInvariant state0 r →
  lookupResultLength pipelineTaskName resultName l r = Some r' →
  cacheInvariant state0 r'.
Proof.
  intros Hinv Hstep.
  destruct (state r !! l) as [entry|] eqn:He;
    [|by unfold lookupResultLength in Hstep; rewrite He in Hstep].
  destruct (ResolvedPipelineTask.PipelineTask_ entry) as [task|] eqn:Ht;
    [|by unfold lookupResultLength in Hstep; rewrite He in Hstep; simpl in Hstep;
         rewrite Ht in Hstep].
  destruct (decide (PipelineTask.Name task = pipelineTaskName)) as [Hname|Hname];
    [|by rewrite (lookupResultLength_other _ _ _ _ _ _ He Ht Hname) in Hstep;
         injection Hstep as <-].
  rewrite (lookupResultLength_found _ _ _ _ _ _ He Ht Hname) in Hstep.
  injection Hstep as <-.
  case_bool_decide as Hsize; [|by apply cacheInvariant_replacements].
  intros l'. simpl. specialize (Hinv l').
  destruct (decide (l' = l)) as [->|Hne].
  - rewrite lookup_insert_eq.
    destruct (state0 !! l) as [entry0|]; [|by destruct Hinv as [Hst _]; rewrite He in Hst].
    right. destruct Hinv as [[Hnot Hst]|(Hsz & Hin & Hst & Hcount)];
      rewrite He in Hst; injection Hst as ->.
    + split; [done|]. split; [apply elem_of_app; right; by apply list_elem_of_singleton|].
      split; [done|]. intros _.
      by rewrite timesComputed_app, timesComputed_notin, timesComputed_singleton.
    + simpl in Hsize.
      split; [done|]. split; [apply elem_of_app; by left|]. split.
      * by rewrite !(setResultsCache_empty entry0 _ Hsz Hsize).
      * intros Hnonempty. done.
  - rewrite lookup_insert_ne by done.
    assert (l' ∈ computed r ++ [l] ↔ l' ∈ computed r) as Hin.
    { rewrite elem_of_app, list_elem_of_singleton.
      split; [intros [?|?]; [done|congruence]|by left]. }
    assert (timesComputed l' (computed r ++ [l]) = timesComputed l' (computed r)) as Hcount.
    { rewrite timesComputed_app.
      rewrite (timesComputed_notin l' [l]); [lia|].
      by intros ?%list_elem_of_singleton. }
    destruct (state0 !! l') as [entry0|].
    + rewrite Hin, Hcount. done.
    + by rewrite Hin.
Qed.

Lemma lookupResultLengths_invariant state0 pipelineTaskName resultName targets r r' :
  cacheInvariant state0 r →
  foldM (lookupResultLength pipelineTaskName resultName) targets r = Some r' →
  cacheInvariant state0 r'.
Proof.
  revert r. induction targets as [|l ls IH]; intros r Hinv; simpl.
  { by intros [= <-]. }
  destruct (lookupResultLength _ _ l r) as [r1|] eqn:Hstep; [|done].
  apply IH. by eapply lookupResultLength_invariant.
Qed.

Lemma resolveMatrixContext_invariant state0 status facts p r r' :
  cacheInvariant state0 r →
  resolveMatrixContext status facts p r = Some r' →
  cacheInvariant state0 r'.
Proof.
  intros Hinv. unfold resolveMatrixContext.
  destruct (Param_ParseTaskandResultName p) as [pipelineTaskName resultName].
  destruct (_ && _).
  - destruct facts as [facts'|]; [|done]. simpl.
    apply lookupResultLengths_invariant. by apply cacheInvariant_replacements.
  - intros [= <-]. by apply cacheInvariant_replacements.
Qed.

Lemma taskContextReplacements_invariant pt status facts state0 r :
  taskContextReplacements pt status facts state0 = Some r →
  cacheInvariant state0 r.
Proof.
  unfold taskContextReplacements.
  generalize (filterMatrixContextVar (PipelineTask.Params pt)) as params.
  intros params.
  assert (∀ r0, cacheInvariant state0 r0 →
                foldM (resolveMatrixContext status facts) params r0 = Some r →
                cacheInvariant state0 r) as Hgen.
  { induction params as [|p ps IH]; intros r0 Hinv; simpl.
    - by intros [= <-].
    - destruct (resolveMatrixContext status facts p r0) as [r1|] eqn:Hstep; [|done].
      apply IH. by eapply resolveMatrixContext_invariant. }
  apply Hgen, cacheInvariant_init.
Qed.

End WithExternals.
End MatrixFacts.

(** C7, as the code has it.  For a filtered parameter that refers to the
    matrix of a task: (1) when no task of the pipeline specification of the
    status has the name, no [tasks.<name>.matrix.length] key is written;
    (2) when moreover no entry of the run state has the name (or the
    reference names no result), the iteration changes nothing: no key, no
    entry, no computation of a cache; (3) when this holds of every filtered
    parameter of the task, the call returns, the run state is as it was and
    the substitution runs with the retry count as its only key; (4) when an
    entry of the run state has the name and its cache, computed if it was
    empty, does not have the result, the key
    [tasks.<name>.matrix.<result>.length] is written with the value [0]. *)
Theorem unresolved_matrix_reference `{SubstitutionExternals} `{!MatrixExternals}
    (pipelineRunStatus : PipelineRunStatus.t) (facts : option PipelineRunFacts.t)
    (p : Param.t) (r : RunState.resolution) :
  (RunState.notInSpec pipelineRunStatus (Param_ParseTaskandResultName p).1 →
   ∀ m, RunState.countCombinations pipelineRunStatus (Param_ParseTaskandResultName p).1 m
        = m)
  ∧ (RunState.notFound pipelineRunStatus facts (RunState.state r) p →
     RunState.resolveMatrixContext pipelineRunStatus facts p r = Some r)
  ∧ (∀ (h : RunState.tasks) (pt : loc) (task : PipelineTask.t) (state : RunState.entries),
       h !! pt = Some task →
       (∀ t, IsMatrixed t = true → is_Some (PipelineTask.Matrix t)) →
       (∀ p', p' ∈ RunState.filterMatrixContextVar (PipelineTask.Params task) →
              RunState.notFound pipelineRunStatus facts state p') →
       ∃ task',
         RunState.ApplyPipelineTaskContexts h pt pipelineRunStatus facts state
         = Some (<[fresh (dom h) := task']> h, fresh (dom h), state, [])
         ∧ PipelineTask.Params task'
           = Params_ReplaceVariables (PipelineTask.Params task)
               {[ "context.pipelineTask.retries" := Go.Itoa (PipelineTask.Retries task) ]}
               (Some ∅) (Some ∅))
  ∧ (∀ l entry task resultName,
       RunState.state r !! l = Some entry →
       ResolvedPipelineTask.PipelineTask_ entry = Some task →
       (if bool_decide (size (ResolvedPipelineTask.ResultsCache entry) = 0%nat)
        then createResultsCacheMatrixedTaskRuns entry
        else ResolvedPipelineTask.ResultsCache entry) !! resultName = None →
       ∃ r',
         RunState.lookupResultLength (PipelineTask.Name task) resultName l r = Some r'
         ∧ RunState.replacements r'
             !! RunState.matrixResultLengthKey (PipelineTask.Name task) resultName
           = Some "0").
Proof.
  split; [|split; [|split]].
  - intros Hmiss m. by apply MatrixFacts.countCombinations_notInSpec.
  - apply MatrixFacts.resolveMatrixContext_notFound.
  - intros h pt task state Hpt Hmatrix Hmiss.
    unfold RunState.ApplyPipelineTaskContexts. rewrite Hpt. simpl.
    unfold RunState.taskContextReplacements.
    rewrite MatrixFacts.resolveMatrixContexts_notFound by done. simpl.
    match goal with |- context [IsMatrixed ?t] =>
      destruct (IsMatrixed t) eqn:Hm;
        [destruct (Hmatrix t Hm) as [m Hmat]; simpl in Hmat; rewrite Hmat|] end;
      simpl; by eexists.
  - intros l entry task resultName He Ht Hcache.
    eexists. split.
    + by apply (MatrixFacts.lookupResultLength_found _ _ _ _ _ _ He Ht).
    + simpl. rewrite lookup_insert_eq. by rewrite Hcache.
Qed.

Lemma unresolved_matrix_reference_witness :
  let reference := Param.mk "n" (Reference.stringValue "$(tasks.producer.matrix.digest.length)") in
  let consumer := ReferenceResolvers.task "consumer" "" [reference] None in
  let status := PipelineRunStatus.mk ReferenceResolvers.foreign None in
  let facts := Some (PipelineRunFacts.mk []) in
  ∃ task',
    RunState.ApplyPipelineTaskContexts (H0 := ReferenceResolvers.substitutionExternals)
      (H1 := ReferenceResolvers.matrixExternals)
      {[ 1%positive := consumer ]} 1%positive status facts ∅
    = Some (<[2%positive := task']> {[ 1%positive := consumer ]}, 2%positive, ∅, [])
    ∧ PipelineTask.Params task' = [reference].
Proof.
  intros reference consumer status facts.
  destruct (unresolved_matrix_reference (H0 := ReferenceResolvers.substitutionExternals)
              (H1 := ReferenceResolvers.matrixExternals)
              status facts reference (RunState.mkResolution ∅ ∅ []))
    as (_ & _ & Hcall & _).
  destruct (Hcall {[ 1%positive := consumer ]} 1%positive consumer ∅)
    as (task' & Happly & Hparams).
  - by vm_compute.
  - intros t. simpl. unfold ReferenceResolvers.isMatrixed.
    by destruct (PipelineTask.Matrix t); [eexists|].
  - intros p' Hp'. vm_compute in Hp'.
    apply list_elem_of_singleton in Hp' as ->.
    split.
    + by intros spec task [=].
    + right. right. exists (PipelineRunFacts.mk []). split; [done|].
      intros l Hl. by apply elem_of_nil in Hl.
  - exists task'. split; [exact Happly|]. rewrite Hparams. reflexivity.
Defined.

(** C7 as stated fails when the producing task is found in the run state
    and the result is not in its cache (here no run of the producer has a
    result).  Line 212 takes the length of a missing map entry, which is
    [0], and line 213 writes it under the key: the field that held
    [$(tasks.producer.matrix.digest.length)] holds [0] after the call.  The
    pipeline specification of the status does not have the task (it is
    [nil]): the lookup of lines 206-217 is in the run state. *)
Lemma absent_result_has_length_zero :
  let reference name :=
    Param.mk "n" (Reference.stringValue name) in
  let consumer name := ReferenceResolvers.task "consumer" "" [reference name] None in
  let producer := ReferenceResolvers.entry (Some (ReferenceResolvers.task "producer" "" [] None)) [] ∅ in
  let status := PipelineRunStatus.mk ReferenceResolvers.foreign None in
  let facts := Some (PipelineRunFacts.mk [1%positive]) in
  RunState.ApplyPipelineTaskContexts (H0 := ReferenceResolvers.substitutionExternals)
    (H1 := ReferenceResolvers.matrixExternals)
    {[ 1%positive := consumer "$(tasks.producer.matrix.digest.length)" ]} 1%positive
    status facts {[ 1%positive := producer ]}
  = Some ({[ 1%positive := consumer "$(tasks.producer.matrix.digest.length)";
             2%positive := consumer "0" ]},
          2%positive, {[ 1%positive := producer ]}, [1%positive]).
Proof. reflexivity. Qed.

(** C8, as the code has it.  The test of line 209 is on the length of the
    cache.  Through a call, for the entry at each location of the run state:
    (1) a cache that was not empty at the start is never computed and the
    entry stays as it was; (2) a cache that is computed and found not empty
    is computed once, every later lookup reads it; (3) an entry whose cache
    was computed holds the computed cache, any other entry is as it was. *)
Theorem results_cache_is_computed_when_empty `{SubstitutionExternals} `{!MatrixExternals}
    (h h' : RunState.tasks) (pt copy : loc) (pipelineRunStatus : PipelineRunStatus.t)
    (facts : option PipelineRunFacts.t) (state0 state' : RunState.entries)
    (computed : list loc) :
  RunState.ApplyPipelineTaskContexts h pt pipelineRunStatus facts state0
  = Some (h', copy, state', computed) →
  ∀ l entry0,
    state0 !! l = Some entry0 →
    (size (ResolvedPipelineTask.ResultsCache entry0) ≠ 0%nat →
     (l ∉ computed) ∧ state' !! l = Some entry0)
    ∧ (size (createResultsCacheMatrixedTaskRuns entry0) ≠ 0%nat →
       (RunState.timesComputed l computed ≤ 1)%nat)
    ∧ (l ∈ computed →
       state' !! l
       = Some (ResolvedPipelineTask.setResultsCache
                 (createResultsCacheMatrixedTaskRuns entry0) entry0))
    ∧ (l ∉ computed → state' !! l = Some entry0).
Proof.
  unfold RunState.ApplyPipelineTaskContexts.
  destruct (h !! pt) as [task|]; [|done]. simpl.
  destruct (RunState.taskContextReplacements task pipelineRunStatus facts state0)
    as [r|] eqn:Hr; [|done]. simpl.
  match goal with |- context [mbind _ ?x] => destruct x as [task'|] end; [|done].
  simpl. intros [= _ _ <- <-] l entry0 Hentry0.
  pose proof (MatrixFacts.taskContextReplacements_invariant _ _ _ _ _ Hr l) as Hinv.
  rewrite Hentry0 in Hinv.
  destruct Hinv as [[Hnot Hst]|(Hsz & Hin & Hst & Hcount)].
  - repeat split; try done.
    + intros _. rewrite MatrixFacts.timesComputed_notin by done. lia.
  - repeat split; try done.
    + intros Hnonempty. rewrite Hcount by done. lia.
Qed.

Lemma results_cache_is_computed_when_empty_witness :
  let reference := Param.mk "n" (Reference.stringValue "$(tasks.producer.matrix.digest.length)") in
  let consumer := ReferenceResolvers.task "consumer" "" [reference; reference] None in
  let producer :=
    ReferenceResolvers.entry (Some (ReferenceResolvers.task "producer" "" [] None))
      [[("digest", "a")]; [("digest", "b")]] ∅ in
  let status := PipelineRunStatus.mk ReferenceResolvers.foreign None in
  let facts := Some (PipelineRunFacts.mk [1%positive]) in
  let cached :=
    ResolvedPipelineTask.setResultsCache {[ "digest" := ["a"; "b"] ]} producer in
  (RunState.timesComputed 1%positive [1%positive] ≤ 1)%nat
  ∧ ({[ 1%positive := cached ]} : RunState.entries) !! 1%positive
    = Some (ResolvedPipelineTask.setResultsCache
              (ReferenceResolvers.resultsCache producer) producer).
Proof.
  intros reference consumer producer status facts cached.
  set (after := ReferenceResolvers.task "consumer" ""
                  [Param.mk "n" (Reference.stringValue "2");
                   Param.mk "n" (Reference.stringValue "2")] None).
  assert (RunState.ApplyPipelineTaskContexts
            (H0 := ReferenceResolvers.substitutionExternals)
            (H1 := ReferenceResolvers.matrixExternals)
            {[ 1%positive := consumer ]} 1%positive status facts
            {[ 1%positive := producer ]}
          = Some ({[ 1%positive := consumer; 2%positive := after ]}, 2%positive,
                  {[ 1%positive := cached ]}, [1%positive])) as Hcall
    by (vm_compute; reflexivity).
  destruct (results_cache_is_computed_when_empty
              (H0 := ReferenceResolvers.substitutionExternals)
              (H1 := ReferenceResolvers.matrixExternals)
              _ _ _ _ _ _ _ _ _ Hcall 1%positive producer)
    as (_ & Honce & Hcached & _); [by vm_compute|].
  split.
  - apply Honce. by vm_compute.
  - apply Hcached. by left.
Defined.

(** C8 as stated fails when the computed cache is empty.  No run of the
    producer has a result: the cache that line 210 stores has length [0],
    the test of line 209 succeeds again at the second lookup of the same
    call, and the cache of the one entry is computed twice. *)
Lemma empty_cache_is_computed_again :
  let reference := Param.mk "n" (Reference.stringValue "$(tasks.producer.matrix.digest.length)") in
  let consumer := ReferenceResolvers.task "consumer" "" [reference; reference] None in
  let producer :=
    ReferenceResolvers.entry (Some (ReferenceResolvers.task "producer" "" [] None)) [] ∅ in
  let status := PipelineRunStatus.mk ReferenceResolvers.foreign None in
  let facts := Some (PipelineRunFacts.mk [1%positive]) in
  ∃ h' state',
    RunState.ApplyPipelineTaskContexts (H0 := ReferenceResolvers.substitutionExternals)
      (H1 := ReferenceResolvers.matrixExternals)
      {[ 1%positive := consumer ]} 1%positive status facts {[ 1%positive := producer ]}
    = Some (h', 2%positive, state', [1%positive; 1%positive])
    ∧ RunState.timesComputed 1%positive [1%positive; 1%positive] = 2%nat.
Proof. intros reference consumer producer status facts. by eexists _, _. Qed.

(* ================================================================= *)
(** * Further properties of the code *)

(** ** Looking up the result of a task *)

Module LookupFacts.

Lemma find_first {A} (P : A → bool) (l : list A) :
  match List.find P l with
  | Some x => ∃ i, l !! i = Some x ∧ P x = true
                   ∧ ∀ j y, (j < i)%nat → l !! j = Some y → P y = false
  | None => ∀ x, x ∈ l → P x = false
  end.
Proof.
  induction l as [|a l IH]; simpl.
  - intros x Hx. by apply elem_of_nil in Hx.
  - destruct (P a) eqn:Ha.
    + exists 0%nat. split; [done|]. split; [done|]. intros; lia.
    + destruct (find P l) as [x|].
      * destruct IH as (i & Hi & Hx & Hbefore). exists (S i).
        split; [done|]. split; [done|].
        intros [|j] y Hj Hy; simpl in Hy; [by simplify_eq|].
        apply (Hbefore j); [lia|done].
      * intros x [->|Hx]%elem_of_cons; [done|by apply IH].
Qed.

End LookupFacts.

(** X1.  [taskResultValue] and [runResultValue] return the value of the
    first result of the name in the list of the task, so that of two
    results of one name the second is never read; they return [nil] exactly
    when the task has no list or its list has no result of the name. *)
Theorem result_lookup_returns_the_first_match (taskName resultName : string)
    (taskResults : gmap string (list TaskRunResult.t))
    (runResults : gmap string (list CustomRunResult.t)) :
  match Aggregator.taskResultValue taskName resultName taskResults with
  | Some value =>
      ∃ results i r,
        taskResults !! taskName = Some results
        ∧ results !! i = Some r
        ∧ TaskRunResult.Name r = resultName
        ∧ TaskRunResult.Value r = value
        ∧ ∀ j r', (j < i)%nat → results !! j = Some r' →
                  TaskRunResult.Name r' ≠ resultName
  | None =>
      ∀ results r, taskResults !! taskName = Some results → r ∈ results →
                   TaskRunResult.Name r ≠ resultName
  end
  ∧ match Aggregator.runResultValue taskName resultName runResults with
    | Some value =>
        ∃ results i r,
          runResults !! taskName = Some results
          ∧ results !! i = Some r
          ∧ CustomRunResult.Name r = resultName
          ∧ CustomRunResult.Value r = value
          ∧ ∀ j r', (j < i)%nat → results !! j = Some r' →
                    CustomRunResult.Name r' ≠ resultName
    | None =>
        ∀ results r, runResults !! taskName = Some results → r ∈ results →
                     CustomRunResult.Name r ≠ resultName
    end.
Proof.
  unfold Aggregator.taskResultValue, Aggregator.runResultValue. split.
  - pose proof (LookupFacts.find_first
                  (λ r, bool_decide (TaskRunResult.Name r = resultName))
                  (default [] (taskResults !! taskName))) as Hfind.
    destruct (find _ _) as [r|]; simpl.
    + destruct Hfind as (i & Hi & Hr & Hbefore).
      destruct (taskResults !! taskName) as [results|]; simpl in *; [|done].
      exists results, i, r. apply bool_decide_eq_true in Hr.
      repeat (split; [done|]). intros j r' Hj Hr'.
      specialize (Hbefore j r' Hj Hr'). by apply bool_decide_eq_false in Hbefore.
    + intros results r Hresults Hr. rewrite Hresults in Hfind. simpl in Hfind.
      specialize (Hfind r Hr). by apply bool_decide_eq_false in Hfind.
  - pose proof (LookupFacts.find_first
                  (λ r, bool_decide (CustomRunResult.Name r = resultName))
                  (default [] (runResults !! taskName))) as Hfind.
    destruct (find _ _) as [r|]; simpl.
    + destruct Hfind as (i & Hi & Hr & Hbefore).
      destruct (runResults !! taskName) as [results|]; simpl in *; [|done].
      exists results, i, r. apply bool_decide_eq_true in Hr.
      repeat (split; [done|]). intros j r' Hj Hr'.
      specialize (Hbefore j r' Hj Hr'). by apply bool_decide_eq_false in Hbefore.
    + intros results r Hresults Hr. rewrite Hresults in Hfind. simpl in Hfind.
      specialize (Hfind r Hr). by apply bool_decide_eq_false in Hfind.
Qed.

(** ** The shape of what the aggregator returns *)

Module ShapeFacts.
Import Aggregator AggregatorFacts.

Section WithExternals.
Context `{ResultExternals}.
Variable taskRunResults : gmap string (list TaskRunResult.t).
Variable customTaskResults : gmap string (list CustomRunResult.t).
Variable taskstatus : gmap string string.

Local Abbreviation resolveVariable :=
  (resolveVariable taskRunResults customTaskResults taskstatus).
Local Abbreviation resolvePipelineResult :=
  (resolvePipelineResult taskRunResults customTaskResults taskstatus).
Local Abbreviation ApplyTaskResultsToPipelineResults :=
  (ApplyTaskResultsToPipelineResults taskRunResults customTaskResults taskstatus).
Local Abbreviation resolve :=
  (resolve taskRunResults customTaskResults taskstatus).

(** A declared result without a variable is passed over. *)
Lemma resolvePipelineResult_constant pipelineResult s :
  GetVarSubstitutionExpressions pipelineResult = [] →
  resolvePipelineResult pipelineResult s = Some s.
Proof. intros Hvars. unfold Aggregator.resolvePipelineResult. by rewrite Hvars. Qed.

(** An iteration of the outer loop for a declared result of one variable
    that is not memoized commits the decision for that variable. *)
Lemma iteration_on_single_reference pipelineResult variable s :
  GetVarSubstitutionExpressions pipelineResult = [variable] →
  isMemoized variable s = false →
  resolvePipelineResult pipelineResult s =
    commit (PipelineResult.Name pipelineResult) variable (resolve variable) (true, s) ≫=
      λ '(validPipelineResult, s'),
        if validPipelineResult : bool then
          Some (appendRunResult
                  (PipelineRunResult.mk (PipelineResult.Name pipelineResult)
                     (ParamValue_ApplyReplacements (PipelineResult.Value pipelineResult)
                        (stringReplacements s') (arrayReplacements s')
                        (objectReplacements s'))) s')
        else Some s'.
Proof.
  intros Hvars Hmemo. rewrite (resolvePipelineResult_single _ _ _ _ variable) by done.
  rewrite resolveVariable_factor. simpl. by rewrite Hmemo.
Qed.

(** The call on one declared result. *)
Lemma call_on_one pipelineResult :
  ApplyTaskResultsToPipelineResults [pipelineResult] =
    resolvePipelineResult pipelineResult init ≫=
      λ s, Some (runResults s,
                 if bool_decide (0 < length (invalidPipelineResults s))%nat
                 then Some (errorMessage (invalidPipelineResults s)) else None).
Proof.
  unfold Aggregator.ApplyTaskResultsToPipelineResults. simpl.
  destruct (resolvePipelineResult pipelineResult init) as [s|]; [|done]. simpl.
  by case_bool_decide.
Qed.

(** The inner loop leaves the results as they are and appends the name of
    the declared result to the invalid names, as often as it finds a
    variable invalid; it appends nothing when the result stays valid. *)
Lemma resolveVariables_names name variables valid s valid' s' :
  foldM (resolveVariable name) variables (valid, s) = Some (valid', s') →
  runResults s' = runResults s
  ∧ ∃ k, invalidPipelineResults s' = invalidPipelineResults s ++ replicate k name
         ∧ (valid' = true → k = 0%nat).
Proof.
  revert valid s. induction variables as [|v vs IH]; intros valid s; simpl.
  { intros [= <- <-]. split; [done|]. exists 0%nat. by rewrite app_nil_r. }
  destruct (resolveVariable name v (valid, s)) as [[valid1 s1]|] eqn:Hstep; [|done].
  intros Hrest.
  pose proof Hrest as Hvalid. apply resolveVariables_extends in Hvalid as (_ & _ & Hvalid).
  destruct (IH _ _ Hrest) as (Hresults & k & Hinvalid & Hk).
  rewrite resolveVariable_factor in Hstep. simpl in Hstep.
  destruct (isMemoized v s).
  { simplify_eq. split; [done|]. by exists k. }
  destruct (resolve v); simpl in Hstep; simplify_eq; simpl in *;
    try (split; [done|]; by exists k).
  - split; [done|]. exists (S k). split.
    + rewrite Hinvalid. by rewrite <- app_assoc.
    + intros Hv. by specialize (Hvalid Hv).
Qed.

(** An iteration of the outer loop either appends one result of the name
    of the declared result, or appends that name to the invalid names, any
    number of times, and no result. *)
Lemma resolvePipelineResult_names pipelineResult s s' :
  resolvePipelineResult pipelineResult s = Some s' →
  (∃ value,
     runResults s'
     = runResults s ++ [PipelineRunResult.mk (PipelineResult.Name pipelineResult) value]
     ∧ invalidPipelineResults s' = invalidPipelineResults s)
  ∨ (runResults s' = runResults s
     ∧ ∃ k, invalidPipelineResults s'
            = invalidPipelineResults s ++ replicate k (PipelineResult.Name pipelineResult)).
Proof.
  unfold Aggregator.resolvePipelineResult. case_bool_decide.
  { intros [= <-]. right. split; [done|]. exists 0%nat. by rewrite app_nil_r. }
  destruct (foldM _ _ _) as [[valid s1]|] eqn:Hinner; [|done]. simpl.
  apply resolveVariables_names in Hinner as (Hresults & k & Hinvalid & Hk).
  destruct valid; intros [= <-]; simpl.
  - left. eexists. rewrite Hresults. split; [done|].
    rewrite Hinvalid, (Hk eq_refl). by rewrite app_nil_r.
  - right. split; [done|]. by exists k.
Qed.

Lemma resolvePipelineResults_names results s s' :
  foldM resolvePipelineResult results s = Some s' →
  ∃ returned invalid,
    runResults s' = runResults s ++ returned
    ∧ invalidPipelineResults s' = invalidPipelineResults s ++ invalid
    ∧ (PipelineRunResult.Name <$> returned) `sublist_of` (PipelineResult.Name <$> results)
    ∧ (∀ n, n ∈ invalid → n ∈ PipelineResult.Name <$> results)
    ∧ (NoDup (PipelineResult.Name <$> results) →
       ∀ n, n ∈ PipelineRunResult.Name <$> returned → n ∉ invalid).
Proof.
  revert s. induction results as [|r rs IH]; intros s; simpl.
  { intros [= <-]. exists [], []. rewrite !app_nil_r.
    split; [done|]. split; [done|]. split; [done|]. split.
    - intros n Hn. by apply elem_of_nil in Hn.
    - intros _ n Hn. by apply elem_of_nil in Hn. }
  destruct (resolvePipelineResult r s) as [s1|] eqn:Hstep; [|done]. intros Hrest.
  destruct (IH _ Hrest) as (returned & invalid & Hret & Hinv & Hsub & Hin & Hdisj).
  assert (∀ n, n ∈ PipelineRunResult.Name <$> returned →
               n ∈ PipelineResult.Name <$> rs) as Hretin.
  { intros n Hn. by eapply elem_of_sublist. }
  apply resolvePipelineResult_names in Hstep
    as [(value & Hret1 & Hinv1)|(Hret1 & k & Hinv1)].
  - exists (PipelineRunResult.mk (PipelineResult.Name r) value :: returned), invalid.
    rewrite Hret, Hret1, Hinv, Hinv1, <- app_assoc. simpl.
    split; [done|]. split; [done|]. split; [by apply sublist_skip|].
    split; [intros n Hn; right; by apply Hin|].
    intros [Hr Hnodup]%NoDup_cons n [->|Hn]%elem_of_cons.
    + intros Hn. by apply Hin in Hn.
    + by apply Hdisj.
  - exists returned, (replicate k (PipelineResult.Name r) ++ invalid).
    rewrite Hret, Hret1, Hinv, Hinv1, <- app_assoc.
    split; [done|]. split; [done|]. split; [by apply sublist_cons|].
    split.
    + intros n [Hn|Hn]%elem_of_app.
      * apply elem_of_replicate in Hn as [-> _]. by left.
      * right. by apply Hin.
    + intros [Hr Hnodup]%NoDup_cons n Hn [Hn'|Hn']%elem_of_app.
      * apply elem_of_replicate in Hn' as [-> _]. by apply Hretin in Hn.
      * by apply (Hdisj Hnodup n).
Qed.

End WithExternals.
End ShapeFacts.

(** X2.  A declared result whose value holds no variable is passed over
    (lines 485-488): it is not among the results returned and it is not
    reported, wherever it stands among the declared results. *)
Theorem result_without_reference_is_left_out `{ResultExternals}
    (taskRunResults : gmap string (list TaskRunResult.t))
    (customTaskResults : gmap string (list CustomRunResult.t))
    (taskstatus : gmap string string)
    (before after : list PipelineResult.t) (pipelineResult : PipelineResult.t) :
  GetVarSubstitutionExpressions pipelineResult = [] →
  Aggregator.ApplyTaskResultsToPipelineResults taskRunResults customTaskResults taskstatus
    (before ++ pipelineResult :: after)
  = Aggregator.ApplyTaskResultsToPipelineResults taskRunResults customTaskResults taskstatus
      (before ++ after).
Proof.
  intros Hvars. unfold Aggregator.ApplyTaskResultsToPipelineResults.
  rewrite !foldM_app. destruct (foldM _ before _) as [s|]; [|done]. simpl.
  by rewrite ShapeFacts.resolvePipelineResult_constant.
Qed.

Lemma result_without_reference_is_left_out_witness :
  let tasks : gmap string (list TaskRunResult.t) :=
    {[ "build" := [TaskRunResult.mk "digest" ParamTypeString
                     (Reference.stringValue "sha256:abc")] ]} in
  let digest :=
    PipelineResult.mk "image-digest" (Reference.stringValue "$(tasks.build.results.digest)") in
  let version := PipelineResult.mk "version" (Reference.stringValue "v1.0") in
  Aggregator.ApplyTaskResultsToPipelineResults (H := Reference.resultExternals)
    tasks ∅ ∅ [digest; version]
  = Aggregator.ApplyTaskResultsToPipelineResults (H := Reference.resultExternals)
      tasks ∅ ∅ [digest].
Proof.
  intros tasks digest version.
  apply (result_without_reference_is_left_out (H := Reference.resultExternals)
           tasks ∅ ∅ [digest] [] version).
  reflexivity.
Defined.

(** X3.  When the call returns, the results returned are in the order of
    the declared results and no declared result gives more than one of
    them; every name in the error is the name of a declared result; and,
    the declared names being distinct, no name is both returned and named
    in the error. *)
Theorem returned_names_follow_the_declaration `{ResultExternals}
    (taskRunResults : gmap string (list TaskRunResult.t))
    (customTaskResults : gmap string (list CustomRunResult.t))
    (taskstatus : gmap string string)
    (results : list PipelineResult.t) (out : list PipelineRunResult.t)
    (err : option string) :
  Aggregator.ApplyTaskResultsToPipelineResults taskRunResults customTaskResults taskstatus
    results = Some (out, err) →
  (PipelineRunResult.Name <$> out) `sublist_of` (PipelineResult.Name <$> results)
  ∧ ∃ invalid,
      err = (if bool_decide (invalid = []) then None
             else Some (Aggregator.errorMessage invalid))
      ∧ (∀ n, n ∈ invalid → n ∈ PipelineResult.Name <$> results)
      ∧ (NoDup (PipelineResult.Name <$> results) →
         ∀ n, n ∈ PipelineRunResult.Name <$> out → n ∉ invalid).
Proof.
  unfold Aggregator.ApplyTaskResultsToPipelineResults.
  destruct (foldM _ results _) as [s|] eqn:Hfold; [|done]. simpl.
  apply ShapeFacts.resolvePipelineResults_names in Hfold
    as (returned & invalid & Hret & Hinv & Hsub & Hin & Hdisj).
  cbn [Aggregator.init Aggregator.runResults Aggregator.invalidPipelineResults app]
    in Hret, Hinv.
  rewrite Hret, Hinv. intros Hout.
  assert (out = returned
          ∧ err = (if bool_decide (invalid = []) then None
                   else Some (Aggregator.errorMessage invalid))) as [-> ->].
  { revert Hout. destruct invalid; simpl; repeat case_bool_decide; simpl in *;
      try lia; try done; by intros [= <- <-]. }
  split; [done|]. exists invalid. split; [done|]. split; [done|].
  intros Hnodup n Hn. by apply (Hdisj Hnodup).
Qed.

Lemma returned_names_follow_the_declaration_witness :
  let tasks : gmap string (list TaskRunResult.t) :=
    {[ "build" := [TaskRunResult.mk "digest" ParamTypeString
                     (Reference.stringValue "sha256:abc")] ]} in
  let results :=
    [PipelineResult.mk "image-digest" (Reference.stringValue "$(tasks.build.results.digest)");
     PipelineResult.mk "absent" (Reference.stringValue "$(tasks.build.results.nope)")] in
  let out := [PipelineRunResult.mk "image-digest" (Reference.stringValue "sha256:abc")] in
  let err := Some "invalid pipelineresults [absent], the referenced results don't exist" in
  (PipelineRunResult.Name <$> out) `sublist_of` (PipelineResult.Name <$> results)
  ∧ ∃ invalid,
      err = (if bool_decide (invalid = []) then None
             else Some (Aggregator.errorMessage invalid))
      ∧ (∀ n, n ∈ invalid → n ∈ PipelineResult.Name <$> results)
      ∧ (NoDup (PipelineResult.Name <$> results) →
         ∀ n, n ∈ PipelineRunResult.Name <$> out → n ∉ invalid).
Proof.
  intros tasks results out err.
  apply (returned_names_follow_the_declaration (H := Reference.resultExternals)
           tasks ∅ ∅ results out err).
  reflexivity.
Defined.

(** ** References of each shape *)

Module ReferenceFacts.
Import Aggregator AggregatorFacts.

Section WithExternals.
Context `{ResultExternals}.
Variable taskRunResults : gmap string (list TaskRunResult.t).
Variable customTaskResults : gmap string (list CustomRunResult.t).
Variable taskstatus : gmap string string.

Local Abbreviation resolvePipelineResult :=
  (resolvePipelineResult taskRunResults customTaskResults taskstatus).
Local Abbreviation ApplyTaskResultsToPipelineResults :=
  (ApplyTaskResultsToPipelineResults taskRunResults customTaskResults taskstatus).
Local Abbreviation resolve :=
  (resolve taskRunResults customTaskResults taskstatus).

(** A declared result whose one variable is decided invalid. *)
Lemma invalid_reference pipelineResult variable :
  GetVarSubstitutionExpressions pipelineResult = [variable] →
  resolve variable = Invalid →
  (∀ s, isMemoized variable s = false →
        resolvePipelineResult pipelineResult s
        = Some (appendInvalid (PipelineResult.Name pipelineResult) s))
  ∧ ApplyTaskResultsToPipelineResults [pipelineResult]
    = Some ([], Some (errorMessage [PipelineResult.Name pipelineResult])).
Proof.
  intros Hvars Hresolve.
  assert (∀ s, isMemoized variable s = false →
               resolvePipelineResult pipelineResult s
               = Some (appendInvalid (PipelineResult.Name pipelineResult) s)) as Hstep.
  { intros s Hmemo.
    rewrite (ShapeFacts.iteration_on_single_reference _ _ _ _ variable) by done.
    by rewrite Hresolve. }
  split; [done|].
  rewrite ShapeFacts.call_on_one, Hstep by apply isMemoized_init. done.
Qed.

(** A declared result whose one variable resolves to a string. *)
Lemma string_reference pipelineResult variable x :
  GetVarSubstitutionExpressions pipelineResult = [variable] →
  resolve variable = StringOf x →
  (∀ s, isMemoized variable s = false →
        resolvePipelineResult pipelineResult s
        = Some (appendRunResult
                  (PipelineRunResult.mk (PipelineResult.Name pipelineResult)
                     (ParamValue_ApplyReplacements (PipelineResult.Value pipelineResult)
                        (<[variable := x]> (stringReplacements s))
                        (arrayReplacements s) (objectReplacements s)))
                  (setString variable x s)))
  ∧ ApplyTaskResultsToPipelineResults [pipelineResult]
    = Some ([PipelineRunResult.mk (PipelineResult.Name pipelineResult)
               (ParamValue_ApplyReplacements (PipelineResult.Value pipelineResult)
                  {[ variable := x ]} ∅ ∅)],
            None).
Proof.
  intros Hvars Hresolve.
  assert (∀ s, isMemoized variable s = false →
               resolvePipelineResult pipelineResult s
               = Some (appendRunResult
                         (PipelineRunResult.mk (PipelineResult.Name pipelineResult)
                            (ParamValue_ApplyReplacements (PipelineResult.Value pipelineResult)
                               (<[variable := x]> (stringReplacements s))
                               (arrayReplacements s) (objectReplacements s)))
                         (setString variable x s))) as Hstep.
  { intros s Hmemo.
    rewrite (ShapeFacts.iteration_on_single_reference _ _ _ _ variable) by done.
    by rewrite Hresolve. }
  split; [done|].
  rewrite ShapeFacts.call_on_one, Hstep by apply isMemoized_init. simpl.
  by rewrite insert_empty.
Qed.

(** The first test of line 502: a first segment that is neither [tasks]
    nor [finally] decides, whatever follows. *)
Lemma resolve_foreign_head variable p0 rest :
  Go.Split_dot variable = p0 :: rest →
  p0 ≠ ResultTaskPart → p0 ≠ ResultFinallyPart →
  resolve variable = Invalid.
Proof.
  intros Hsplit Htasks Hfinally. unfold Aggregator.resolve. rewrite Hsplit.
  by rewrite bool_decide_eq_true_2.
Qed.

(** The second test of line 502 and the [default] of the [switch]. *)
Lemma resolve_malformed variable p0 taskName p2 rest :
  Go.Split_dot variable = p0 :: taskName :: p2 :: rest →
  p2 ≠ ResultResultPart ∨ (length rest ≠ 1%nat ∧ length rest ≠ 2%nat) →
  resolve variable = Invalid.
Proof.
  intros Hsplit Hshape. unfold Aggregator.resolve. rewrite Hsplit.
  case_bool_decide; [done|]. case_bool_decide; [done|].
  destruct Hshape as [?|[Hone Htwo]]; [done|].
  by destruct rest as [|? [|? [|? ?]]].
Qed.

(** Lines 534-535. *)
Lemma resolve_custom variable p0 taskName p3 value :
  Go.Split_dot variable = [p0; taskName; ResultResultPart; p3] →
  p0 = ResultTaskPart ∨ p0 = ResultFinallyPart →
  taskResultValue taskName (ParseResultName p3).1 taskRunResults = None →
  runResultValue taskName (ParseResultName p3).1 customTaskResults = Some value →
  resolve variable = StringOf value.
Proof.
  intros Hsplit Hp0 Htask Hrun. unfold Aggregator.resolve. rewrite Hsplit.
  rewrite bool_decide_eq_false_2 by (intros [? ?]; destruct Hp0; done).
  rewrite bool_decide_eq_false_2 by (intros ?; done).
  by rewrite Htask, Hrun.
Qed.

(** Lines 549-571. *)
Lemma resolve_attribute variable p0 taskName p3 objectKey :
  Go.Split_dot variable = [p0; taskName; ResultResultPart; p3; objectKey] →
  p0 = ResultTaskPart ∨ p0 = ResultFinallyPart →
  resolve variable =
    match taskResultValue taskName (ParseResultName p3).1 taskRunResults with
    | Some resultValue =>
        from_option StringOf Invalid (ParamValue.ObjectVal resultValue !! objectKey)
    | None => missing taskstatus taskName
    end.
Proof.
  intros Hsplit Hp0. unfold Aggregator.resolve. rewrite Hsplit.
  rewrite bool_decide_eq_false_2 by (intros [? ?]; destruct Hp0; done).
  by rewrite bool_decide_eq_false_2 by (intros ?; done).
Qed.

(** Lines 519-527 for an index text that [strconv.Atoi] reads as [0]. *)
Lemma resolve_index_zero variable p0 taskName p3 resultValue :
  Go.Split_dot variable = [p0; taskName; ResultResultPart; p3] →
  p0 = ResultTaskPart ∨ p0 = ResultFinallyPart →
  taskResultValue taskName (ParseResultName p3).1 taskRunResults = Some resultValue →
  ParamValue.Type_ resultValue = ParamTypeArray →
  (ParseResultName p3).2 ≠ "*" →
  Go.Atoi (ParseResultName p3).2 = 0 →
  resolve variable = from_option StringOf Invalid (head (ParamValue.ArrayVal resultValue)).
Proof.
  intros Hsplit Hp0 Htask Htype Hstar Hzero. unfold Aggregator.resolve. rewrite Hsplit.
  rewrite bool_decide_eq_false_2 by (intros [? ?]; destruct Hp0; done).
  rewrite bool_decide_eq_false_2 by (intros ?; done).
  rewrite Htask, Htype, bool_decide_eq_true_2 by done. simpl. rewrite Hzero.
  rewrite (bool_decide_eq_false_2 (0 < 0)) by lia.
  destruct (ParamValue.ArrayVal resultValue) as [|x xs].
  - by rewrite bool_decide_eq_false_2 by (simpl; lia).
  - by rewrite bool_decide_eq_true_2 by (simpl length; lia).
Qed.

End WithExternals.
End ReferenceFacts.

(** X4.  A reference that is not a result reference is reported and does
    not stop the call: a declared result whose one variable has a first
    segment other than [tasks] and [finally] (whatever its length), or has
    three or more segments of which the third is not [results], or has
    three segments or more than five, is appended to the invalid names;
    the call on it returns no result and the error naming it. *)
Theorem malformed_reference_is_reported `{ResultExternals}
    (taskRunResults : gmap string (list TaskRunResult.t))
    (customTaskResults : gmap string (list CustomRunResult.t))
    (taskstatus : gmap string string)
    (pipelineResult : PipelineResult.t) (variable p0 : string) (rest : list string) :
  GetVarSubstitutionExpressions pipelineResult = [variable] →
  Go.Split_dot variable = p0 :: rest →
  (p0 ≠ ResultTaskPart ∧ p0 ≠ ResultFinallyPart)
  ∨ (∃ taskName p2 rest',
       rest = taskName :: p2 :: rest'
       ∧ (p2 ≠ ResultResultPart ∨ (length rest' ≠ 1%nat ∧ length rest' ≠ 2%nat))) →
  (∀ s, Aggregator.isMemoized variable s = false →
        Aggregator.resolvePipelineResult taskRunResults customTaskResults taskstatus
          pipelineResult s
        = Some (Aggregator.appendInvalid (PipelineResult.Name pipelineResult) s))
  ∧ Aggregator.ApplyTaskResultsToPipelineResults taskRunResults customTaskResults taskstatus
      [pipelineResult]
    = Some ([], Some (Aggregator.errorMessage [PipelineResult.Name pipelineResult])).
Proof.
  intros Hvars Hsplit Hshape. apply (ReferenceFacts.invalid_reference _ _ _ _ variable).
  - done.
  - destruct Hshape as [[Htasks Hfinally]|(taskName & p2 & rest' & -> & Hshape)].
    + by eapply ReferenceFacts.resolve_foreign_head.
    + by eapply ReferenceFacts.resolve_malformed.
Qed.

Lemma malformed_reference_is_reported_witness :
  Aggregator.ApplyTaskResultsToPipelineResults (H := Reference.resultExternals) ∅ ∅ ∅
    [PipelineResult.mk "version" (Reference.stringValue "$(params.version)")]
  = Some ([], Some "invalid pipelineresults [version], the referenced results don't exist").
Proof.
  refine (proj2 (malformed_reference_is_reported (H := Reference.resultExternals) ∅ ∅ ∅
                   (PipelineResult.mk "version" (Reference.stringValue "$(params.version)"))
                   "params.version" "params" ["version"] eq_refl eq_refl _)).
  left. by split.
Defined.

(** ** Where the results of custom runs are read *)

Module CustomRunFacts.
Import Aggregator AggregatorFacts.

Lemma foldM_ext {A B : Type} (f g : B → A → option A) (l : list B) (a : A) :
  (∀ b a, b ∈ l → f b a = g b a) → foldM f l a = foldM g l a.
Proof.
  revert a. induction l as [|b l IH]; intros a Hfg; simpl; [done|].
  rewrite <- (Hfg b a) by (by left).
  destruct (f b a) as [a'|]; [|done]. apply IH. intros b' a'' Hb'. apply Hfg. by right.
Qed.

Section WithExternals.
Context `{ResultExternals}.
Variable taskRunResults : gmap string (list TaskRunResult.t).
Variable customTaskResults customTaskResults' : gmap string (list CustomRunResult.t).
Variable taskstatus : gmap string string.

Lemma resolve_agree variable :
  agreeOn taskRunResults customTaskResults customTaskResults' variable →
  resolve taskRunResults customTaskResults taskstatus variable
  = resolve taskRunResults customTaskResults' taskstatus variable.
Proof.
  intros Hagree. unfold agreeOn in Hagree. unfold resolve.
  destruct (Go.Split_dot variable) as [|p0 rest] eqn:Hsplit; [done|].
  case_bool_decide as Hp0; [done|].
  destruct rest as [|taskName [|p2 rest']]; [done..|].
  case_bool_decide as Hp2; [done|].
  destruct rest' as [|p3 [|objectKey rest'']]; [done| |done].
  destruct (taskResultValue taskName (ParseResultName p3).1 taskRunResults) eqn:Htask;
    [done|].
  assert (p2 = ResultResultPart) as -> by (by destruct (decide (p2 = ResultResultPart))).
  rewrite (Hagree p0 taskName p3); [done|done| |done].
  destruct (decide (p0 = ResultTaskPart)); [by left|].
  destruct (decide (p0 = ResultFinallyPart)); [by right|].
  by destruct Hp0.
Qed.

Lemma resolvePipelineResult_agree pipelineResult s :
  (∀ variable, variable ∈ GetVarSubstitutionExpressions pipelineResult → agreeOn taskRunResults customTaskResults customTaskResults' variable) →
  resolvePipelineResult taskRunResults customTaskResults taskstatus pipelineResult s
  = resolvePipelineResult taskRunResults customTaskResults' taskstatus pipelineResult s.
Proof.
  intros Hagree. unfold resolvePipelineResult.
  case_bool_decide; [done|].
  rewrite (foldM_ext
             (resolveVariable taskRunResults customTaskResults taskstatus
                (PipelineResult.Name pipelineResult))
             (resolveVariable taskRunResults customTaskResults' taskstatus
                (PipelineResult.Name pipelineResult))); [done|].
  intros variable acc Hvariable.
  rewrite !resolveVariable_factor. by rewrite resolve_agree by by apply Hagree.
Qed.

Lemma ApplyTaskResultsToPipelineResults_agree results :
  (∀ pipelineResult variable,
     pipelineResult ∈ results →
     variable ∈ GetVarSubstitutionExpressions pipelineResult →
     agreeOn taskRunResults customTaskResults customTaskResults' variable) →
  ApplyTaskResultsToPipelineResults taskRunResults customTaskResults taskstatus results
  = ApplyTaskResultsToPipelineResults taskRunResults customTaskResults' taskstatus results.
Proof.
  intros Hagree. unfold ApplyTaskResultsToPipelineResults.
  rewrite (foldM_ext
             (resolvePipelineResult taskRunResults customTaskResults taskstatus)
             (resolvePipelineResult taskRunResults customTaskResults' taskstatus));
    [done|].
  intros pipelineResult s Hin. apply resolvePipelineResult_agree.
  intros variable. by apply Hagree.
Qed.

End WithExternals.
End CustomRunFacts.

(** X5.  The results of custom runs are read for a reference of four
    segments only, and only when the task has no result of the name among
    the results of its task runs (lines 514 and 534): the reference then
    resolves to the string of the custom run.  Nothing else is read from
    them: the call on any declared results returns the same for two tables
    of custom-run results that give the same at those places.  So the call
    on a reference of four segments whose result is among the results of
    the task runs, and the call on a reference of five segments, to an
    attribute, return the same whatever the results of custom runs are. *)
Theorem custom_run_results_are_strings `{ResultExternals}
    (taskRunResults : gmap string (list TaskRunResult.t))
    (customTaskResults : gmap string (list CustomRunResult.t))
    (taskstatus : gmap string string)
    (pipelineResult : PipelineResult.t) (variable p0 taskName p3 : string) :
  GetVarSubstitutionExpressions pipelineResult = [variable] →
  p0 = ResultTaskPart ∨ p0 = ResultFinallyPart →
  (∀ value,
     Go.Split_dot variable = [p0; taskName; ResultResultPart; p3] →
     Aggregator.taskResultValue taskName (ParseResultName p3).1 taskRunResults = None →
     Aggregator.runResultValue taskName (ParseResultName p3).1 customTaskResults
     = Some value →
     (∀ s, Aggregator.isMemoized variable s = false →
           Aggregator.resolvePipelineResult taskRunResults customTaskResults taskstatus
             pipelineResult s
           = Some (Aggregator.appendRunResult
                     (PipelineRunResult.mk (PipelineResult.Name pipelineResult)
                        (ParamValue_ApplyReplacements (PipelineResult.Value pipelineResult)
                           (<[variable := value]> (Aggregator.stringReplacements s))
                           (Aggregator.arrayReplacements s)
                           (Aggregator.objectReplacements s)))
                     (Aggregator.setString variable value s)))
     ∧ Aggregator.ApplyTaskResultsToPipelineResults taskRunResults customTaskResults
         taskstatus [pipelineResult]
       = Some ([PipelineRunResult.mk (PipelineResult.Name pipelineResult)
                  (ParamValue_ApplyReplacements (PipelineResult.Value pipelineResult)
                     {[ variable := value ]} ∅ ∅)],
               None))
  ∧ (∀ objectKey customTaskResults',
       Go.Split_dot variable = [p0; taskName; ResultResultPart; p3; objectKey] →
       Aggregator.ApplyTaskResultsToPipelineResults taskRunResults customTaskResults
         taskstatus [pipelineResult]
       = Aggregator.ApplyTaskResultsToPipelineResults taskRunResults customTaskResults'
           taskstatus [pipelineResult])
  ∧ (∀ customTaskResults',
       Go.Split_dot variable = [p0; taskName; ResultResultPart; p3] →
       is_Some (Aggregator.taskResultValue taskName (ParseResultName p3).1 taskRunResults) →
       Aggregator.ApplyTaskResultsToPipelineResults taskRunResults customTaskResults
         taskstatus [pipelineResult]
       = Aggregator.ApplyTaskResultsToPipelineResults taskRunResults customTaskResults'
           taskstatus [pipelineResult])
  ∧ (∀ results customTaskResults',
       (∀ declared reference,
          declared ∈ results →
          reference ∈ GetVarSubstitutionExpressions declared →
          Aggregator.agreeOn taskRunResults customTaskResults customTaskResults' reference) →
       Aggregator.ApplyTaskResultsToPipelineResults taskRunResults customTaskResults
         taskstatus results
       = Aggregator.ApplyTaskResultsToPipelineResults taskRunResults customTaskResults'
           taskstatus results).
Proof.
  intros Hvars Hp0. split; [|split; [|split]].
  - intros value Hsplit Htask Hrun.
    apply (ReferenceFacts.string_reference _ _ _ _ variable); [done|].
    by eapply ReferenceFacts.resolve_custom.
  - intros objectKey customTaskResults' Hsplit.
    rewrite !ShapeFacts.call_on_one.
    rewrite !(ShapeFacts.iteration_on_single_reference _ _ _ _ variable)
      by (done || apply AggregatorFacts.isMemoized_init).
    by rewrite !(ReferenceFacts.resolve_attribute _ _ _ _ _ _ _ _ Hsplit Hp0).
  - intros customTaskResults' Hsplit [resultValue Htask].
    apply CustomRunFacts.ApplyTaskResultsToPipelineResults_agree.
    intros declared reference ->%list_elem_of_singleton Hreference.
    rewrite Hvars in Hreference. apply list_elem_of_singleton in Hreference as ->.
    intros p0' taskName' p3' Hsplit' _ Hnone.
    rewrite Hsplit in Hsplit'. injection Hsplit' as <- <- <-. congruence.
  - intros results customTaskResults'.
    apply CustomRunFacts.ApplyTaskResultsToPipelineResults_agree.
Qed.

Lemma custom_run_results_are_strings_witness :
  let runs : gmap string (list CustomRunResult.t) :=
    {[ "approve" := [CustomRunResult.mk "verdict" "yes"] ]} in
  let taskRuns : gmap string (list TaskRunResult.t) :=
    {[ "approve" := [TaskRunResult.mk "verdict" ParamTypeString
                       (Reference.stringValue "no")] ]} in
  let declared :=
    PipelineResult.mk "approved" (Reference.stringValue "$(tasks.approve.results.verdict)") in
  Aggregator.ApplyTaskResultsToPipelineResults (H := Reference.resultExternals) ∅ runs ∅
    [declared]
  = Some ([PipelineRunResult.mk "approved" (Reference.stringValue "yes")], None)
  ∧ Aggregator.ApplyTaskResultsToPipelineResults (H := Reference.resultExternals)
      taskRuns runs ∅ [declared]
    = Some ([PipelineRunResult.mk "approved" (Reference.stringValue "no")], None).
Proof.
  intros runs taskRuns declared. split.
  - refine (proj2 (proj1 (custom_run_results_are_strings (H := Reference.resultExternals)
                            ∅ runs ∅ declared
                            "tasks.approve.results.verdict" "tasks" "approve" "verdict"
                            eq_refl (or_introl eq_refl))
                     "yes" eq_refl eq_refl _)).
    by vm_compute.
  - etrans;
      [apply (proj1 (proj2 (proj2 (custom_run_results_are_strings
                                     (H := Reference.resultExternals)
                                     taskRuns runs ∅ declared
                                     "tasks.approve.results.verdict" "tasks" "approve"
                                     "verdict" eq_refl (or_introl eq_refl))))
                ∅ eq_refl);
       by (vm_compute; eexists)
      |by vm_compute].
Defined.

(** X6.  The index of an array result is read with the error of
    [strconv.Atoi] dropped (line 520): an index text other than [*] that
    is not a number, the empty text of a reference without brackets among
    them, reads as [0].  The reference resolves to the first element of
    the array, and is invalid when the array is empty. *)
Theorem array_index_defaults_to_zero `{ResultExternals}
    (taskRunResults : gmap string (list TaskRunResult.t))
    (customTaskResults : gmap string (list CustomRunResult.t))
    (taskstatus : gmap string string)
    (pipelineResult : PipelineResult.t) (variable p0 taskName p3 : string)
    (resultValue : ParamValue.t) :
  GetVarSubstitutionExpressions pipelineResult = [variable] →
  Go.Split_dot variable = [p0; taskName; ResultResultPart; p3] →
  p0 = ResultTaskPart ∨ p0 = ResultFinallyPart →
  Aggregator.taskResultValue taskName (ParseResultName p3).1 taskRunResults
  = Some resultValue →
  ParamValue.Type_ resultValue = ParamTypeArray →
  (ParseResultName p3).2 ≠ "*" →
  Go.Atoi (ParseResultName p3).2 = 0 →
  Aggregator.ApplyTaskResultsToPipelineResults taskRunResults customTaskResults taskstatus
    [pipelineResult]
  = Some (match ParamValue.ArrayVal resultValue with
          | first :: _ =>
              ([PipelineRunResult.mk (PipelineResult.Name pipelineResult)
                  (ParamValue_ApplyReplacements (PipelineResult.Value pipelineResult)
                     {[ variable := first ]} ∅ ∅)],
               None)
          | [] => ([], Some (Aggregator.errorMessage [PipelineResult.Name pipelineResult]))
          end).
Proof.
  intros Hvars Hsplit Hp0 Htask Htype Hstar Hzero.
  pose proof (ReferenceFacts.resolve_index_zero _ customTaskResults taskstatus
                _ _ _ _ _ Hsplit Hp0 Htask Htype Hstar Hzero) as Hresolve.
  destruct (ParamValue.ArrayVal resultValue) as [|first others]; simpl in Hresolve.
  - by apply (ReferenceFacts.invalid_reference _ _ _ _ variable).
  - by apply (ReferenceFacts.string_reference _ _ _ _ variable).
Qed.

Lemma array_index_defaults_to_zero_witness :
  let tasks : gmap string (list TaskRunResult.t) :=
    {[ "build" := [TaskRunResult.mk "arr" ParamTypeArray
                     (Reference.arrayValue ["a"; "b"; "c"])] ]} in
  Go.Atoi "" = 0
  ∧ Aggregator.ApplyTaskResultsToPipelineResults (H := Reference.resultExternals)
      tasks ∅ ∅
      [PipelineResult.mk "images" (Reference.stringValue "$(tasks.build.results.arr)")]
    = Some ([PipelineRunResult.mk "images" (Reference.stringValue "a")], None).
Proof.
  intros tasks. split; [reflexivity|].
  apply (array_index_defaults_to_zero (H := Reference.resultExternals) tasks ∅ ∅
           (PipelineResult.mk "images" (Reference.stringValue "$(tasks.build.results.arr)"))
           "tasks.build.results.arr" "tasks" "build" "arr"
           (Reference.arrayValue ["a"; "b"; "c"]));
    try reflexivity.
  - by left.
  - by vm_compute.
Defined.

(** X7.  A reference of five segments, to an attribute of a result of a
    task run, is decided by the keys of the object of the result alone,
    whatever the type tag of the result: it resolves to the value under the
    key, and when the object has no such key the declared result is
    invalid and named in the error, whatever status is recorded for the
    task (lines 552-559). *)
Theorem attribute_reference_reads_the_object `{ResultExternals}
    (taskRunResults : gmap string (list TaskRunResult.t))
    (customTaskResults : gmap string (list CustomRunResult.t))
    (taskstatus : gmap string string)
    (pipelineResult : PipelineResult.t) (variable p0 taskName p3 objectKey : string)
    (resultValue : ParamValue.t) :
  GetVarSubstitutionExpressions pipelineResult = [variable] →
  Go.Split_dot variable = [p0; taskName; ResultResultPart; p3; objectKey] →
  p0 = ResultTaskPart ∨ p0 = ResultFinallyPart →
  Aggregator.taskResultValue taskName (ParseResultName p3).1 taskRunResults
  = Some resultValue →
  Aggregator.ApplyTaskResultsToPipelineResults taskRunResults customTaskResults taskstatus
    [pipelineResult]
  = Some (match ParamValue.ObjectVal resultValue !! objectKey with
          | Some value =>
              ([PipelineRunResult.mk (PipelineResult.Name pipelineResult)
                  (ParamValue_ApplyReplacements (PipelineResult.Value pipelineResult)
                     {[ variable := value ]} ∅ ∅)],
               None)
          | None => ([], Some (Aggregator.errorMessage [PipelineResult.Name pipelineResult]))
          end).
Proof.
  intros Hvars Hsplit Hp0 Htask.
  pose proof (ReferenceFacts.resolve_attribute taskRunResults customTaskResults taskstatus
                _ _ _ _ _ Hsplit Hp0) as Hresolve.
  rewrite Htask in Hresolve.
  destruct (ParamValue.ObjectVal resultValue !! objectKey) as [value|];
    simpl in Hresolve.
  - by apply (ReferenceFacts.string_reference _ _ _ _ variable).
  - by apply (ReferenceFacts.invalid_reference _ _ _ _ variable).
Qed.

Lemma attribute_reference_reads_the_object_witness :
  let tasks : gmap string (list TaskRunResult.t) :=
    {[ "build" := [TaskRunResult.mk "image" ParamTypeObject
                     (Reference.objectValue {[ "url" := "registry/app" ]})] ]} in
  let failed : gmap string string := {[ "tasks.build.status" := "Failed" ]} in
  Aggregator.ApplyTaskResultsToPipelineResults (H := Reference.resultExternals)
    tasks ∅ failed
    [PipelineResult.mk "digest" (Reference.stringValue "$(tasks.build.results.image.digest)")]
  = Some ([], Some "invalid pipelineresults [digest], the referenced results don't exist").
Proof.
  intros tasks failed. etrans.
  - apply (attribute_reference_reads_the_object (H := Reference.resultExternals)
             tasks ∅ failed
             (PipelineResult.mk "digest"
                (Reference.stringValue "$(tasks.build.results.image.digest)"))
             "tasks.build.results.image.digest" "tasks" "build" "image" "digest"
             (Reference.objectValue {[ "url" := "registry/app" ]}));
      try reflexivity.
    by left.
  - by vm_compute.
Defined.

(** ** The keys of the maps of the parameters *)

Module KeysFacts.
Import Parameters ParametersFacts Keys.

Section WithQuote.
Context `{GoQuote}.

Lemma setDefaults_split before p default after :
  ParamSpec.Default p = Some default →
  setDefaults (before ++ p :: after) empty
  = union (setDefaults after empty)
      (union (written (ParamSpec.Name p) default) (setDefaults before empty)).
Proof.
  intros Hdefault. unfold setDefaults at 1. rewrite foldl_app. simpl. rewrite Hdefault.
  fold (setDefaults before empty).
  fold (setDefaults after (setParam (ParamSpec.Name p) default (setDefaults before empty))).
  by rewrite setDefaults_union, setParam_union.
Qed.

Lemma writtenBy_parameterReplacements {A} (proj : replacements → gmap string A)
    params pr :
  proj empty = ∅ →
  (∀ a b, proj (union a b) = proj a ∪ proj b) →
  writtenBy proj params pr (proj (parameterReplacements params pr)).
Proof.
  intros Hempty Hunion. split.
  - apply (FormsFacts.writers_ind proj
             (λ m, ∀ key x, m !! key = Some x →
                     ∃ name value, (name, value) ∈ writers params pr
                                   ∧ proj (written name value) !! key = Some x));
      try done.
    + intros m1 m2 H1 H2 key x [Hkey|[_ Hkey]]%lookup_union_Some_raw; eauto.
    + intros name value Hw key x Hkey. eauto.
  - intros name value key Hw [x Hkey].
    rewrite OverrideFacts.parameterReplacements_union, Hunion.
    unfold writers in Hw. apply elem_of_app in Hw as [Hw|Hw].
    + apply list_elem_of_omap in Hw as (p & Hp & Hd).
      destruct (ParamSpec.Default p) as [default|] eqn:Hdefault; simplify_eq/=.
      apply list_elem_of_split in Hp as (before & after & ->).
      rewrite (setDefaults_split _ _ _ _ Hdefault), !Hunion.
      rewrite !lookup_union_is_Some. right. right. left. by eexists.
    + apply list_elem_of_fmap in Hw as (q & [= -> ->] & Hq).
      apply list_elem_of_split in Hq as (before & after & Hsplit).
      unfold paramsFromPipelineRun. rewrite Hsplit, OverrideFacts.setParams_split, !Hunion.
      rewrite !lookup_union_is_Some. left. right. left. by eexists.
Qed.

End WithQuote.
End KeysFacts.

(** X8.  The three maps that [ApplyParameters] builds hold what the
    defaults of the declared parameters and the values of the run write,
    and nothing else: every entry of a map is an entry written for a
    default or for a value of the run, and every key written for one of
    them is a key of the map.  A name for which neither a default nor a
    value of the run is given has none of its three forms in the array map
    or in the object map. *)
Theorem parameter_maps_hold_what_is_written `{GoQuote}
    (params : list ParamSpec.t) (pr : PipelineRun.t) :
  let m := Parameters.parameterReplacements params pr in
  Keys.writtenBy Parameters.stringReplacements params pr (Parameters.stringReplacements m)
  ∧ Keys.writtenBy Parameters.arrayReplacements params pr (Parameters.arrayReplacements m)
  ∧ Keys.writtenBy Parameters.objectReplacements params pr
      (Parameters.objectReplacements m)
  ∧ ∀ name,
      (∀ value, (name, value) ∉ Parameters.writers params pr) →
      ∀ p, Parameters.arrayReplacements m !! Parameters.Sprintf p name = None
           ∧ Parameters.objectReplacements m !! Parameters.Sprintf p name = None.
Proof.
  intros m.
  assert (Keys.writtenBy Parameters.arrayReplacements params pr
            (Parameters.arrayReplacements m)) as Harrays
    by by apply KeysFacts.writtenBy_parameterReplacements.
  assert (Keys.writtenBy Parameters.objectReplacements params pr
            (Parameters.objectReplacements m)) as Hobjects
    by by apply KeysFacts.writtenBy_parameterReplacements.
  split; [by apply KeysFacts.writtenBy_parameterReplacements|].
  split; [done|]. split; [done|].
  intros name Hnone p. split.
  - destruct (Parameters.arrayReplacements m !! _) as [a|] eqn:Hkey; [|done].
    apply (proj1 Harrays) in Hkey as (name' & value & Hw & Hkey).
    destruct (decide (name' = name)) as [->|Hne]; [by destruct (Hnone value)|].
    by rewrite (proj1 (FormsFacts.written_other_name name name' value Hne p)) in Hkey.
  - destruct (Parameters.objectReplacements m !! _) as [o|] eqn:Hkey; [|done].
    apply (proj1 Hobjects) in Hkey as (name' & value & Hw & Hkey).
    destruct (decide (name' = name)) as [->|Hne]; [by destruct (Hnone value)|].
    by rewrite (proj2 (FormsFacts.written_other_name name name' value Hne p)) in Hkey.
Qed.

Lemma parameter_maps_hold_what_is_written_witness :
  let params :=
    [ParamSpec.mk "greeting" ParamTypeString (Some (Reference.stringValue "hi"));
     ParamSpec.mk "other" ParamTypeArray None] in
  let pr :=
    PipelineRun.mk "run" "ns" "uid"
      (PipelineRunSpec.mk [Param.mk "greeting" (Reference.stringValue "hello")] []) in
  let m := Parameters.parameterReplacements (H := ReferenceResolvers.goQuote) params pr in
  Parameters.arrayReplacements m !! "params.other" = None
  ∧ Parameters.objectReplacements m !! "params.other" = None.
Proof.
  intros params pr m.
  refine (proj2 (proj2 (proj2 (parameter_maps_hold_what_is_written
                                 (H := ReferenceResolvers.goQuote) params pr))) "other"
            _ Parameters.Dotted).
  intros value Hw. unfold Parameters.writers in Hw. simpl in Hw.
  apply elem_of_cons in Hw as [Hw|Hw]; [done|].
  apply elem_of_cons in Hw as [Hw|Hw]; [done|].
  by apply elem_of_nil in Hw.
Defined.

(** X9.  [ApplyParametersToWorkspaceBindings] substitutes into the
    workspace bindings of the run with the string map of the values of the
    run alone, and touches nothing else of the run.  Every entry of that
    map is written for a parameter of the run, so the default of a declared
    parameter is never seen; and every entry of that map is the entry that
    [ApplyParameters] uses under the same key, whatever the declared
    parameters are. *)
Theorem workspace_bindings_see_the_values_of_the_run `{GoQuote} `{!PropagationExternals}
    (pr : PipelineRun.t) :
  let parameters := Parameters.stringReplacements (Parameters.paramsFromPipelineRun pr) in
  let pr' := Propagation.ApplyParametersToWorkspaceBindings pr in
  PipelineRunSpec.Workspaces (PipelineRun.Spec pr')
  = ReplaceWorkspaceBindingsVars (PipelineRunSpec.Workspaces (PipelineRun.Spec pr))
      parameters
  ∧ PipelineRun.Name pr' = PipelineRun.Name pr
  ∧ PipelineRun.Namespace pr' = PipelineRun.Namespace pr
  ∧ PipelineRun.UID pr' = PipelineRun.UID pr
  ∧ PipelineRunSpec.Params (PipelineRun.Spec pr')
    = PipelineRunSpec.Params (PipelineRun.Spec pr)
  ∧ (∀ key x,
       parameters !! key = Some x →
       ∃ q, q ∈ PipelineRunSpec.Params (PipelineRun.Spec pr)
            ∧ Parameters.stringReplacements
                (Parameters.written (Param.Name q) (Param.Value q)) !! key = Some x)
  ∧ (∀ params key x,
       parameters !! key = Some x →
       Parameters.stringReplacements (Parameters.parameterReplacements params pr) !! key
       = Some x).
Proof.
  intros parameters pr'. repeat (split; [done|]). split.
  - intros key x Hkey.
    destruct (proj1 (KeysFacts.writtenBy_parameterReplacements
                       Parameters.stringReplacements [] pr eq_refl (λ _ _, eq_refl))
                key x) as (name & value & Hw & Hwritten).
    { rewrite OverrideFacts.parameterReplacements_union. simpl.
      by apply lookup_union_Some_l. }
    unfold Parameters.writers in Hw. simpl in Hw.
    apply list_elem_of_fmap in Hw as (q & [= -> ->] & Hq). by exists q.
  - intros params key x Hkey.
    rewrite OverrideFacts.parameterReplacements_union. simpl.
    by apply lookup_union_Some_l.
Qed.

Lemma workspace_bindings_see_the_values_of_the_run_witness :
  let pr :=
    PipelineRun.mk "run" "ns" "uid"
      (PipelineRunSpec.mk [Param.mk "dir" (Reference.stringValue "src")]
         [WorkspaceBinding.mk "source" "$(params.dir)/app"]) in
  PipelineRunSpec.Workspaces
    (PipelineRun.Spec
       (Propagation.ApplyParametersToWorkspaceBindings (H1 := ReferenceResolvers.goQuote)
          (H2 := ReferencePropagation.propagationExternals) pr))
  = [WorkspaceBinding.mk "source" "src/app"]
  ∧ ∀ params,
      Parameters.stringReplacements
        (Parameters.parameterReplacements (H := ReferenceResolvers.goQuote) params pr)
        !! "params.dir" = Some "src".
Proof.
  intros pr.
  destruct (workspace_bindings_see_the_values_of_the_run (H := ReferenceResolvers.goQuote)
              (H0 := ReferencePropagation.propagationExternals) pr)
    as (Hbindings & _ & _ & _ & _ & _ & Hsame).
  split.
  - rewrite Hbindings. by vm_compute.
  - intros params. apply Hsame. by vm_compute.
Defined.

(** ** Workspaces that are declared and workspaces that are bound *)

Module WorkspacesFacts.
Import Resolvers.

Lemma app_inj_l (s t1 t2 : string) : s +:+ t1 = s +:+ t2 → t1 = t2.
Proof.
  induction s as [|c s IH]; [by rewrite !StringFacts.app_nil_l|].
  rewrite !StringFacts.app_cons. intros [= Heq]. auto.
Qed.

Lemma boundKey_inj name name' : boundKey name = boundKey name' → name = name'.
Proof.
  unfold boundKey. intros Heq. apply app_inj_l in Heq.
  by apply StringFacts.app_inj_r in Heq.
Qed.

(** A loop that writes one value under a key for each element of a
    list. *)
Lemma foldl_insert_const {B} (f : B → string) (v : string) (l : list B)
    (m : gmap string string) (key : string) :
  foldl (λ m b, <[f b := v]> m) m l !! key
  = if bool_decide (key ∈ f <$> l) then Some v else m !! key.
Proof.
  revert m. induction l as [|b l IH]; intros m.
  - by rewrite bool_decide_eq_false_2 by apply not_elem_of_nil.
  - cbn [foldl]. rewrite IH, fmap_cons. case_bool_decide as Hin.
    + rewrite bool_decide_eq_true_2; [done|]. by right.
    + destruct (decide (key = f b)) as [->|Hne].
      * rewrite lookup_insert_eq. rewrite bool_decide_eq_true_2; [done|by left].
      * rewrite lookup_insert_ne by done. rewrite bool_decide_eq_false_2; [done|].
        by intros [?|?]%elem_of_cons.
Qed.

Lemma elem_of_boundKeys {B} (f : B → string) (l : list B) (name : string) :
  boundKey name ∈ (λ b, boundKey (f b)) <$> l ↔ name ∈ f <$> l.
Proof.
  rewrite !list_elem_of_fmap. split.
  - intros (b & Heq & Hb). apply boundKey_inj in Heq. by exists b.
  - intros (b & -> & Hb). by exists b.
Qed.

End WorkspacesFacts.

(** X10.  [ApplyWorkspaces] substitutes, into a copy of the specification,
    with a map that has one key [workspaces.<name>.bound] for every
    workspace that the pipeline declares or the run binds, and no other
    key: the value is [true] for a workspace that the run binds, declared
    or not, and [false] for a workspace that is declared and not bound. *)
Theorem bound_workspaces_win `{SubstitutionExternals} `{!GoQuote}
    (h : Resolvers.specs) (p : loc) (spec : PipelineSpec.t) (pr : PipelineRun.t) :
  h !! p = Some spec →
  let declared := PipelineWorkspaceDeclaration.Name <$> PipelineSpec.Workspaces spec in
  let bound := WorkspaceBinding.Name <$> PipelineRunSpec.Workspaces (PipelineRun.Spec pr) in
  ∃ replacements : gmap string string,
    Resolvers.ApplyWorkspaces h p pr
    = Resolvers.ApplyReplacements (<[fresh (dom h) := spec]> h) (fresh (dom h))
        replacements ∅ ∅
    ∧ (∀ name,
         replacements !! Resolvers.boundKey name
         = if bool_decide (name ∈ bound) then Some "true"
           else if bool_decide (name ∈ declared) then Some "false"
           else None)
    ∧ (∀ key, is_Some (replacements !! key) → ∃ name, key = Resolvers.boundKey name).
Proof.
  intros Hp declared bound. unfold Resolvers.ApplyWorkspaces. rewrite Hp. simpl.
  eexists. split; [done|]. split.
  - intros name. rewrite !WorkspacesFacts.foldl_insert_const.
    rewrite !(bool_decide_ext _ _ (WorkspacesFacts.elem_of_boundKeys _ _ name)).
    by rewrite lookup_empty.
  - intros key. rewrite !WorkspacesFacts.foldl_insert_const, lookup_empty.
    repeat case_bool_decide.
    + intros _. match goal with Hin : _ ∈ _ |- _ =>
                  apply list_elem_of_fmap in Hin as (b & -> & _) end. by eexists.
    + intros _. match goal with Hin : _ ∈ _ |- _ =>
                  apply list_elem_of_fmap in Hin as (b & -> & _) end. by eexists.
    + by intros [? ?].
Qed.

Lemma bound_workspaces_win_witness :
  let spec : PipelineSpec.t (H := ReferenceResolvers.foreign) :=
    PipelineSpec.mk _ []
      [ReferenceResolvers.task "t" "source $(workspaces.source.bound) cache $(workspaces.cache.bound)"
         [] None]
      []
      [PipelineWorkspaceDeclaration.mk "source"; PipelineWorkspaceDeclaration.mk "cache"]
      [] in
  let pr :=
    PipelineRun.mk "run" "ns" "uid"
      (PipelineRunSpec.mk [] [WorkspaceBinding.mk "source" ""]) in
  ∃ replacements : gmap string string,
    Resolvers.ApplyWorkspaces (H0 := ReferenceResolvers.substitutionExternals)
      (H1 := ReferenceResolvers.goQuote) {[ 1%positive := spec ]} 1%positive pr
    = Resolvers.ApplyReplacements (H0 := ReferenceResolvers.substitutionExternals)
        (H1 := ReferenceResolvers.goQuote)
        (<[fresh (dom ({[ 1%positive := spec ]} : Resolvers.specs)) := spec]>
           {[ 1%positive := spec ]})
        (fresh (dom ({[ 1%positive := spec ]} : Resolvers.specs)))
        replacements ∅ ∅
    ∧ replacements !! "workspaces.source.bound" = Some "true"
    ∧ replacements !! "workspaces.cache.bound" = Some "false"
    ∧ replacements !! "workspaces.other.bound" = None.
Proof.
  intros spec pr.
  destruct (bound_workspaces_win (H0 := ReferenceResolvers.substitutionExternals)
              (H1 := ReferenceResolvers.goQuote) {[ 1%positive := spec ]} 1%positive
              spec pr)
    as (replacements & Hcall & Hkeys & _); [by vm_compute|].
  exists replacements. split; [done|].
  split; [|split].
  - refine (eq_trans (Hkeys "source") _). by vm_compute.
  - refine (eq_trans (Hkeys "cache") _). by vm_compute.
  - refine (eq_trans (Hkeys "other") _). by vm_compute.
Defined.

(** ** The copy that [ApplyReplacements] returns *)

Module CopyFacts.
Import Resolvers.

Section WithExternals.
Context `{SubstitutionExternals} `{!GoQuote}.

Lemma propagateParams_fields t sr ar or :
  let t' := propagateParams t sr ar or in
  PipelineTask.Name t' = PipelineTask.Name t
  ∧ PipelineTask.DisplayName t' = PipelineTask.DisplayName t
  ∧ PipelineTask.Retries t' = PipelineTask.Retries t
  ∧ PipelineTask.Params t' = PipelineTask.Params t
  ∧ PipelineTask.Matrix t' = PipelineTask.Matrix t.
Proof.
  unfold propagateParams. destruct (PipelineTask.TaskSpec_ t); [|done].
  by case_bool_decide.
Qed.

(** One iteration of the loop of [replaceVariablesInPipelineTasks]: what
    it keeps, and which of the display name and the matrix it
    substitutes. *)
Lemma replaceVariablesInPipelineTask_fields sr ar or t t' :
  replaceVariablesInPipelineTask sr ar or t = Some t' →
  PipelineTask.Name t' = PipelineTask.Name t
  ∧ PipelineTask.Retries t' = PipelineTask.Retries t
  ∧ if IsMatrixed
         (PipelineTask.setParams
            (Params_ReplaceVariables (PipelineTask.Params t) sr (Some ar) (Some or)) t)
    then
      PipelineTask.DisplayName t' = PipelineTask.DisplayName t
      ∧ ∃ m, PipelineTask.Matrix t = Some m
             ∧ PipelineTask.Matrix t' = Some (replaceMatrix sr (Some ar) None None None m)
    else
      PipelineTask.DisplayName t'
      = substitution_ApplyReplacements (PipelineTask.DisplayName t) sr
      ∧ PipelineTask.Matrix t' = PipelineTask.Matrix t.
Proof.
  unfold replaceVariablesInPipelineTask.
  destruct (IsMatrixed _).
  - simpl. destruct (PipelineTask.Matrix t) as [m|] eqn:Hm; [|done]. simpl.
    intros [= <-].
    match goal with |- context [propagateParams ?x sr ar or] =>
      destruct (propagateParams_fields x sr ar or) as (-> & -> & -> & _ & ->) end.
    simpl. repeat (split; [done|]). by exists m.
  - simpl. intros [= <-].
    match goal with |- context [propagateParams ?x sr ar or] =>
      destruct (propagateParams_fields x sr ar or) as (-> & -> & -> & _ & ->) end.
    done.
Qed.

Lemma replaceVariablesInPipelineTask_returns sr ar or t :
  (∀ task, IsMatrixed task = true → is_Some (PipelineTask.Matrix task)) →
  is_Some (replaceVariablesInPipelineTask sr ar or t).
Proof.
  intros Hmatrix. unfold replaceVariablesInPipelineTask.
  destruct (IsMatrixed _) eqn:His; simpl; [|by eexists].
  apply Hmatrix in His as [m Hm]. simpl in Hm. rewrite Hm. by eexists.
Qed.

Lemma replaceVariablesInPipelineTasks_returns tasks sr ar or :
  (∀ task, IsMatrixed task = true → is_Some (PipelineTask.Matrix task)) →
  is_Some (replaceVariablesInPipelineTasks tasks sr ar or).
Proof.
  intros Hmatrix. unfold replaceVariablesInPipelineTasks. apply mapM_is_Some.
  apply Forall_forall. intros t _. by apply replaceVariablesInPipelineTask_returns.
Qed.

Lemma replaceVariablesInPipelineTasks_lookup tasks tasks' sr ar or :
  replaceVariablesInPipelineTasks tasks sr ar or = Some tasks' →
  length tasks' = length tasks
  ∧ ∀ i t, tasks !! i = Some t →
           ∃ t', tasks' !! i = Some t'
                 ∧ replaceVariablesInPipelineTask sr ar or t = Some t'.
Proof.
  unfold replaceVariablesInPipelineTasks. intros Hall%mapM_Some. split.
  - symmetry. by eapply Forall2_length.
  - intros i t Hi. destruct (Forall2_lookup_l _ _ _ _ _ Hall Hi) as (t' & Hi' & Ht').
    by exists t'.
Qed.

Lemma replaceVariablesInPipelineTasks_names tasks tasks' sr ar or :
  replaceVariablesInPipelineTasks tasks sr ar or = Some tasks' →
  PipelineTask.Name <$> tasks' = PipelineTask.Name <$> tasks.
Proof.
  unfold replaceVariablesInPipelineTasks. intros Hall%mapM_Some.
  induction Hall as [|t t' tasks tasks' Ht _ IH]; [done|].
  rewrite !fmap_cons, IH. f_equal.
  by apply replaceVariablesInPipelineTask_fields in Ht as (-> & _).
Qed.

End WithExternals.
End CopyFacts.

(** X11.  When [IsMatrixed] reports as matrixed only tasks that have a
    matrix, [ApplyReplacements] returns for every specification: it
    returns a pointer that the store did not use, and the specification
    there has the parameters, the workspaces and the results of the
    specification passed, and as many tasks and final tasks, with the same
    names in the same order. *)
Theorem ApplyReplacements_returns_a_copy `{SubstitutionExternals} `{!GoQuote}
    (h : Resolvers.specs) (p : loc) (spec : PipelineSpec.t)
    (replacements : gmap string string) (arrayReplacements : gmap string (list string))
    (objectReplacements : gmap string (gmap string string)) :
  (∀ task, IsMatrixed task = true → is_Some (PipelineTask.Matrix task)) →
  h !! p = Some spec →
  ∃ copy spec',
    Resolvers.ApplyReplacements h p replacements arrayReplacements objectReplacements
    = Some (<[copy := spec']> h, copy)
    ∧ h !! copy = None
    ∧ PipelineSpec.Params spec' = PipelineSpec.Params spec
    ∧ PipelineSpec.Workspaces spec' = PipelineSpec.Workspaces spec
    ∧ PipelineSpec.Results spec' = PipelineSpec.Results spec
    ∧ PipelineTask.Name <$> PipelineSpec.Tasks spec'
      = PipelineTask.Name <$> PipelineSpec.Tasks spec
    ∧ PipelineTask.Name <$> PipelineSpec.Finally spec'
      = PipelineTask.Name <$> PipelineSpec.Finally spec.
Proof.
  intros Hmatrix Hp. unfold Resolvers.ApplyReplacements. rewrite Hp. simpl.
  destruct (CopyFacts.replaceVariablesInPipelineTasks_returns (PipelineSpec.Tasks spec)
              replacements arrayReplacements objectReplacements Hmatrix)
    as [tasks Htasks].
  destruct (CopyFacts.replaceVariablesInPipelineTasks_returns (PipelineSpec.Finally spec)
              replacements arrayReplacements objectReplacements Hmatrix)
    as [finally Hfinally].
  rewrite Htasks, Hfinally. simpl. eexists _, _. split; [done|].
  split; [apply not_elem_of_dom, is_fresh|]. simpl.
  repeat (split; [done|]). split.
  - by eapply CopyFacts.replaceVariablesInPipelineTasks_names.
  - by eapply CopyFacts.replaceVariablesInPipelineTasks_names.
Qed.

Lemma ApplyReplacements_returns_a_copy_witness :
  let spec : PipelineSpec.t (H := ReferenceResolvers.foreign) :=
    PipelineSpec.mk _ []
      [ReferenceResolvers.task "build" "" [] None;
       ReferenceResolvers.task "test" "" [] None]
      [ReferenceResolvers.task "notify" "" [] None] [] [] in
  ∃ copy spec',
    Resolvers.ApplyReplacements (H0 := ReferenceResolvers.substitutionExternals)
      (H1 := ReferenceResolvers.goQuote) {[ 1%positive := spec ]} 1%positive ∅ ∅ ∅
    = Some (<[copy := spec']> {[ 1%positive := spec ]}, copy)
    ∧ ({[ 1%positive := spec ]} : Resolvers.specs) !! copy = None
    ∧ PipelineSpec.Params spec' = PipelineSpec.Params spec
    ∧ PipelineSpec.Workspaces spec' = PipelineSpec.Workspaces spec
    ∧ PipelineSpec.Results spec' = PipelineSpec.Results spec
    ∧ PipelineTask.Name <$> PipelineSpec.Tasks spec' = ["build"; "test"]
    ∧ PipelineTask.Name <$> PipelineSpec.Finally spec' = ["notify"].
Proof.
  intros spec.
  apply (ApplyReplacements_returns_a_copy (H0 := ReferenceResolvers.substitutionExternals)
           (H1 := ReferenceResolvers.goQuote) {[ 1%positive := spec ]} 1%positive spec
           ∅ ∅ ∅).
  - intros task His. unfold IsMatrixed in His. simpl in His.
    unfold ReferenceResolvers.isMatrixed in His.
    destruct (PipelineTask.Matrix task); [by eexists|done].
  - by vm_compute.
Defined.

(** X12.  In the copy that [ApplyReplacements] returns, a task that
    [IsMatrixed] reports as matrixed (once its parameters are substituted)
    has the display name it had, unsubstituted, and its matrix substituted;
    any other task has its display name substituted and the matrix it had
    (lines 306-313).  This holds of the tasks and of the final tasks, each
    at its index. *)
Theorem matrixed_tasks_keep_their_display_name `{SubstitutionExternals} `{!GoQuote}
    (h h' : Resolvers.specs) (p copy : loc) (spec spec' : PipelineSpec.t)
    (replacements : gmap string string) (arrayReplacements : gmap string (list string))
    (objectReplacements : gmap string (gmap string string)) :
  h !! p = Some spec →
  Resolvers.ApplyReplacements h p replacements arrayReplacements objectReplacements
  = Some (h', copy) →
  h' !! copy = Some spec' →
  ∀ tasks tasks',
    (tasks = PipelineSpec.Tasks spec ∧ tasks' = PipelineSpec.Tasks spec')
    ∨ (tasks = PipelineSpec.Finally spec ∧ tasks' = PipelineSpec.Finally spec') →
    ∀ i t,
      tasks !! i = Some t →
      ∃ t',
        tasks' !! i = Some t'
        ∧ if IsMatrixed
               (PipelineTask.setParams
                  (Params_ReplaceVariables (PipelineTask.Params t) replacements
                     (Some arrayReplacements) (Some objectReplacements)) t)
          then
            PipelineTask.DisplayName t' = PipelineTask.DisplayName t
            ∧ ∃ m, PipelineTask.Matrix t = Some m
                   ∧ PipelineTask.Matrix t'
                     = Some (Resolvers.replaceMatrix replacements (Some arrayReplacements)
                               None None None m)
          else
            PipelineTask.DisplayName t'
            = substitution_ApplyReplacements (PipelineTask.DisplayName t) replacements
            ∧ PipelineTask.Matrix t' = PipelineTask.Matrix t.
Proof.
  intros Hp. unfold Resolvers.ApplyReplacements. rewrite Hp. simpl.
  destruct (Resolvers.replaceVariablesInPipelineTasks (PipelineSpec.Tasks spec) _ _ _)
    as [tasks1|] eqn:Htasks; [|done]. simpl.
  destruct (Resolvers.replaceVariablesInPipelineTasks (PipelineSpec.Finally spec) _ _ _)
    as [finally1|] eqn:Hfinally; [|done]. simpl.
  intros [= <- <-]. rewrite lookup_insert_eq. intros [= <-]. simpl.
  intros tasks tasks' [[-> ->]|[-> ->]] i t Hi.
  - apply CopyFacts.replaceVariablesInPipelineTasks_lookup in Htasks as [_ Htasks].
    destruct (Htasks i t Hi) as (t' & Hi' & Ht'). exists t'. split; [done|].
    by apply CopyFacts.replaceVariablesInPipelineTask_fields in Ht' as (_ & _ & Ht').
  - apply CopyFacts.replaceVariablesInPipelineTasks_lookup in Hfinally as [_ Hfinally].
    destruct (Hfinally i t Hi) as (t' & Hi' & Ht'). exists t'. split; [done|].
    by apply CopyFacts.replaceVariablesInPipelineTask_fields in Ht' as (_ & _ & Ht').
Qed.

Lemma matrixed_tasks_keep_their_display_name_witness :
  let matrix := Matrix.mk [Param.mk "platform" (Reference.arrayValue ["linux"; "mac"])] [] in
  let t := ReferenceResolvers.task "build" "build for $(params.env)" [] (Some matrix) in
  let spec : PipelineSpec.t (H := ReferenceResolvers.foreign) :=
    PipelineSpec.mk _ [] [t] [] [] [] in
  ∃ t',
    PipelineSpec.Tasks spec !! 0%nat = Some t'
    ∧ PipelineTask.DisplayName t' = "build for $(params.env)".
Proof.
  intros matrix t spec.
  set (h := ({[ 1%positive := spec ]} : Resolvers.specs)).
  assert (Resolvers.ApplyReplacements (H0 := ReferenceResolvers.substitutionExternals)
            (H1 := ReferenceResolvers.goQuote) h 1%positive
            {[ "params.env" := "prod" ]} ∅ ∅
          = Some (<[2%positive := spec]> h, 2%positive)) as Hcall
    by (vm_compute; reflexivity).
  destruct (matrixed_tasks_keep_their_display_name
              (H0 := ReferenceResolvers.substitutionExternals)
              (H1 := ReferenceResolvers.goQuote)
              h (<[2%positive := spec]> h) 1%positive 2%positive spec spec
              {[ "params.env" := "prod" ]} ∅ ∅ eq_refl Hcall eq_refl
              [t] [t] (or_introl (conj eq_refl eq_refl)) 0%nat t eq_refl)
    as (t' & Ht' & Hkept).
  exists t'. split; [done|]. by destruct Hkept as [-> _].
Defined.

(** ** Parameters of a task that shadow parameters of the pipeline *)

Module ScopeFacts.
Import Parameters ParametersFacts Keys.

Lemma find_app {A} (f : A → bool) (l1 l2 : list A) :
  List.find f (l1 ++ l2)
  = match List.find f l1 with
    | Some x => Some x
    | None => List.find f l2
    end.
Proof. induction l1 as [|a l1 IH]; simpl; [done|]. by destruct (f a). Qed.

Lemma find_none_intro {A} (f : A → bool) (l : list A) :
  (∀ x, x ∈ l → f x = false) → List.find f l = None.
Proof.
  induction l as [|a l IH]; intros Hall; simpl; [done|].
  rewrite (Hall a) by by left. apply IH. intros x Hx. apply Hall. by right.
Qed.

Section WithQuote.
Context `{GoQuote}.

(** The three forms of a name. *)
Local Abbreviation forms name := ((λ p, Sprintf p name) <$> paramPatterns).

Lemma scopeParam_scopePattern `{SubstitutionExternals} par dup :
  Resolvers.scopeParam par dup = foldl (scopePattern par) dup paramPatterns.
Proof. done. Qed.

Lemma scopePattern_arrays par dup pattern :
  arrayReplacements (scopePattern par dup pattern)
  = if bool_decide (is_Some (arrayReplacements dup !! Sprintf pattern (Param.Name par)))
    then <[Sprintf pattern (Param.Name par) := ParamValue.ArrayVal (Param.Value par)]>
           (arrayReplacements dup)
    else arrayReplacements dup.
Proof.
  unfold scopePattern. cbv zeta.
  destruct (bool_decide (is_Some (stringReplacements dup !! _))); simpl;
    destruct (bool_decide (is_Some (arrayReplacements dup !! _))); simpl;
    match goal with |- context [bool_decide ?P] => destruct (bool_decide P) end; done.
Qed.

Lemma scopePattern_objects par dup pattern :
  objectReplacements (scopePattern par dup pattern)
  = if bool_decide (is_Some (objectReplacements dup !! Sprintf pattern (Param.Name par)))
    then <[Sprintf pattern (Param.Name par) := ParamValue.ObjectVal (Param.Value par)]>
           (objectReplacements dup)
    else objectReplacements dup.
Proof.
  unfold scopePattern. cbv zeta.
  destruct (bool_decide (is_Some (stringReplacements dup !! _))); simpl;
    destruct (bool_decide (is_Some (arrayReplacements dup !! _))); simpl;
    match goal with |- context [bool_decide ?P] => destruct (bool_decide P) end; done.
Qed.

(** Where no form of the name is a key of the object map, the string map
    is scoped like the two others. *)
Lemma scopePattern_strings par dup pattern :
  objectReplacements dup !! Sprintf pattern (Param.Name par) = None →
  stringReplacements (scopePattern par dup pattern)
  = if bool_decide (is_Some (stringReplacements dup !! Sprintf pattern (Param.Name par)))
    then <[Sprintf pattern (Param.Name par) := ParamValue.StringVal (Param.Value par)]>
           (stringReplacements dup)
    else stringReplacements dup.
Proof.
  intros Hnone. unfold scopePattern. cbv zeta.
  destruct (bool_decide (is_Some (stringReplacements dup !! _))); simpl;
    destruct (bool_decide (is_Some (arrayReplacements dup !! _))); simpl;
    rewrite Hnone; by rewrite bool_decide_eq_false_2 by (by intros [? ?]).
Qed.

(** The string map only grows. *)
Lemma scopePattern_strings_mono par dup pattern key :
  is_Some (stringReplacements dup !! key) →
  is_Some (stringReplacements (scopePattern par dup pattern) !! key).
Proof.
  intros Hkey. unfold scopePattern. cbv zeta.
  set (dup1 := if bool_decide (is_Some (stringReplacements dup !! _)) then _ else dup).
  assert (is_Some (stringReplacements dup1 !! key)) as Hkey1.
  { unfold dup1. case_bool_decide; [|done]. simpl.
    destruct (decide (Sprintf pattern (Param.Name par) = key)) as [->|Hne].
    - rewrite lookup_insert_eq. by eexists.
    - by rewrite lookup_insert_ne. }
  set (dup2 := if bool_decide (is_Some (arrayReplacements dup1 !! _)) then _ else dup1).
  assert (is_Some (stringReplacements dup2 !! key)) as Hkey2.
  { unfold dup2. by case_bool_decide. }
  case_bool_decide; [|done].
  rewrite setAttributes_union. simpl. rewrite lookup_union_is_Some. by right.
Qed.

Section Projection.
Variable A : Type.
Variable proj : replacements → gmap string A.
Variable val : Param.t → A.
(** What holds of the copies throughout, and the parameters of the task
    for which the loop keeps it. *)
Variable inv : replacements → Prop.
Variable admitted : Param.t → Prop.
Hypothesis inv_step :
  ∀ par dup pattern, admitted par → inv dup → inv (scopePattern par dup pattern).
Hypothesis proj_step :
  ∀ par dup pattern, admitted par → inv dup →
    proj (scopePattern par dup pattern)
    = if bool_decide (is_Some (proj dup !! Sprintf pattern (Param.Name par)))
      then <[Sprintf pattern (Param.Name par) := val par]> (proj dup)
      else proj dup.

Lemma scopePatterns_lookup par patterns dup key :
  admitted par → inv dup →
  inv (foldl (scopePattern par) dup patterns)
  ∧ proj (foldl (scopePattern par) dup patterns) !! key
    = if bool_decide (key ∈ (λ p, Sprintf p (Param.Name par)) <$> patterns)
      then (λ _, val par) <$> proj dup !! key
      else proj dup !! key.
Proof.
  intros Hpar. revert dup. induction patterns as [|p ps IH]; intros dup Hinv.
  - split; [done|]. by rewrite bool_decide_eq_false_2 by apply not_elem_of_nil.
  - cbn [foldl]. destruct (IH (scopePattern par dup p)) as [Hinv' ->];
      [by apply inv_step|].
    split; [done|]. rewrite proj_step, fmap_cons by done.
    assert ((if bool_decide (is_Some (proj dup !! Sprintf p (Param.Name par)))
             then <[Sprintf p (Param.Name par) := val par]> (proj dup)
             else proj dup) !! key
            = if bool_decide (key = Sprintf p (Param.Name par))
              then (λ _, val par) <$> proj dup !! key
              else proj dup !! key) as ->.
    { clear IH. destruct (decide (key = Sprintf p (Param.Name par))) as [->|Hne].
      - rewrite (bool_decide_eq_true_2 (_ = _)) by done. case_bool_decide as Hkey.
        + rewrite lookup_insert_eq. by destruct Hkey as [x ->].
        + apply eq_None_not_Some in Hkey. by rewrite Hkey.
      - rewrite (bool_decide_eq_false_2 (_ = _)) by done.
        case_bool_decide; [|done]. by rewrite lookup_insert_ne. }
    clear IH. destruct (decide (key = Sprintf p (Param.Name par))) as [->|Hne].
    + rewrite (bool_decide_eq_true_2 (_ = _)) by done.
      rewrite (bool_decide_eq_true_2 (_ ∈ _ :: _)) by by left.
      case_bool_decide; [|done]. by destruct (proj dup !! _).
    + rewrite (bool_decide_eq_false_2 (_ = _)) by done.
      rewrite (bool_decide_ext (key ∈ _ :: _)
                 (key ∈ (λ p, Sprintf p (Param.Name par)) <$> ps)); [done|].
      rewrite elem_of_cons. split; [by intros [?|?]|by right].
Qed.

(** The copy of the map after the loop over the parameters of the task:
    the keys are the keys it had, and under each the last parameter of the
    task of which it is a form has put its value. *)
Lemma scopeParams_lookup params dup key :
  Forall admitted params → inv dup →
  inv (scopeParams params dup)
  ∧ proj (scopeParams params dup) !! key
    = match List.find (λ par, bool_decide (key ∈ forms (Param.Name par))) (reverse params) with
      | Some par => (λ _, val par) <$> proj dup !! key
      | None => proj dup !! key
      end.
Proof.
  intros Hall. revert dup. induction Hall as [|par params Hpar Hall IH]; intros dup Hinv.
  - done.
  - change (scopeParams (par :: params) dup)
      with (scopeParams params (foldl (scopePattern par) dup paramPatterns)).
    destruct (scopePatterns_lookup par paramPatterns dup key Hpar Hinv) as [Hinv1 Hkey1].
    destruct (IH _ Hinv1) as [Hinv2 ->]. split; [done|].
    rewrite reverse_cons, find_app. rewrite Hkey1. clear IH Hkey1.
    destruct (find _ (reverse params)) as [par'|]; simpl.
    + case_bool_decide; [|done]. by destruct (proj dup !! key).
    + by case_bool_decide.
Qed.

End Projection.

Lemma find_last_of_name (params : list Param.t) before par after key p :
  params = before ++ par :: after →
  (∀ par', par' ∈ after → Param.Name par' ≠ Param.Name par) →
  key = Sprintf p (Param.Name par) →
  List.find (λ par, bool_decide (key ∈ forms (Param.Name par))) (reverse params) = Some par.
Proof.
  intros -> Hafter ->. rewrite reverse_app, reverse_cons, <- app_assoc, !find_app.
  assert (find (λ par0, bool_decide (Sprintf p (Param.Name par) ∈ forms (Param.Name par0)))
               (reverse after) = None) as ->.
  { apply find_none_intro. intros par' Hin. rewrite elem_of_reverse in Hin.
    apply bool_decide_eq_false. intros (p' & Heq & _)%list_elem_of_fmap.
    apply Sprintf_inj in Heq as [_ Heq]. by apply (Hafter par'). }
  simpl. rewrite bool_decide_eq_true_2; [done|].
  destruct p; [by left|right; by left|right; right; by left].
Qed.

Lemma find_none_of_name (params : list Param.t) key :
  (∀ par p, par ∈ params → key ≠ Sprintf p (Param.Name par)) →
  List.find (λ par, bool_decide (key ∈ forms (Param.Name par))) (reverse params) = None.
Proof.
  intros Hnone. apply find_none_intro. intros par Hin. rewrite elem_of_reverse in Hin.
  apply bool_decide_eq_false. intros (p & -> & _)%list_elem_of_fmap.
  by apply (Hnone par p).
Qed.

End WithQuote.
End ScopeFacts.

(** X13.  [propagateParams] leaves a task without an embedded
    specification as it is.  For a task with one, it substitutes into the
    embedded specification with copies of the three maps in which the
    parameters of the task shadow those of the pipeline; the test on the
    number of parameters changes nothing.  Scoping only overwrites: the
    array map and the object map keep their keys and the string map loses
    none; a key that is no form of the name of a parameter of the task
    keeps its array and its object; and under each form of its name that
    was a key, the last parameter of the task of that name puts its array
    and its object there, whatever its type tag, and its string too when no
    form of a name of the task is a key of the object map. *)
Theorem task_parameters_shadow_pipeline_parameters `{SubstitutionExternals} `{!GoQuote}
    (t : PipelineTask.t) (sr : gmap string string) (ar : gmap string (list string))
    (or : gmap string (gmap string string)) :
  (PipelineTask.TaskSpec_ t = None → Resolvers.propagateParams t sr ar or = t)
  ∧ ∀ embedded,
      PipelineTask.TaskSpec_ t = Some embedded →
      let dup :=
        Keys.scopeParams (PipelineTask.Params t) (Parameters.mkReplacements sr ar or) in
      Resolvers.propagateParams t sr ar or
      = PipelineTask.setTaskSpec
          (Some (EmbeddedTask.mk _
                   (resources_ApplyReplacements (EmbeddedTask.TaskSpec_ embedded)
                      (Parameters.stringReplacements dup)
                      (Parameters.arrayReplacements dup)
                      (Parameters.objectReplacements dup)))) t
      ∧ (∀ key, is_Some (Parameters.arrayReplacements dup !! key) ↔ is_Some (ar !! key))
      ∧ (∀ key, is_Some (Parameters.objectReplacements dup !! key) ↔ is_Some (or !! key))
      ∧ (∀ key, is_Some (sr !! key) → is_Some (Parameters.stringReplacements dup !! key))
      ∧ (∀ key,
           (∀ par p, par ∈ PipelineTask.Params t →
                     key ≠ Parameters.Sprintf p (Param.Name par)) →
           Parameters.arrayReplacements dup !! key = ar !! key
           ∧ Parameters.objectReplacements dup !! key = or !! key)
      ∧ (∀ before par after p,
           PipelineTask.Params t = before ++ par :: after →
           (∀ par', par' ∈ after → Param.Name par' ≠ Param.Name par) →
           let key := Parameters.Sprintf p (Param.Name par) in
           (is_Some (ar !! key) →
            Parameters.arrayReplacements dup !! key
            = Some (ParamValue.ArrayVal (Param.Value par)))
           ∧ (is_Some (or !! key) →
              Parameters.objectReplacements dup !! key
              = Some (ParamValue.ObjectVal (Param.Value par)))
           ∧ ((∀ par' p', par' ∈ PipelineTask.Params t →
                          or !! Parameters.Sprintf p' (Param.Name par') = None) →
              is_Some (sr !! key) →
              Parameters.stringReplacements dup !! key
              = Some (ParamValue.StringVal (Param.Value par)))).
Proof.
  split.
  { intros Hnone. unfold Resolvers.propagateParams. by rewrite Hnone. }
  intros embedded Hembedded dup.
  pose proof (λ key, proj2 (ScopeFacts.scopeParams_lookup _ Parameters.arrayReplacements
                              (λ par, ParamValue.ArrayVal (Param.Value par))
                              (λ _, True) (λ _, True) (λ _ _ _ _ _, I)
                              (λ par dup pattern _ _,
                                 ScopeFacts.scopePattern_arrays par dup pattern)
                              (PipelineTask.Params t)
                              (Parameters.mkReplacements sr ar or) key
                              (Forall_true _ _ (λ _, I)) I)) as Harrays.
  pose proof (λ key, proj2 (ScopeFacts.scopeParams_lookup _ Parameters.objectReplacements
                              (λ par, ParamValue.ObjectVal (Param.Value par))
                              (λ _, True) (λ _, True) (λ _ _ _ _ _, I)
                              (λ par dup pattern _ _,
                                 ScopeFacts.scopePattern_objects par dup pattern)
                              (PipelineTask.Params t)
                              (Parameters.mkReplacements sr ar or) key
                              (Forall_true _ _ (λ _, I)) I)) as Hobjects.
  fold dup in Harrays, Hobjects.
  cbn [Parameters.arrayReplacements Parameters.objectReplacements] in Harrays, Hobjects.
  split; [|split; [|split; [|split; [|split]]]].
  - unfold Resolvers.propagateParams. rewrite Hembedded. unfold dup.
    destruct (PipelineTask.Params t); [done|]. by rewrite bool_decide_eq_true_2 by (simpl; lia).
  - intros key. rewrite Harrays. destruct (find _ _); [|done].
    rewrite fmap_is_Some. done.
  - intros key. rewrite Hobjects. destruct (find _ _); [|done].
    rewrite fmap_is_Some. done.
  - intros key. unfold dup. clear Harrays Hobjects dup.
    change (is_Some (sr !! key))
      with (is_Some (Parameters.stringReplacements (Parameters.mkReplacements sr ar or)
                       !! key)).
    generalize (Parameters.mkReplacements sr ar or) as m.
    induction (PipelineTask.Params t) as [|par params IH]; intros m Hkey; [done|].
    change (Keys.scopeParams (par :: params) m)
      with (Keys.scopeParams params
              (foldl (Keys.scopePattern par) m Parameters.paramPatterns)).
    apply IH. clear IH. revert m Hkey.
    induction Parameters.paramPatterns as [|p ps IH]; intros m Hkey; [done|].
    apply IH. by apply ScopeFacts.scopePattern_strings_mono.
  - intros key Hother.
    by rewrite Harrays, Hobjects, ScopeFacts.find_none_of_name.
  - intros before par after p Hparams Hafter key.
    pose proof (ScopeFacts.find_last_of_name _ _ _ _ key p Hparams Hafter eq_refl) as Hfind.
    split; [|split].
    + intros [x Hx]. by rewrite Harrays, Hfind, Hx.
    + intros [x Hx]. by rewrite Hobjects, Hfind, Hx.
    + intros Hshadow [x Hx].
      destruct (ScopeFacts.scopeParams_lookup _ Parameters.stringReplacements
                  (λ par, ParamValue.StringVal (Param.Value par))
                  (λ dup, ∀ par' p', par' ∈ PipelineTask.Params t →
                            Parameters.objectReplacements dup
                              !! Parameters.Sprintf p' (Param.Name par') = None)
                  (λ par, par ∈ PipelineTask.Params t))
        with (params := PipelineTask.Params t)
             (dup := Parameters.mkReplacements sr ar or) (key := key)
        as [_ Hstrings].
      * intros par0 dup0 pattern Hpar0 Hinv par' p' Hpar'.
        rewrite ScopeFacts.scopePattern_objects.
        rewrite bool_decide_eq_false_2; [by apply Hinv|].
        rewrite (Hinv par0 pattern Hpar0). by intros [? ?].
      * intros par0 dup0 pattern Hpar0 Hinv.
        apply ScopeFacts.scopePattern_strings. by apply Hinv.
      * by apply Forall_forall.
      * done.
      * fold dup in Hstrings. cbn [Parameters.stringReplacements] in Hstrings.
        by rewrite Hstrings, Hfind, Hx.
Qed.

Lemma task_parameters_shadow_pipeline_parameters_witness :
  let par := Param.mk "msg" (Reference.stringValue "from the task") in
  let embedded := EmbeddedTask.mk ReferenceResolvers.foreign "echo $(params.msg)" in
  let t :=
    PipelineTask.mk ReferenceResolvers.foreign "t" "" 0 [par] None [] None (Some embedded)
      [] EmptyString in
  let sr : gmap string string := {[ "params.msg" := "from the pipeline" ]} in
  let dup :=
    Keys.scopeParams (H := ReferenceResolvers.goQuote) [par]
      (Parameters.mkReplacements sr ∅ ∅) in
  Parameters.stringReplacements dup !! "params.msg" = Some "from the task"
  ∧ Resolvers.propagateParams (H0 := ReferenceResolvers.substitutionExternals)
      (H1 := ReferenceResolvers.goQuote) t sr ∅ ∅
    = PipelineTask.setTaskSpec
        (Some (EmbeddedTask.mk ReferenceResolvers.foreign "echo from the task")) t.
Proof.
  intros par embedded t sr dup.
  destruct (proj2 (task_parameters_shadow_pipeline_parameters
                     (H0 := ReferenceResolvers.substitutionExternals)
                     (H1 := ReferenceResolvers.goQuote) t sr ∅ ∅) embedded eq_refl)
    as (Hcall & _ & _ & _ & _ & Hlast).
  destruct (Hlast [] par [] Parameters.Dotted eq_refl) as (_ & _ & Hstring).
  { intros par' Hpar'. by apply elem_of_nil in Hpar'. }
  split.
  - apply Hstring.
    + intros par' p' _. apply lookup_empty.
    + exists "from the pipeline". by vm_compute.
  - rewrite Hcall. by vm_compute.
Defined.

(** ** The parameters that refer to a matrix *)

Module FilterFacts.
Import Go.

(** A text without a dot is its own and only piece. *)
Lemma Split_dot_piece (c : ascii) (a : string) :
  Split_dot (String c a) = [String c a] → c ≠ "."%char ∧ Split_dot a = [a].
Proof.
  simpl. pose proof (GoFacts.Split_dot_nonempty a) as Hne.
  destruct (Ascii.eqb c ".") eqn:Hc.
  - by destruct (Split_dot a).
  - apply Ascii.eqb_neq in Hc.
    destruct (Split_dot a) as [|piece pieces]; [done|].
    by intros [= -> ->].
Qed.

Lemma Split_dot_app (a b : string) :
  Split_dot a = [a] → Split_dot (a +:+ "." +:+ b) = a :: Split_dot b.
Proof.
  induction a as [|c a IH]; [done|]. intros [Hc Ha]%Split_dot_piece.
  rewrite StringFacts.app_cons. simpl.
  apply Ascii.eqb_neq in Hc. rewrite Hc. by rewrite (IH Ha).
Qed.

Lemma Split_dot_length (x y : string) :
  length (Split_dot (x +:+ "." +:+ y))
  = (length (Split_dot x) + length (Split_dot y))%nat.
Proof.
  induction x as [|c x IH]; [done|]. rewrite StringFacts.app_cons. simpl.
  destruct (Ascii.eqb c "."); simpl; [by rewrite IH|].
  pose proof (GoFacts.Split_dot_nonempty x).
  pose proof (GoFacts.Split_dot_nonempty (x +:+ "." +:+ y)).
  destruct (Split_dot x), (Split_dot (x +:+ "." +:+ y)); simpl in *; try done.
Qed.

Lemma last_Split_dot_app (x y : string) :
  last (Split_dot (x +:+ "." +:+ y)) = last (Split_dot y).
Proof.
  induction x as [|c x IH].
  - rewrite StringFacts.app_nil_l. simpl. rewrite StringFacts.app_nil_l.
    pose proof (GoFacts.Split_dot_nonempty y). by destruct (Split_dot y).
  - rewrite StringFacts.app_cons. simpl.
    pose proof (Split_dot_length x y) as Hlen.
    pose proof (GoFacts.Split_dot_nonempty x).
    pose proof (GoFacts.Split_dot_nonempty y).
    assert (2 ≤ length (Split_dot x) + length (Split_dot y))%nat as Htwo
      by (destruct (Split_dot x), (Split_dot y); simpl; try done; lia).
    destruct (Split_dot (x +:+ "." +:+ y)) as [|piece [|piece' pieces]];
      simpl in Hlen; [lia|lia|].
    destruct (Ascii.eqb c "."); by rewrite <- IH.
Qed.

End FilterFacts.

(** X14.  [filterMatrixContextVar] keeps the order of the parameters and
    appends a parameter once for each of its expressions that passes the
    test of line 169: a parameter is among the filtered ones exactly when
    it is a parameter for which [GetVarSubstitutionExpressions] reports
    success and one of whose expressions passes the test, and it is there
    as often as it has such expressions. *)
Theorem filtered_parameters_refer_to_a_matrix `{Foreign} `{!MatrixExternals}
    (params params' : list Param.t) (p : Param.t) :
  (p ∈ RunState.filterMatrixContextVar params
   ↔ p ∈ params
     ∧ (Param_GetVarSubstitutionExpressions p).2 = true
     ∧ ∃ expression,
         expression ∈ (Param_GetVarSubstitutionExpressions p).1
         ∧ RunState.isMatrixContextVar expression = true)
  ∧ RunState.filterMatrixContextVar (params ++ params')
    = RunState.filterMatrixContextVar params ++ RunState.filterMatrixContextVar params'
  ∧ RunState.filterMatrixContextVar [p]
    = if (Param_GetVarSubstitutionExpressions p).2
      then replicate
             (length (filter (λ expression, RunState.isMatrixContextVar expression = true)
                        (Param_GetVarSubstitutionExpressions p).1))
             p
      else [].
Proof.
  assert (∀ (q : Param.t) (expressions : list string),
            flat_map (λ expression,
                        if RunState.isMatrixContextVar expression then [q] else [])
                     expressions
            = replicate
                (length (filter (λ expression,
                                   RunState.isMatrixContextVar expression = true)
                           expressions))
                q) as Hcount.
  { intros q expressions. induction expressions as [|e es IH]; [done|].
    simpl. rewrite filter_cons. rewrite IH.
    destruct (RunState.isMatrixContextVar e) eqn:He.
    - by rewrite decide_True.
    - by rewrite decide_False. }
  split; [|split].
  - unfold RunState.filterMatrixContextVar. rewrite list_elem_of_In, in_flat_map. split.
    + intros (q & Hq%list_elem_of_In & Hp).
      destruct (Param_GetVarSubstitutionExpressions q) as [expressions ok] eqn:Hq'.
      destruct ok; [|done].
      apply in_flat_map in Hp as (expression & He%list_elem_of_In & Hp).
      destruct (RunState.isMatrixContextVar expression) eqn:Htest; [|done].
      destruct Hp as [->|[]]. rewrite Hq'. split; [done|]. split; [done|].
      by exists expression.
    + intros (Hp & Hok & expression & He & Htest).
      exists p. split; [by apply list_elem_of_In|].
      destruct (Param_GetVarSubstitutionExpressions p) as [expressions ok].
      simpl in *. subst ok. apply in_flat_map. exists expression.
      split; [by apply list_elem_of_In|]. rewrite Htest. by left.
  - unfold RunState.filterMatrixContextVar. apply flat_map_app.
  - unfold RunState.filterMatrixContextVar. simpl. rewrite app_nil_r.
    destruct (Param_GetVarSubstitutionExpressions p) as [expressions ok]. simpl.
    destruct ok; [|done]. apply Hcount.
Qed.

(** X15.  The test of line 169 looks at the third and at the last piece
    of an expression and at the number of its pieces.  The two keys that
    [ApplyPipelineTaskContexts] writes for the matrix of a task pass it,
    [tasks.<name>.matrix.length] and [tasks.<name>.matrix.<result>.length]
    for every name without a dot and every result; so does the same text
    under any first piece, which the test does not look at; and an
    expression of fewer than four pieces does not pass. *)
Theorem matrix_keys_pass_the_filter `{Foreign} `{!MatrixExternals}
    (head name result expression : string) :
  (Go.Split_dot name = [name] →
   RunState.isMatrixContextVar (RunState.matrixLengthKey name) = true
   ∧ RunState.isMatrixContextVar (RunState.matrixResultLengthKey name result) = true)
  ∧ (Go.Split_dot head = [head] →
     Go.Split_dot name = [name] →
     RunState.isMatrixContextVar (head +:+ "." +:+ name +:+ ".matrix.length") = true
     ∧ RunState.isMatrixContextVar
         (head +:+ "." +:+ name +:+ ".matrix." +:+ result +:+ ".length") = true)
  ∧ ((length (Go.Split_dot expression) < 4)%nat →
     RunState.isMatrixContextVar expression = false).
Proof.
  assert (∀ head, Go.Split_dot head = [head] → Go.Split_dot name = [name] →
            RunState.isMatrixContextVar (head +:+ "." +:+ name +:+ ".matrix.length") = true
            ∧ RunState.isMatrixContextVar
                (head +:+ "." +:+ name +:+ ".matrix." +:+ result +:+ ".length") = true)
    as Hshape.
  { intros head' Hhead Hname. unfold RunState.isMatrixContextVar. split.
    - change (head' +:+ "." +:+ name +:+ ".matrix.length")
        with (head' +:+ "." +:+ name +:+ "." +:+ "matrix.length").
      rewrite (FilterFacts.Split_dot_app head') by done.
      rewrite (FilterFacts.Split_dot_app name) by done. done.
    - change (head' +:+ "." +:+ name +:+ ".matrix." +:+ result +:+ ".length")
        with (head' +:+ "." +:+ name +:+ "." +:+ "matrix" +:+ "." +:+ result
              +:+ "." +:+ "length").
      rewrite (FilterFacts.Split_dot_app head') by done.
      rewrite (FilterFacts.Split_dot_app name) by done.
      rewrite (FilterFacts.Split_dot_app "matrix") by done.
      pose proof (FilterFacts.last_Split_dot_app result "length") as Hlast.
      pose proof (FilterFacts.Split_dot_length result "length") as Hlen.
      pose proof (GoFacts.Split_dot_nonempty result) as Hne.
      destruct (Go.Split_dot (result +:+ "." +:+ "length")) as [|r1 [|r2 rs]].
      + done.
      + destruct (Go.Split_dot result); simpl in Hlen; [done|lia].
      + apply andb_true_intro. split; [done|]. apply bool_decide_eq_true.
        simpl in Hlast. simpl. by rewrite Hlast. }
  split; [|split].
  - intros Hname. by apply (Hshape "tasks").
  - intros Hhead Hname. by apply Hshape.
  - intros Hshort. unfold RunState.isMatrixContextVar.
    by rewrite bool_decide_eq_false_2 by lia.
Qed.

Lemma matrix_keys_pass_the_filter_witness :
  RunState.isMatrixContextVar "tasks.build.matrix.length" = true
  ∧ RunState.isMatrixContextVar "tasks.build.matrix.digest.length" = true.
Proof.
  apply (proj1 (matrix_keys_pass_the_filter (H := ReferenceResolvers.foreign)
                  (H0 := ReferenceResolvers.matrixExternals)
                  EmptyString "build" "digest" EmptyString)).
  reflexivity.
Defined.

(** ** The replacements of the context of a task *)

Lemma foldM_invariant {A B : Type} (P : A → Prop) (f : B → A → option A)
    (l : list B) (a a' : A) :
  (∀ b a a', b ∈ l → P a → f b a = Some a' → P a') →
  P a → foldM f l a = Some a' → P a'.
Proof.
  revert a. induction l as [|b l IH]; intros a Hstep Ha; simpl.
  - by intros [= <-].
  - destruct (f b a) as [a1|] eqn:Hb; [|done]. apply IH.
    + intros b' a2 a3 Hb'. apply Hstep. by right.
    + eapply Hstep; [by left|done|done].
Qed.

Lemma foldM_returns {A B : Type} (P : A → Prop) (f : B → A → option A)
    (l : list B) (a : A) :
  (∀ b a, b ∈ l → P a → ∃ a', f b a = Some a' ∧ P a') →
  P a → ∃ a', foldM f l a = Some a' ∧ P a'.
Proof.
  revert a. induction l as [|b l IH]; intros a Hstep Ha; simpl.
  - by exists a.
  - destruct (Hstep b a) as (a1 & -> & Ha1); [by left|done|].
    apply IH; [|done]. intros b' a2 Hb'. apply Hstep. by right.
Qed.

Lemma foldM_panics {A B : Type} (f : B → A → option A) (l : list B) (b : B) (a : A) :
  b ∈ l → (∀ a, f b a = None) → foldM f l a = None.
Proof.
  intros Hb Hnone. revert a. induction l as [|b' l IH]; intros a; simpl.
  - by apply elem_of_nil in Hb.
  - apply elem_of_cons in Hb as [<-|Hb]; [by rewrite Hnone|].
    destruct (f b' a); [by apply IH|done].
Qed.

Module ContextFacts.
Import RunState.

Section WithExternals.
Context `{Foreign} `{!MatrixExternals}.

Local Abbreviation populated targets st :=
  (∀ l : loc, l ∈ (targets : list loc) →
     ∃ entry task, (st : entries) !! l = Some entry
                   ∧ ResolvedPipelineTask.PipelineTask_ entry = Some task).

Lemma matrixLengthKey_ne_retries n : matrixLengthKey n ≠ "context.pipelineTask.retries".
Proof. unfold matrixLengthKey. by rewrite StringFacts.app_cons. Qed.

Lemma matrixResultLengthKey_ne_retries n result :
  matrixResultLengthKey n result ≠ "context.pipelineTask.retries".
Proof. unfold matrixResultLengthKey. by rewrite StringFacts.app_cons. Qed.

(** Lines 196-204 write one key. *)
Lemma countCombinations_other status n m key :
  key ≠ matrixLengthKey n → countCombinations status n m !! key = m !! key.
Proof.
  intros Hkey. unfold countCombinations.
  destruct (PipelineRunStatus.PipelineSpec_ status) as [spec|]; [|done].
  case_bool_decide; [|done]. revert m.
  induction (PipelineSpec.Tasks spec) as [|task tasks IH]; intros m; simpl; [done|].
  rewrite IH. case_bool_decide; [|done]. by rewrite lookup_insert_ne.
Qed.

Lemma countCombinations_last status spec n m before task after :
  PipelineRunStatus.PipelineSpec_ status = Some spec →
  n ≠ "" →
  PipelineSpec.Tasks spec = before ++ task :: after →
  PipelineTask.Name task = n →
  (∀ task', task' ∈ after → PipelineTask.Name task' ≠ n) →
  countCombinations status n m !! matrixLengthKey n
  = Some (Go.Itoa (Matrix_CountCombinations (PipelineTask.Matrix task))).
Proof.
  intros Hspec Hn Htasks Hname Hafter. unfold countCombinations.
  rewrite Hspec, bool_decide_eq_true_2, Htasks, foldl_app by done. simpl.
  rewrite (bool_decide_eq_true_2 (_ = _)) by done.
  generalize (foldl (λ m task0,
                       if bool_decide (PipelineTask.Name task0 = n)
                       then <[matrixLengthKey n :=
                               Go.Itoa (Matrix_CountCombinations (PipelineTask.Matrix task0))]> m
                       else m) m before) as m'.
  intros m'.
  assert (∀ m0 : gmap string string,
            foldl (λ m task0,
                     if bool_decide (PipelineTask.Name task0 = n)
                     then <[matrixLengthKey n :=
                             Go.Itoa (Matrix_CountCombinations (PipelineTask.Matrix task0))]> m
                     else m) m0 after = m0) as ->.
  { clear Htasks. induction after as [|task' after IH]; intros m0; simpl; [done|].
    rewrite bool_decide_eq_false_2 by (apply Hafter; by left).
    apply IH. intros task'' Hin. apply Hafter. by right. }
  by rewrite lookup_insert_eq.
Qed.

(** One iteration of the loop of lines 207-216 writes at most one key. *)
Lemma lookupResultLength_frame n result l r r' key :
  lookupResultLength n result l r = Some r' →
  key ≠ matrixResultLengthKey n result →
  replacements r' !! key = replacements r !! key.
Proof.
  unfold lookupResultLength. intros Hstep Hkey.
  destruct (state r !! l) as [entry|]; [|done]. simpl in Hstep.
  destruct (ResolvedPipelineTask.PipelineTask_ entry) as [task|]; [|done].
  simpl in Hstep. case_bool_decide; [|by simplify_eq].
  destruct (bool_decide (size (ResolvedPipelineTask.ResultsCache entry) = 0%nat));
    simplify_eq; simpl; by rewrite lookup_insert_ne.
Qed.

Lemma lookupResultLengths_frame n result targets r r' key :
  foldM (lookupResultLength n result) targets r = Some r' →
  key ≠ matrixResultLengthKey n result →
  replacements r' !! key = replacements r !! key.
Proof.
  intros Hfold Hkey.
  apply (foldM_invariant (λ r', replacements r' !! key = replacements r !! key)
           _ _ _ _) in Hfold; [done| |done].
  intros l r1 r2 _ <- Hstep. by eapply lookupResultLength_frame.
Qed.

(** One iteration of the loop of lines 193-218 writes at most the two keys
    of the names that the parameter gives. *)
Lemma resolveMatrixContext_other status facts p r r' key :
  resolveMatrixContext status facts p r = Some r' →
  key ≠ matrixLengthKey (Param_ParseTaskandResultName p).1 →
  key ≠ matrixResultLengthKey (Param_ParseTaskandResultName p).1
          (Param_ParseTaskandResultName p).2 →
  replacements r' !! key = replacements r !! key.
Proof.
  unfold resolveMatrixContext.
  destruct (Param_ParseTaskandResultName p) as [n result]. simpl.
  intros Hstep Hk1 Hk2.
  destruct (bool_decide (n ≠ "") && bool_decide (result ≠ "")).
  - destruct facts as [facts|]; [|done]. simpl in Hstep.
    rewrite (lookupResultLengths_frame _ _ _ _ _ _ Hstep Hk2). simpl.
    by apply countCombinations_other.
  - simplify_eq. simpl. by apply countCombinations_other.
Qed.

(** The loop over the entries returns when every pointer of the state
    points to an entry with a task, and leaves the state so. *)
Lemma lookupResultLength_returns n result targets l r :
  l ∈ targets → populated targets (state r) →
  ∃ r', lookupResultLength n result l r = Some r' ∧ populated targets (state r').
Proof.
  intros Hl Hpop. destruct (Hpop l Hl) as (entry & task & Hentry & Htask).
  unfold lookupResultLength. rewrite Hentry. simpl. rewrite Htask. simpl.
  case_bool_decide; [|by exists r].
  destruct (bool_decide (size (ResolvedPipelineTask.ResultsCache entry) = 0%nat));
    eexists; (split; [done|]); simpl; intros l' Hl';
    (destruct (decide (l' = l)) as [->|Hne];
     [rewrite lookup_insert_eq; by eexists _, _
     |rewrite lookup_insert_ne by done; by apply Hpop]).
Qed.

Lemma resolveMatrixContext_returns status facts p r :
  populated (PipelineRunFacts.State facts) (state r) →
  ∃ r', resolveMatrixContext status (Some facts) p r = Some r'
        ∧ populated (PipelineRunFacts.State facts) (state r').
Proof.
  intros Hpop. unfold resolveMatrixContext.
  destruct (Param_ParseTaskandResultName p) as [n result].
  destruct (bool_decide (n ≠ "") && bool_decide (result ≠ "")); [|by eexists].
  simpl.
  apply (foldM_returns (λ r, populated (PipelineRunFacts.State facts) (state r))); [|done].
  intros l r1 Hl Hr1. by apply lookupResultLength_returns.
Qed.

(** With [facts] a [nil] pointer, an iteration panics exactly when the
    parameter gives the name of a task and the name of a result. *)
Lemma resolveMatrixContext_nil status p r :
  resolveMatrixContext status None p r
  = if bool_decide ((Param_ParseTaskandResultName p).1 ≠ "")
       && bool_decide ((Param_ParseTaskandResultName p).2 ≠ "")
    then None
    else Some (mkResolution
                 (countCombinations status (Param_ParseTaskandResultName p).1
                    (replacements r))
                 (state r) (computed r)).
Proof.
  unfold resolveMatrixContext. destruct (Param_ParseTaskandResultName p) as [n result].
  simpl. by destruct (bool_decide (n ≠ "") && bool_decide (result ≠ "")).
Qed.

End WithExternals.

Section WithSubstitution.
Context `{SubstitutionExternals} `{!MatrixExternals}.

(** After the replacements are built, the call returns when a task that
    [IsMatrixed] reports as matrixed has a matrix. *)
Lemma ApplyPipelineTaskContexts_returns h pt task status facts runState :
  h !! pt = Some task →
  (∀ task, IsMatrixed task = true → is_Some (PipelineTask.Matrix task)) →
  is_Some (ApplyPipelineTaskContexts h pt status facts runState)
  ↔ is_Some (taskContextReplacements task status facts runState).
Proof.
  intros Hpt Hmatrix. unfold ApplyPipelineTaskContexts. rewrite Hpt. simpl.
  destruct (taskContextReplacements task status facts runState) as [r|]; simpl.
  - split; [by eexists|]. intros _.
    destruct (IsMatrixed _) eqn:His; simpl; [|by eexists].
    apply Hmatrix in His as [m Hm]. simpl in Hm. rewrite Hm. by eexists.
  - split; by intros [? ?].
Qed.

End WithSubstitution.
End ContextFacts.

(** X16.  When [ApplyPipelineTaskContexts] returns, the parameters and the
    display name of the copy are substituted with a map in which
    [context.pipelineTask.retries] is the number of retries of the task,
    in decimal, and in which every other key is a key
    [tasks.<name>.matrix.length] or [tasks.<name>.matrix.<result>.length]
    for the names that a filtered parameter of the task gives: the loop
    never overwrites the retries and writes no other key. *)
Theorem task_context_has_the_retries_and_matrix_keys `{SubstitutionExternals}
    `{!MatrixExternals}
    (h h' : RunState.tasks) (pt copy : loc) (task : PipelineTask.t)
    (pipelineRunStatus : PipelineRunStatus.t) (facts : option PipelineRunFacts.t)
    (runState state' : RunState.entries) (computed : list loc) :
  h !! pt = Some task →
  RunState.ApplyPipelineTaskContexts h pt pipelineRunStatus facts runState
  = Some (h', copy, state', computed) →
  ∃ (replacements : gmap string string) (task' : PipelineTask.t),
    h' !! copy = Some task'
    ∧ PipelineTask.Params task'
      = Params_ReplaceVariables (PipelineTask.Params task) replacements (Some ∅) (Some ∅)
    ∧ PipelineTask.DisplayName task'
      = substitution_ApplyReplacements (PipelineTask.DisplayName task) replacements
    ∧ replacements !! "context.pipelineTask.retries"
      = Some (Go.Itoa (PipelineTask.Retries task))
    ∧ ∀ key,
        is_Some (replacements !! key) →
        key = "context.pipelineTask.retries"
        ∨ ∃ p, p ∈ RunState.filterMatrixContextVar (PipelineTask.Params task)
               ∧ (key = RunState.matrixLengthKey (Param_ParseTaskandResultName p).1
                  ∨ key = RunState.matrixResultLengthKey
                            (Param_ParseTaskandResultName p).1
                            (Param_ParseTaskandResultName p).2).
Proof.
  intros Hpt. unfold RunState.ApplyPipelineTaskContexts. rewrite Hpt. simpl.
  destruct (RunState.taskContextReplacements task pipelineRunStatus facts runState)
    as [r|] eqn:Hr; [|done]. simpl.
  intros Hcall. exists (RunState.replacements r).
  pose (P := λ r : RunState.resolution,
          RunState.replacements r !! "context.pipelineTask.retries"
          = Some (Go.Itoa (PipelineTask.Retries task))
          ∧ ∀ key,
              is_Some (RunState.replacements r !! key) →
              key = "context.pipelineTask.retries"
              ∨ ∃ p, p ∈ RunState.filterMatrixContextVar (PipelineTask.Params task)
                     ∧ (key = RunState.matrixLengthKey (Param_ParseTaskandResultName p).1
                        ∨ key = RunState.matrixResultLengthKey
                                  (Param_ParseTaskandResultName p).1
                                  (Param_ParseTaskandResultName p).2)).
  assert (P r) as Hkeys.
  { unfold RunState.taskContextReplacements in Hr.
    apply (foldM_invariant P) in Hr; [done| |].
    - intros p r1 r2 Hp [Hretries Hkeys] Hstep. split.
      + rewrite (ContextFacts.resolveMatrixContext_other _ _ _ _ _ _ Hstep); [done| |].
        * intros Heq. by apply (ContextFacts.matrixLengthKey_ne_retries
                                  (Param_ParseTaskandResultName p).1).
        * intros Heq. by apply (ContextFacts.matrixResultLengthKey_ne_retries
                                  (Param_ParseTaskandResultName p).1
                                  (Param_ParseTaskandResultName p).2).
      + intros key Hkey.
        destruct (decide (key = RunState.matrixLengthKey
                                  (Param_ParseTaskandResultName p).1)) as [->|Hk1];
          [right; exists p; by auto|].
        destruct (decide (key = RunState.matrixResultLengthKey
                                  (Param_ParseTaskandResultName p).1
                                  (Param_ParseTaskandResultName p).2)) as [->|Hk2];
          [right; exists p; by auto|].
        apply Hkeys.
        by rewrite <- (ContextFacts.resolveMatrixContext_other _ _ _ _ _ _ Hstep).
    - split; [by apply lookup_singleton_eq|].
      intros key [x Hx]. simpl in Hx.
      apply lookup_singleton_Some in Hx as [<- _]. by left. }
  destruct Hkeys as [Hretries Hkeys].
  revert Hcall. destruct (IsMatrixed _); simpl.
  - destruct (PipelineTask.Matrix task) as [m|]; [|done]. simpl.
    intros [= <- <- _ _]. eexists. rewrite lookup_insert_eq. split; [done|].
    simpl. by repeat (split; [done|]).
  - intros [= <- <- _ _]. eexists. rewrite lookup_insert_eq. split; [done|].
    simpl. by repeat (split; [done|]).
Qed.

Lemma task_context_has_the_retries_and_matrix_keys_witness :
  let reference := Param.mk "n" (Reference.stringValue "$(tasks.producer.matrix.digest.length)") in
  let consumer := ReferenceResolvers.task "consumer" "" [reference] None in
  let after :=
    ReferenceResolvers.task "consumer" "" [Param.mk "n" (Reference.stringValue "2")] None in
  ∃ (replacements : gmap string string) (task' : PipelineTask.t),
    ({[ 1%positive := consumer; 2%positive := after ]} : RunState.tasks) !! 2%positive
    = Some task'
    ∧ replacements !! "context.pipelineTask.retries" = Some "0".
Proof.
  intros reference consumer after.
  set (producer :=
         ReferenceResolvers.entry (Some (ReferenceResolvers.task "producer" "" [] None))
           [[("digest", "a")]; [("digest", "b")]] ∅).
  set (cached :=
         ResolvedPipelineTask.setResultsCache {[ "digest" := ["a"; "b"] ]} producer).
  assert (RunState.ApplyPipelineTaskContexts
            (H0 := ReferenceResolvers.substitutionExternals)
            (H1 := ReferenceResolvers.matrixExternals)
            {[ 1%positive := consumer ]} 1%positive
            (PipelineRunStatus.mk ReferenceResolvers.foreign None)
            (Some (PipelineRunFacts.mk [1%positive]))
            {[ 1%positive := producer ]}
          = Some ({[ 1%positive := consumer; 2%positive := after ]}, 2%positive,
                  {[ 1%positive := cached ]}, [1%positive])) as Hcall
    by (vm_compute; reflexivity).
  assert (({[ 1%positive := consumer ]} : RunState.tasks) !! 1%positive = Some consumer)
    as Hpt by (vm_compute; reflexivity).
  destruct (task_context_has_the_retries_and_matrix_keys
              (H0 := ReferenceResolvers.substitutionExternals)
              (H1 := ReferenceResolvers.matrixExternals)
              _ _ _ _ _ _ _ _ _ _ Hpt Hcall)
    as (replacements & task' & Hcopy & _ & _ & Hretries & _).
  by exists replacements, task'.
Defined.

(** X17.  The loop of lines 196-204 writes the key
    [tasks.<name>.matrix.length] and no other.  It does not stop at the
    first task of the name: when the pipeline specification of the status
    has tasks of the name, the key holds the number of combinations of the
    matrix of the last of them.  Without a pipeline specification, or for
    the empty name, nothing is written. *)
Theorem matrix_length_is_that_of_the_last_task `{Foreign} `{!MatrixExternals}
    (pipelineRunStatus : PipelineRunStatus.t) (pipelineTaskName : string)
    (m : gmap string string) :
  (PipelineRunStatus.PipelineSpec_ pipelineRunStatus = None ∨ pipelineTaskName = "" →
   RunState.countCombinations pipelineRunStatus pipelineTaskName m = m)
  ∧ (∀ key,
       key ≠ RunState.matrixLengthKey pipelineTaskName →
       RunState.countCombinations pipelineRunStatus pipelineTaskName m !! key = m !! key)
  ∧ (∀ spec before task after,
       PipelineRunStatus.PipelineSpec_ pipelineRunStatus = Some spec →
       pipelineTaskName ≠ "" →
       PipelineSpec.Tasks spec = before ++ task :: after →
       PipelineTask.Name task = pipelineTaskName →
       (∀ task', task' ∈ after → PipelineTask.Name task' ≠ pipelineTaskName) →
       RunState.countCombinations pipelineRunStatus pipelineTaskName m
         !! RunState.matrixLengthKey pipelineTaskName
       = Some (Go.Itoa (Matrix_CountCombinations (PipelineTask.Matrix task)))).
Proof.
  split; [|split].
  - unfold RunState.countCombinations. intros [->| ->]; [done|].
    destruct (PipelineRunStatus.PipelineSpec_ pipelineRunStatus); [|done].
    by rewrite bool_decide_eq_false_2 by (by intros ?).
  - intros key Hkey. by apply ContextFacts.countCombinations_other.
  - intros spec before task after Hspec Hname Htasks Htask Hafter.
    by eapply ContextFacts.countCombinations_last.
Qed.

Lemma matrix_length_is_that_of_the_last_task_witness :
  let matrix n :=
    Some (Matrix.mk [Param.mk "platform" (Reference.arrayValue (replicate n "p"))] []) in
  let first := ReferenceResolvers.task "build" "" [] (matrix 2%nat) in
  let second := ReferenceResolvers.task "build" "" [] (matrix 3%nat) in
  let status :=
    PipelineRunStatus.mk ReferenceResolvers.foreign
      (Some (PipelineSpec.mk _ [] [first; second] [] [] [])) in
  RunState.countCombinations (H1 := ReferenceResolvers.matrixExternals) status "build" ∅
    !! "tasks.build.matrix.length" = Some "3".
Proof.
  intros matrix first second status.
  apply (proj2 (proj2 (matrix_length_is_that_of_the_last_task
                         (H0 := ReferenceResolvers.matrixExternals) status "build" ∅))
           (PipelineSpec.mk _ [] [first; second] [] [] []) [first] second []);
    try done.
  intros task' Hin. by apply elem_of_nil in Hin.
Defined.

(** X18.  [ApplyPipelineTaskContexts] reads [facts] only for a filtered
    parameter that gives the name of a task and the name of a result
    (line 207).  With [facts] a [nil] pointer, a task in the store and
    [IsMatrixed] reporting as matrixed only tasks that have a matrix, the
    call returns exactly when no filtered parameter gives both names, and
    panics otherwise. *)
Theorem nil_facts_are_read_for_result_lengths `{SubstitutionExternals} `{!MatrixExternals}
    (h : RunState.tasks) (pt : loc) (task : PipelineTask.t)
    (pipelineRunStatus : PipelineRunStatus.t) (runState : RunState.entries) :
  h !! pt = Some task →
  (∀ task, IsMatrixed task = true → is_Some (PipelineTask.Matrix task)) →
  is_Some (RunState.ApplyPipelineTaskContexts h pt pipelineRunStatus None runState)
  ↔ ∀ p, p ∈ RunState.filterMatrixContextVar (PipelineTask.Params task) →
         (Param_ParseTaskandResultName p).1 = ""
         ∨ (Param_ParseTaskandResultName p).2 = "".
Proof.
  intros Hpt Hmatrix.
  rewrite (ContextFacts.ApplyPipelineTaskContexts_returns _ _ _ _ _ _ Hpt Hmatrix).
  unfold RunState.taskContextReplacements. split.
  - intros Hsome p Hp.
    destruct (decide ((Param_ParseTaskandResultName p).1 = "")) as [?|Hn]; [by left|].
    destruct (decide ((Param_ParseTaskandResultName p).2 = "")) as [?|Hr]; [by right|].
    rewrite (foldM_panics _ _ p) in Hsome; [by destruct Hsome|done|].
    intros r. rewrite ContextFacts.resolveMatrixContext_nil.
    by rewrite !bool_decide_eq_true_2.
  - intros Hnames.
    destruct (foldM_returns (λ _, True)
                (RunState.resolveMatrixContext pipelineRunStatus None)
                (RunState.filterMatrixContextVar (PipelineTask.Params task))
                (RunState.mkResolution
                   {[ "context.pipelineTask.retries" :=
                        Go.Itoa (PipelineTask.Retries task) ]} runState []))
      as (r & -> & _); [|done|by eexists].
    intros p r Hp _. rewrite ContextFacts.resolveMatrixContext_nil.
    destruct (Hnames p Hp) as [Hn|Hr].
    + rewrite (bool_decide_eq_false_2 (_.1 ≠ "")) by (by intros ?). by eexists.
    + rewrite (bool_decide_eq_false_2 (_.2 ≠ "")) by (by intros ?).
      rewrite andb_false_r. by eexists.
Qed.

(** X19.  With [facts] a pointer to a run state every pointer of which
    points to an entry with a task, a task in the store and [IsMatrixed]
    reporting as matrixed only tasks that have a matrix,
    [ApplyPipelineTaskContexts] returns, and every pointer of the run
    state still points to an entry with a task. *)
Theorem task_contexts_return_on_a_populated_state `{SubstitutionExternals}
    `{!MatrixExternals}
    (h : RunState.tasks) (pt : loc) (task : PipelineTask.t)
    (pipelineRunStatus : PipelineRunStatus.t) (facts : PipelineRunFacts.t)
    (runState : RunState.entries) :
  h !! pt = Some task →
  (∀ task, IsMatrixed task = true → is_Some (PipelineTask.Matrix task)) →
  (∀ l, l ∈ PipelineRunFacts.State facts →
        ∃ entry task, runState !! l = Some entry
                      ∧ ResolvedPipelineTask.PipelineTask_ entry = Some task) →
  ∃ h' copy state' computed,
    RunState.ApplyPipelineTaskContexts h pt pipelineRunStatus (Some facts) runState
    = Some (h', copy, state', computed)
    ∧ ∀ l, l ∈ PipelineRunFacts.State facts →
           ∃ entry task, (state' : RunState.entries) !! l = Some entry
                         ∧ ResolvedPipelineTask.PipelineTask_ entry = Some task.
Proof.
  intros Hpt Hmatrix Hpopulated.
  destruct (foldM_returns
              (λ r, ∀ l, l ∈ PipelineRunFacts.State facts →
                      ∃ entry task, RunState.state r !! l = Some entry
                                    ∧ ResolvedPipelineTask.PipelineTask_ entry = Some task)
              (RunState.resolveMatrixContext pipelineRunStatus (Some facts))
              (RunState.filterMatrixContextVar (PipelineTask.Params task))
              (RunState.mkResolution
                 {[ "context.pipelineTask.retries" :=
                      Go.Itoa (PipelineTask.Retries task) ]} runState []))
    as (r & Hr & Hpop); [|done|].
  { intros p r _ Hr. by apply ContextFacts.resolveMatrixContext_returns. }
  unfold RunState.ApplyPipelineTaskContexts. rewrite Hpt. simpl.
  unfold RunState.taskContextReplacements. rewrite Hr. simpl.
  destruct (IsMatrixed _) eqn:His; simpl.
  - apply Hmatrix in His as [m Hm]. simpl in Hm. rewrite Hm. simpl. by eexists _, _, _, _.
  - by eexists _, _, _, _.
Qed.

Lemma task_contexts_return_on_a_populated_state_witness :
  let reference := Param.mk "n" (Reference.stringValue "$(tasks.producer.matrix.digest.length)") in
  let consumer := ReferenceResolvers.task "consumer" "" [reference] None in
  let producer :=
    ReferenceResolvers.entry (Some (ReferenceResolvers.task "producer" "" [] None))
      [[("digest", "a")]; [("digest", "b")]] ∅ in
  ∃ h' copy state' computed,
    RunState.ApplyPipelineTaskContexts (H0 := ReferenceResolvers.substitutionExternals)
      (H1 := ReferenceResolvers.matrixExternals)
      {[ 1%positive := consumer ]} 1%positive
      (PipelineRunStatus.mk ReferenceResolvers.foreign None)
      (Some (PipelineRunFacts.mk [1%positive])) {[ 1%positive := producer ]}
    = Some (h', copy, state', computed)
    ∧ ∀ l, l ∈ [1%positive] →
           ∃ entry task, (state' : RunState.entries) !! l = Some entry
                         ∧ ResolvedPipelineTask.PipelineTask_ entry = Some task.
Proof.
  intros reference consumer producer.
  apply (task_contexts_return_on_a_populated_state
           (H0 := ReferenceResolvers.substitutionExternals)
           (H1 := ReferenceResolvers.matrixExternals)
           {[ 1%positive := consumer ]} 1%positive consumer
           (PipelineRunStatus.mk ReferenceResolvers.foreign None)
           (PipelineRunFacts.mk [1%positive]) {[ 1%positive := producer ]}).
  - by vm_compute.
  - intros task His. unfold IsMatrixed in His. simpl in His.
    unfold ReferenceResolvers.isMatrixed in His.
    destruct (PipelineTask.Matrix task); [by eexists|done].
  - intros l Hl. apply list_elem_of_singleton in Hl as ->.
    eexists producer, _. split; [by vm_compute|done].
Defined.

Lemma nil_facts_are_read_for_result_lengths_witness :
  let plain :=
    ReferenceResolvers.task "plain" "try $(context.pipelineTask.retries)" [] None in
  let reference := Param.mk "n" (Reference.stringValue "$(tasks.producer.matrix.digest.length)") in
  let consumer := ReferenceResolvers.task "consumer" "" [reference] None in
  is_Some
    (RunState.ApplyPipelineTaskContexts (H0 := ReferenceResolvers.substitutionExternals)
       (H1 := ReferenceResolvers.matrixExternals)
       {[ 1%positive := plain ]} 1%positive
       (PipelineRunStatus.mk ReferenceResolvers.foreign None) None ∅)
  ∧ RunState.ApplyPipelineTaskContexts (H0 := ReferenceResolvers.substitutionExternals)
      (H1 := ReferenceResolvers.matrixExternals)
      {[ 1%positive := consumer ]} 1%positive
      (PipelineRunStatus.mk ReferenceResolvers.foreign None) None ∅
    = None.
Proof.
  intros plain reference consumer.
  assert (∀ task : PipelineTask.t (H := ReferenceResolvers.foreign),
            IsMatrixed (SubstitutionExternals := ReferenceResolvers.substitutionExternals)
              task = true →
            is_Some (PipelineTask.Matrix task)) as Hmatrix.
  { intros task His. unfold IsMatrixed in His. simpl in His.
    unfold ReferenceResolvers.isMatrixed in His.
    destruct (PipelineTask.Matrix task); [by eexists|done]. }
  split.
  - apply (nil_facts_are_read_for_result_lengths
             (H0 := ReferenceResolvers.substitutionExternals)
             (H1 := ReferenceResolvers.matrixExternals)
             {[ 1%positive := plain ]} 1%positive plain
             (PipelineRunStatus.mk ReferenceResolvers.foreign None) ∅);
      [by vm_compute|done|].
    intros p Hp. by apply elem_of_nil in Hp.
  - apply eq_None_not_Some.
    rewrite (nil_facts_are_read_for_result_lengths
               (H0 := ReferenceResolvers.substitutionExternals)
               (H1 := ReferenceResolvers.matrixExternals)
               {[ 1%positive := consumer ]} 1%positive consumer
               (PipelineRunStatus.mk ReferenceResolvers.foreign None) ∅)
      by (by vm_compute || done).
    intros Hnames. destruct (Hnames reference) as [Hn|Hr].
    + by left.
    + by vm_compute in Hn.
    + by vm_compute in Hr.
Defined.

(** ** Results and artifacts of the task runs *)

Module PropagationFacts.
Import Parameters Propagation.

Lemma map_fold_insert_lookup {A} (g : string → string) (o : gmap string A)
    (key : string) (x : A) :
  (∀ k k', g k = g k' → k = k') →
  map_fold (λ k v (sr : gmap string A), <[g k := v]> sr) ∅ o !! key = Some x
  ↔ ∃ k, key = g k ∧ o !! k = Some x.
Proof.
  intros Hinj. revert key x.
  apply (map_fold_weak_ind
           (λ (r : gmap string A) (m : gmap string A),
              ∀ key x, r !! key = Some x ↔ ∃ k, key = g k ∧ m !! k = Some x)).
  - intros key x. rewrite lookup_empty. split; [done|].
    intros (k & _ & Hk). by rewrite lookup_empty in Hk.
  - intros k v m r Hfresh IH key x. rewrite lookup_insert_Some, IH. split.
    + intros [[<- <-]|[Hne (k' & -> & Hk')]].
      * exists k. by rewrite lookup_insert_eq.
      * exists k'. split; [done|]. rewrite lookup_insert_ne; [done|]. by intros ->.
    + intros (k' & -> & Hk'). apply lookup_insert_Some in Hk' as [[<- <-]|[Hne Hk']].
      * by left.
      * right. split; [|by exists k'].
        intros Heq. by apply Hinj in Heq.
Qed.

Lemma resultAttributeKey_inj taskName name k k' :
  resultAttributeKey taskName name k = resultAttributeKey taskName name k' → k = k'.
Proof.
  unfold resultAttributeKey. intros Heq.
  by do 5 apply WorkspacesFacts.app_inj_l in Heq.
Qed.

Lemma setResultAttributes_lookup taskName name attributes sr key v :
  setResultAttributes taskName name attributes sr !! key = Some v
  ↔ (∃ k, key = resultAttributeKey taskName name k ∧ attributes !! k = Some v)
    ∨ ((∀ k, key = resultAttributeKey taskName name k → attributes !! k = None)
       ∧ sr !! key = Some v).
Proof.
  unfold setResultAttributes.
  rewrite (ParametersFacts.map_fold_insert_union (resultAttributeKey taskName name)).
  rewrite lookup_union_Some_raw.
  rewrite (map_fold_insert_lookup (resultAttributeKey taskName name))
    by apply resultAttributeKey_inj.
  split; (intros [Hw|[Hnone Hsr]]; [by left|right; split; [|done]]).
  - intros k ->. destruct (attributes !! k) as [x|] eqn:Hk; [|done].
    assert (map_fold (λ k v (sr : gmap string string),
                        <[resultAttributeKey taskName name k := v]> sr) ∅ attributes
              !! resultAttributeKey taskName name k = Some x) as Hx.
    { apply map_fold_insert_lookup; [apply resultAttributeKey_inj|]. by exists k. }
    by rewrite Hx in Hnone.
  - destruct (map_fold _ ∅ attributes !! key) as [x|] eqn:Hx; [|done].
    apply map_fold_insert_lookup in Hx as (k & -> & Hk);
      [|apply resultAttributeKey_inj].
    by rewrite (Hnone k eq_refl) in Hk.
Qed.

(** One result: an entry of the map after it is written by the result or
    was there before; what it writes, and what was there, is a key
    after. *)
Lemma bindingResult_Some taskName sr res key v :
  bindingResult taskName sr res !! key = Some v →
  stringWrite taskName res key v ∨ sr !! key = Some v.
Proof.
  unfold bindingResult, stringWrite. destruct (TaskRunResult.Type_ res); auto.
  - intros [[<- <-]|[_ Hsr]]%lookup_insert_Some; auto.
  - intros [Hw|[_ Hsr]]%setResultAttributes_lookup; auto.
Qed.

Lemma bindingResult_is_Some taskName sr res key :
  (∃ v, stringWrite taskName res key v) ∨ is_Some (sr !! key) →
  is_Some (bindingResult taskName sr res !! key).
Proof.
  unfold bindingResult, stringWrite.
  intros [(v & [(Htype & -> & ->)|(Htype & k & -> & Hk)])|[v Hsr]].
  - rewrite Htype, lookup_insert_eq. by eexists.
  - rewrite Htype. exists v. apply setResultAttributes_lookup. left. by exists k.
  - destruct (TaskRunResult.Type_ res); try by eexists.
    + destruct (decide (resultKey taskName (TaskRunResult.Name res) = key)) as [->|Hne].
      * rewrite lookup_insert_eq. by eexists.
      * rewrite lookup_insert_ne by done. by eexists.
    + destruct (setResultAttributes taskName (TaskRunResult.Name res)
                  (ParamValue.ObjectVal (TaskRunResult.Value res)) sr !! key)
        as [x|] eqn:Hx; [by eexists|].
      unfold setResultAttributes in Hx.
      rewrite (ParametersFacts.map_fold_insert_union
                 (resultAttributeKey taskName (TaskRunResult.Name res))) in Hx.
      apply lookup_union_None in Hx as [_ Hx]. by rewrite Hx in Hsr.
Qed.

Section Fold.
Variable A : Type.
(** What one result does to a map, and what it writes. *)
Variable step : string → gmap string A → TaskRunResult.t → gmap string A.
Variable writes : string → TaskRunResult.t → string → A → Prop.
Hypothesis step_Some :
  ∀ taskName m res key x,
    step taskName m res !! key = Some x → writes taskName res key x ∨ m !! key = Some x.
Hypothesis step_is_Some :
  ∀ taskName m res key,
    (∃ x, writes taskName res key x) ∨ is_Some (m !! key) →
    is_Some (step taskName m res !! key).

Lemma results_Some taskName results m key x :
  foldl (step taskName) m results !! key = Some x →
  (∃ res, res ∈ results ∧ writes taskName res key x) ∨ m !! key = Some x.
Proof.
  revert m. induction results as [|res results IH]; intros m; simpl; [by right|].
  intros [(res' & Hin & Hw)|Hm]%IH.
  - left. exists res'. split; [by right|done].
  - apply step_Some in Hm as [Hw|Hm]; [|by right].
    left. exists res. split; [by left|done].
Qed.

Lemma results_is_Some taskName results m key :
  (∃ res x, res ∈ results ∧ writes taskName res key x) ∨ is_Some (m !! key) →
  is_Some (foldl (step taskName) m results !! key).
Proof.
  revert m. induction results as [|res results IH]; intros m; simpl.
  - intros [(res & x & Hin & _)|Hm]; [by apply elem_of_nil in Hin|done].
  - intros [(res' & x & Hin & Hw)|Hm]; apply IH.
    + apply elem_of_cons in Hin as [->|Hin].
      * right. apply step_is_Some. left. by exists x.
      * left. by exists res', x.
    + right. apply step_is_Some. by right.
Qed.

Lemma entries_Some (entries : list (string * list TaskRunResult.t)) m key x :
  foldl (λ m '(taskName, taskResults), foldl (step taskName) m taskResults) m entries
    !! key = Some x →
  (∃ taskName taskResults res,
     (taskName, taskResults) ∈ entries ∧ res ∈ taskResults ∧ writes taskName res key x)
  ∨ m !! key = Some x.
Proof.
  revert m. induction entries as [|[taskName taskResults] entries IH]; intros m; simpl;
    [by right|].
  intros [(t & rs & res & Hin & Hres & Hw)|Hm]%IH.
  - left. exists t, rs, res. split; [by right|done].
  - apply results_Some in Hm as [(res & Hres & Hw)|Hm]; [|by right].
    left. exists taskName, taskResults, res. split; [by left|done].
Qed.

Lemma entries_is_Some (entries : list (string * list TaskRunResult.t)) m key :
  (∃ taskName taskResults res x,
     (taskName, taskResults) ∈ entries ∧ res ∈ taskResults ∧ writes taskName res key x)
  ∨ is_Some (m !! key) →
  is_Some (foldl (λ m '(taskName, taskResults), foldl (step taskName) m taskResults)
             m entries !! key).
Proof.
  revert m. induction entries as [|[taskName taskResults] entries IH]; intros m; simpl.
  - intros [(t & rs & res & x & Hin & _)|Hm]; [by apply elem_of_nil in Hin|done].
  - intros [(t & rs & res & x & Hin & Hres & Hw)|Hm]; apply IH.
    + apply elem_of_cons in Hin as [[= -> ->]|Hin].
      * right. apply results_is_Some. left. by exists res, x.
      * left. by exists t, rs, res, x.
    + right. apply results_is_Some. by right.
Qed.

End Fold.

Lemma bindingReplacements_Some entries key v :
  bindingReplacements entries !! key = Some v →
  ∃ taskName taskResults res,
    (taskName, taskResults) ∈ entries ∧ res ∈ taskResults
    ∧ stringWrite taskName res key v.
Proof.
  intros [?|Hempty]%(entries_Some _ bindingResult stringWrite bindingResult_Some);
    [done|by rewrite lookup_empty in Hempty].
Qed.

Lemma bindingReplacements_is_Some entries taskName taskResults res key v :
  (taskName, taskResults) ∈ entries → res ∈ taskResults →
  stringWrite taskName res key v →
  is_Some (bindingReplacements entries !! key).
Proof.
  intros Hin Hres Hw.
  apply (entries_is_Some _ bindingResult stringWrite bindingResult_is_Some).
  left. by exists taskName, taskResults, res, v.
Qed.

(** The string map of [PropagateResults] is the string map of
    [ApplyResultsToWorkspaceBindings]. *)
Lemma propagatedReplacements_strings entries :
  stringReplacements (propagatedReplacements entries) = bindingReplacements entries.
Proof.
  unfold propagatedReplacements, bindingReplacements.
  assert (∀ m,
            stringReplacements
              (foldl (λ m '(taskName, taskResults),
                        foldl (propagatedResult taskName) m taskResults) m entries)
            = foldl (λ sr '(taskName, taskResults),
                       foldl (bindingResult taskName) sr taskResults)
                    (stringReplacements m) entries) as Hgen; [|apply (Hgen empty)].
  induction entries as [|[taskName taskResults] entries IH]; intros m; simpl; [done|].
  rewrite IH. f_equal. clear IH. revert m.
  induction taskResults as [|res taskResults IH]; intros m; simpl; [done|].
  rewrite IH. f_equal. unfold propagatedResult, bindingResult.
  by destruct (TaskRunResult.Type_ res).
Qed.

Lemma propagatedReplacements_arrays entries :
  arrayReplacements (propagatedReplacements entries)
  = foldl (λ ar '(taskName, taskResults),
             foldl (λ ar res,
                      match TaskRunResult.Type_ res with
                      | ParamTypeArray =>
                          <[resultKey taskName (TaskRunResult.Name res) :=
                              ParamValue.ArrayVal (TaskRunResult.Value res)]> ar
                      | _ => ar
                      end)
                   ar taskResults)
          ∅ entries
  ∧ objectReplacements (propagatedReplacements entries) = ∅.
Proof.
  unfold propagatedReplacements.
  assert (∀ m,
            arrayReplacements
              (foldl (λ m '(taskName, taskResults),
                        foldl (propagatedResult taskName) m taskResults) m entries)
            = foldl (λ ar '(taskName, taskResults),
                       foldl (λ ar res,
                                match TaskRunResult.Type_ res with
                                | ParamTypeArray =>
                                    <[resultKey taskName (TaskRunResult.Name res) :=
                                        ParamValue.ArrayVal (TaskRunResult.Value res)]> ar
                                | _ => ar
                                end)
                             ar taskResults)
                    (arrayReplacements m) entries
            ∧ objectReplacements
                (foldl (λ m '(taskName, taskResults),
                          foldl (propagatedResult taskName) m taskResults) m entries)
              = objectReplacements m) as Hgen; [|apply (Hgen empty)].
  induction entries as [|[taskName taskResults] entries IH]; intros m; simpl; [done|].
  destruct (IH (foldl (propagatedResult taskName) m taskResults)) as [-> ->].
  clear IH.
  assert (arrayReplacements (foldl (propagatedResult taskName) m taskResults)
          = foldl (λ ar res,
                     match TaskRunResult.Type_ res with
                     | ParamTypeArray =>
                         <[resultKey taskName (TaskRunResult.Name res) :=
                             ParamValue.ArrayVal (TaskRunResult.Value res)]> ar
                     | _ => ar
                     end)
                  (arrayReplacements m) taskResults
          ∧ objectReplacements (foldl (propagatedResult taskName) m taskResults)
            = objectReplacements m) as [-> ->]; [|done].
  revert m. induction taskResults as [|res taskResults IH]; intros m; simpl; [done|].
  destruct (IH (propagatedResult taskName m res)) as [-> ->].
  unfold propagatedResult. by destruct (TaskRunResult.Type_ res).
Qed.

Lemma propagatedReplacements_array_Some entries key a :
  arrayReplacements (propagatedReplacements entries) !! key = Some a →
  ∃ taskName taskResults res,
    (taskName, taskResults) ∈ entries ∧ res ∈ taskResults
    ∧ arrayWrite taskName res key a.
Proof.
  rewrite (proj1 (propagatedReplacements_arrays entries)).
  intros [?|Hempty]%(entries_Some _ _ arrayWrite);
    [done|by rewrite lookup_empty in Hempty|].
  intros taskName m res key' x. unfold arrayWrite.
  destruct (TaskRunResult.Type_ res); auto.
  intros [[<- <-]|[_ Hm]]%lookup_insert_Some; auto.
Qed.

Lemma propagatedReplacements_array_is_Some entries taskName taskResults res key a :
  (taskName, taskResults) ∈ entries → res ∈ taskResults →
  arrayWrite taskName res key a →
  is_Some (arrayReplacements (propagatedReplacements entries) !! key).
Proof.
  intros Hin Hres Hw. rewrite (proj1 (propagatedReplacements_arrays entries)).
  apply (entries_is_Some _ _ arrayWrite).
  - intros t m res' key' [(x & Htype & -> & ->)|[x Hm]].
    + rewrite Htype, lookup_insert_eq. by eexists.
    + destruct (TaskRunResult.Type_ res'); try by eexists.
      destruct (decide (resultKey t (TaskRunResult.Name res') = key')) as [->|Hne].
      * rewrite lookup_insert_eq. by eexists.
      * rewrite lookup_insert_ne by done. by eexists.
  - left. by exists taskName, taskResults, res, a.
Qed.

End PropagationFacts.

(** X20.  [ApplyResultsToWorkspaceBindings] substitutes into the workspace
    bindings of the run, and into nothing else of the run, with a string
    map built from the results of the task runs.  In whatever order the
    tasks are visited: every entry of the map is the string of a string
    result under [tasks.<task>.results.<result>] or an attribute of an
    object result under [tasks.<task>.results.<result>.<key>], so that an
    array result gives no entry; every such key is a key of the map; and
    when no two results write different values under one key, the run
    after the call does not depend on the order. *)
Theorem workspace_bindings_see_strings_and_attributes `{PropagationExternals}
    (trResults : list (string * list TaskRunResult.t)) (pr : PipelineRun.t) :
  let sr := Propagation.bindingReplacements trResults in
  let pr' := Propagation.ApplyResultsToWorkspaceBindings trResults pr in
  PipelineRunSpec.Workspaces (PipelineRun.Spec pr')
  = ReplaceWorkspaceBindingsVars (PipelineRunSpec.Workspaces (PipelineRun.Spec pr)) sr
  ∧ PipelineRun.Name pr' = PipelineRun.Name pr
  ∧ PipelineRun.Namespace pr' = PipelineRun.Namespace pr
  ∧ PipelineRun.UID pr' = PipelineRun.UID pr
  ∧ PipelineRunSpec.Params (PipelineRun.Spec pr')
    = PipelineRunSpec.Params (PipelineRun.Spec pr)
  ∧ (∀ key v,
       sr !! key = Some v →
       ∃ taskName taskResults res,
         (taskName, taskResults) ∈ trResults ∧ res ∈ taskResults
         ∧ Propagation.stringWrite taskName res key v)
  ∧ (∀ taskName taskResults res key v,
       (taskName, taskResults) ∈ trResults → res ∈ taskResults →
       Propagation.stringWrite taskName res key v →
       is_Some (sr !! key))
  ∧ (∀ trResults',
       trResults ≡ₚ trResults' →
       (∀ t1 rs1 r1 t2 rs2 r2 key v1 v2,
          (t1, rs1) ∈ trResults → r1 ∈ rs1 →
          (t2, rs2) ∈ trResults → r2 ∈ rs2 →
          Propagation.stringWrite t1 r1 key v1 →
          Propagation.stringWrite t2 r2 key v2 →
          v1 = v2) →
       Propagation.ApplyResultsToWorkspaceBindings trResults' pr = pr').
Proof.
  intros sr pr'. repeat (split; [done|]). split; [|split].
  - apply PropagationFacts.bindingReplacements_Some.
  - apply PropagationFacts.bindingReplacements_is_Some.
  - intros trResults' Hperm Hsame. unfold pr', Propagation.ApplyResultsToWorkspaceBindings.
    f_equal. f_equal. apply map_eq. intros key. apply option_eq. intros v. split.
    + intros (t & rs & res & Hin & Hres & Hw)%PropagationFacts.bindingReplacements_Some.
      rewrite <- Hperm in Hin.
      destruct (PropagationFacts.bindingReplacements_is_Some _ _ _ _ _ _ Hin Hres Hw)
        as [v' Hv'].
      rewrite Hv'. f_equal.
      apply PropagationFacts.bindingReplacements_Some in Hv'
        as (t' & rs' & res' & Hin' & Hres' & Hw').
      by eapply (Hsame t' rs' res' t rs res).
    + intros (t & rs & res & Hin & Hres & Hw)%PropagationFacts.bindingReplacements_Some.
      pose proof Hin as Hin2. rewrite Hperm in Hin2.
      destruct (PropagationFacts.bindingReplacements_is_Some _ _ _ _ _ _ Hin2 Hres Hw)
        as [v' Hv'].
      rewrite Hv'. f_equal.
      apply PropagationFacts.bindingReplacements_Some in Hv'
        as (t' & rs' & res' & Hin' & Hres' & Hw').
      rewrite <- Hperm in Hin'.
      by eapply (Hsame t' rs' res' t rs res).
Qed.

Lemma workspace_bindings_see_strings_and_attributes_witness :
  let results :=
    [("build",
      [TaskRunResult.mk "digest" ParamTypeString (Reference.stringValue "sha256");
       TaskRunResult.mk "files" ParamTypeArray (Reference.arrayValue ["a"; "b"]);
       TaskRunResult.mk "image" ParamTypeObject
         (Reference.objectValue {[ "url" := "registry" ]})])] in
  let pr :=
    PipelineRun.mk "run" "ns" "uid"
      (PipelineRunSpec.mk []
         [WorkspaceBinding.mk "cache"
            "$(tasks.build.results.image.url)/$(tasks.build.results.digest)"]) in
  PipelineRunSpec.Workspaces
    (PipelineRun.Spec
       (Propagation.ApplyResultsToWorkspaceBindings
          (H2 := ReferencePropagation.propagationExternals) results pr))
  = [WorkspaceBinding.mk "cache" "registry/sha256"]
  ∧ Propagation.bindingReplacements results !! "tasks.build.results.files" = None.
Proof.
  intros results pr.
  destruct (workspace_bindings_see_strings_and_attributes
              (H := ReferencePropagation.propagationExternals) results pr)
    as (Hbindings & _ & _ & _ & _ & Hsome & _).
  split.
  - rewrite Hbindings. by vm_compute.
  - destruct (Propagation.bindingReplacements results !! "tasks.build.results.files")
      as [v|] eqn:Hv; [|done].
    by vm_compute in Hv.
Defined.

(** X21.  [PropagateResults] does nothing to an entry without a resolved
    task or whose resolved task has no specification.  Otherwise it
    replaces the specification by its substitution with a string map, an
    array map and an empty object map.  The string map is the one that
    [ApplyResultsToWorkspaceBindings] builds from the same results; every
    entry of the array map is the array of an array result under
    [tasks.<task>.results.<result>], and every such key is a key of it.
    So an array result is propagated as a whole and not by index, and an
    object result by its attributes and not as a whole. *)
Theorem results_are_propagated_as_strings_and_arrays `{SubstitutionExternals}
    (resolvedTask : option ResolvedTask.t)
    (taskRunsResults : list (string * list TaskRunResult.t)) :
  (resolvedTask = None → Propagation.PropagateResults resolvedTask taskRunsResults = None)
  ∧ (∀ task,
       resolvedTask = Some task → ResolvedTask.TaskSpec_ task = None →
       Propagation.PropagateResults resolvedTask taskRunsResults = Some task)
  ∧ (∀ task spec,
       resolvedTask = Some task → ResolvedTask.TaskSpec_ task = Some spec →
       ∃ ar : gmap string (list string),
         Propagation.PropagateResults resolvedTask taskRunsResults
         = Some (ResolvedTask.mk _
                   (Some (resources_ApplyReplacements spec
                            (Propagation.bindingReplacements taskRunsResults) ar ∅)))
         ∧ (∀ key a,
              ar !! key = Some a →
              ∃ taskName taskResults res,
                (taskName, taskResults) ∈ taskRunsResults ∧ res ∈ taskResults
                ∧ Propagation.arrayWrite taskName res key a)
         ∧ (∀ taskName taskResults res key a,
              (taskName, taskResults) ∈ taskRunsResults → res ∈ taskResults →
              Propagation.arrayWrite taskName res key a →
              is_Some (ar !! key))).
Proof.
  split; [by intros ->|]. split.
  - intros task -> Hspec. unfold Propagation.PropagateResults. by rewrite Hspec.
  - intros task spec -> Hspec. unfold Propagation.PropagateResults. rewrite Hspec.
    exists (Parameters.arrayReplacements (Propagation.propagatedReplacements taskRunsResults)).
    rewrite PropagationFacts.propagatedReplacements_strings. split; [done|]. split.
    + apply PropagationFacts.propagatedReplacements_array_Some.
    + apply PropagationFacts.propagatedReplacements_array_is_Some.
Qed.

Lemma results_are_propagated_as_strings_and_arrays_witness :
  let results :=
    [("build",
      [TaskRunResult.mk "digest" ParamTypeString (Reference.stringValue "sha256");
       TaskRunResult.mk "files" ParamTypeArray (Reference.arrayValue ["a"; "b"])])] in
  let task := ResolvedTask.mk ReferenceResolvers.foreign
                (Some "echo $(tasks.build.results.digest)") in
  Propagation.PropagateResults (H0 := ReferenceResolvers.substitutionExternals)
    (Some task) results
  = Some (ResolvedTask.mk ReferenceResolvers.foreign (Some "echo sha256")).
Proof.
  intros results task.
  destruct (proj2 (proj2 (results_are_propagated_as_strings_and_arrays
                            (H0 := ReferenceResolvers.substitutionExternals)
                            (Some task) results))
              task "echo $(tasks.build.results.digest)" eq_refl eq_refl)
    as (ar & -> & _).
  by vm_compute.
Defined.

Module ArtifactFacts.
Import Propagation.

Section WithExternals.
Context `{PropagationExternals}.

(** A loop over artifacts stops with an error exactly when the values of
    one of them cannot be encoded. *)
Lemma bindArtifacts_error taskName kind i artifacts sr :
  (∃ err, bindArtifacts taskName kind i artifacts sr = inl err)
  ↔ ∃ a, a ∈ artifacts ∧ ∃ err, json_Marshal (Artifact.Values a) = inl err.
Proof.
  revert i sr. induction artifacts as [|a artifacts IH]; intros i sr; simpl.
  - split; [by intros [? ?]|]. intros (a & Hin & _). by apply elem_of_nil in Hin.
  - destruct (json_Marshal (Artifact.Values a)) as [err|b] eqn:Hm.
    + split; intros _; [|by eexists]. exists a. split; [by left|by eexists].
    + rewrite IH. split; intros (a' & Hin & Herr).
      * exists a'. split; [by right|done].
      * apply elem_of_cons in Hin as [->|Hin]; [|by exists a'].
        destruct Herr as [err Herr]. congruence.
Qed.

Lemma bindArtifacts_Some taskName kind i artifacts sr sr' key v :
  bindArtifacts taskName kind i artifacts sr = inr sr' →
  sr' !! key = Some v →
  (∃ j a, artifacts !! j = Some a ∧ artifactWrite taskName kind (i + j) a key v)
  ∨ sr !! key = Some v.
Proof.
  revert i sr. induction artifacts as [|a artifacts IH]; intros i sr; simpl.
  { intros [= <-]. by right. }
  destruct (json_Marshal (Artifact.Values a)) as [err|b] eqn:Hm; [done|].
  intros Hrest Hkey.
  destruct (IH _ _ Hrest Hkey) as [(j & a' & Hj & Hw)|Hsr].
  { left. exists (S j), a'. split; [done|]. by rewrite Nat.add_succ_r. }
  assert (<[artifactKey taskName kind (Artifact.Name a) := b]> sr !! key = Some v
          ∨ (key = firstArtifactKey taskName kind ∧ v = b ∧ i = 0%nat)) as [Hsr'|Hfirst].
  { revert Hsr. case_bool_decide; [|by left].
    intros [[<- <-]|[_ Hsr]]%lookup_insert_Some; [by right|by left]. }
  - apply lookup_insert_Some in Hsr' as [[<- <-]|[_ Hsr']]; [|by right].
    left. exists 0%nat, a. split; [done|]. split; [done|]. by left.
  - destruct Hfirst as (-> & -> & ->). left. exists 0%nat, a.
    split; [done|]. split; [done|]. by right.
Qed.

Lemma bindArtifacts_is_Some taskName kind i artifacts sr sr' key :
  bindArtifacts taskName kind i artifacts sr = inr sr' →
  (∃ j a v, artifacts !! j = Some a ∧ artifactWrite taskName kind (i + j) a key v)
  ∨ is_Some (sr !! key) →
  is_Some (sr' !! key).
Proof.
  revert i sr. induction artifacts as [|a artifacts IH]; intros i sr; simpl.
  { intros [= <-] [(j & a & v & Hj & _)|Hsr]; [done|done]. }
  destruct (json_Marshal (Artifact.Values a)) as [err|b] eqn:Hm; [done|].
  intros Hrest Hkey. apply (IH _ _ Hrest).
  assert (∀ m : gmap string string,
            is_Some (m !! key) →
            is_Some ((if bool_decide (i = 0%nat)
                      then <[firstArtifactKey taskName kind := b]> m else m) !! key))
    as Hkeep.
  { intros m Hm'. case_bool_decide; [|done].
    destruct (decide (firstArtifactKey taskName kind = key)) as [->|Hne].
    - rewrite lookup_insert_eq. by eexists.
    - by rewrite lookup_insert_ne. }
  destruct Hkey as [(j & a' & v & Hj & Hw)|Hsr].
  - destruct j as [|j]; simpl in Hj.
    + right. simplify_eq. destruct Hw as [Hb [->|[-> Hi]]].
      * apply Hkeep. rewrite lookup_insert_eq. by eexists.
      * rewrite Nat.add_0_r in Hi. subst i. rewrite bool_decide_eq_true_2 by done.
        rewrite lookup_insert_eq. by eexists.
    + left. exists j, a', v. split; [done|]. by rewrite Nat.add_succ_r in Hw.
  - right. apply Hkeep.
    destruct (decide (artifactKey taskName kind (Artifact.Name a) = key)) as [->|Hne].
    + rewrite lookup_insert_eq. by eexists.
    + by rewrite lookup_insert_ne.
Qed.

Lemma bindTaskArtifacts_error taskName artifacts sr :
  (∃ err, bindTaskArtifacts taskName artifacts sr = inl err)
  ↔ ∃ arts a, artifacts = Some arts
              ∧ a ∈ Artifacts.Inputs arts ++ Artifacts.Outputs arts
              ∧ ∃ err, json_Marshal (Artifact.Values a) = inl err.
Proof.
  unfold bindTaskArtifacts. destruct artifacts as [arts|].
  - destruct (bindArtifacts taskName "inputs" 0 (Artifacts.Inputs arts) sr)
      as [err|sr1] eqn:Hinputs.
    + split; [|by eexists]. intros _.
      destruct (proj1 (bindArtifacts_error _ _ _ _ _) (ex_intro _ err Hinputs))
        as (a & Hin & Herr).
      exists arts, a. split; [done|]. split; [|done]. apply elem_of_app. by left.
    + rewrite bindArtifacts_error. split.
      * intros (a & Hin & Herr). exists arts, a. split; [done|]. split; [|done].
        apply elem_of_app. by right.
      * intros (arts' & a & [= <-] & Hin & Herr). apply elem_of_app in Hin as [Hin|Hin].
        -- destruct (proj2 (bindArtifacts_error taskName "inputs" 0
                              (Artifacts.Inputs arts) sr)) as [err Herr'];
             [by exists a|congruence].
        -- by exists a.
  - split; [by intros [? ?]|]. by intros (arts & a & ? & _).
Qed.

Lemma bindTaskArtifacts_Some taskName artifacts sr sr' key v :
  bindTaskArtifacts taskName artifacts sr = inr sr' →
  sr' !! key = Some v →
  (∃ arts, artifacts = Some arts ∧ taskArtifactWrite taskName arts key v)
  ∨ sr !! key = Some v.
Proof.
  unfold bindTaskArtifacts. destruct artifacts as [arts|]; [|intros [= <-]; by right].
  destruct (bindArtifacts taskName "inputs" 0 (Artifacts.Inputs arts) sr)
    as [err|sr1] eqn:Hinputs; [done|].
  intros Houtputs Hkey.
  destruct (bindArtifacts_Some _ _ _ _ _ _ _ _ Houtputs Hkey) as [(j & a & Hj & Hw)|Hsr1].
  { left. exists arts. split; [done|]. exists j, a. by right. }
  destruct (bindArtifacts_Some _ _ _ _ _ _ _ _ Hinputs Hsr1) as [(j & a & Hj & Hw)|Hsr];
    [|by right].
  left. exists arts. split; [done|]. exists j, a. by left.
Qed.

Lemma bindTaskArtifacts_is_Some taskName artifacts sr sr' key :
  bindTaskArtifacts taskName artifacts sr = inr sr' →
  (∃ arts v, artifacts = Some arts ∧ taskArtifactWrite taskName arts key v)
  ∨ is_Some (sr !! key) →
  is_Some (sr' !! key).
Proof.
  unfold bindTaskArtifacts. destruct artifacts as [arts|].
  - destruct (bindArtifacts taskName "inputs" 0 (Artifacts.Inputs arts) sr)
      as [err|sr1] eqn:Hinputs; [done|].
    intros Houtputs Hkey. apply (bindArtifacts_is_Some _ _ _ _ _ _ _ Houtputs).
    destruct Hkey as [(arts' & v & [= <-] & j & a & [[Hj Hw]|[Hj Hw]])|Hsr].
    + right. apply (bindArtifacts_is_Some _ _ _ _ _ _ _ Hinputs). left. by exists j, a, v.
    + left. by exists j, a, v.
    + right. apply (bindArtifacts_is_Some _ _ _ _ _ _ _ Hinputs). by right.
  - intros [= <-] [(arts & v & ? & _)|Hsr]; done.
Qed.

Lemma artifactReplacements_error entries sr :
  (∃ err, artifactReplacements entries sr = inl err)
  ↔ ∃ taskName arts a,
      (taskName, Some arts) ∈ entries
      ∧ a ∈ Artifacts.Inputs arts ++ Artifacts.Outputs arts
      ∧ ∃ err, json_Marshal (Artifact.Values a) = inl err.
Proof.
  revert sr. induction entries as [|[taskName artifacts] entries IH]; intros sr; simpl.
  - split; [by intros [? ?]|]. intros (t & arts & a & Hin & _).
    by apply elem_of_nil in Hin.
  - destruct (bindTaskArtifacts taskName artifacts sr) as [err|sr1] eqn:Hone.
    + split; [|by eexists]. intros _.
      destruct (proj1 (bindTaskArtifacts_error _ _ _) (ex_intro _ err Hone))
        as (arts & a & -> & Hin & Herr).
      exists taskName, arts, a. split; [by left|done].
    + rewrite IH. split; intros (t & arts & a & Hin & Ha & Herr).
      * exists t, arts, a. split; [by right|done].
      * apply elem_of_cons in Hin as [[= -> <-]|Hin]; [|by exists t, arts, a].
        destruct (proj2 (bindTaskArtifacts_error taskName (Some arts) sr))
          as [err Herr']; [by exists arts, a|congruence].
Qed.

Lemma artifactReplacements_Some entries sr sr' key v :
  artifactReplacements entries sr = inr sr' →
  sr' !! key = Some v →
  (∃ taskName arts, (taskName, Some arts) ∈ entries ∧ taskArtifactWrite taskName arts key v)
  ∨ sr !! key = Some v.
Proof.
  revert sr. induction entries as [|[taskName artifacts] entries IH]; intros sr; simpl.
  { intros [= <-]. by right. }
  destruct (bindTaskArtifacts taskName artifacts sr) as [err|sr1] eqn:Hone; [done|].
  intros Hrest Hkey.
  destruct (IH _ Hrest Hkey) as [(t & arts & Hin & Hw)|Hsr1].
  { left. exists t, arts. split; [by right|done]. }
  destruct (bindTaskArtifacts_Some _ _ _ _ _ _ Hone Hsr1) as [(arts & -> & Hw)|Hsr];
    [|by right].
  left. exists taskName, arts. split; [by left|done].
Qed.

Lemma artifactReplacements_is_Some entries sr sr' key :
  artifactReplacements entries sr = inr sr' →
  (∃ taskName arts v,
     (taskName, Some arts) ∈ entries ∧ taskArtifactWrite taskName arts key v)
  ∨ is_Some (sr !! key) →
  is_Some (sr' !! key).
Proof.
  revert sr. induction entries as [|[taskName artifacts] entries IH]; intros sr; simpl.
  { intros [= <-] [(t & arts & v & Hin & _)|Hsr]; [by apply elem_of_nil in Hin|done]. }
  destruct (bindTaskArtifacts taskName artifacts sr) as [err|sr1] eqn:Hone; [done|].
  intros Hrest Hkey. apply (IH _ Hrest).
  destruct Hkey as [(t & arts & v & Hin & Hw)|Hsr].
  - apply elem_of_cons in Hin as [[= -> <-]|Hin].
    + right. apply (bindTaskArtifacts_is_Some _ _ _ _ _ Hone). left. by exists arts, v.
    + left. by exists t, arts, v.
  - right. apply (bindTaskArtifacts_is_Some _ _ _ _ _ Hone). by right.
Qed.

End WithExternals.
End ArtifactFacts.

(** X22.  [PropagateArtifacts] does nothing, and returns no error, for an
    entry without a resolved task or whose resolved task has no
    specification.  Otherwise, in whatever order the tasks are visited, it
    returns an error exactly when the values of an input or of an output
    of a task cannot be encoded, and it then leaves the resolved task as it
    was.  When it returns no error it replaces the specification by its
    substitution with a string map alone: every entry of the map is the
    encoding of the values of an artifact, under
    [tasks.<task>.inputs.<name>] or [tasks.<task>.outputs.<name>], or under
    [tasks.<task>.inputs] or [tasks.<task>.outputs] for the first input or
    output of the task; and every such key is a key of the map. *)
Theorem artifacts_are_propagated_or_the_call_fails `{SubstitutionExternals}
    `{!PropagationExternals}
    (resolvedTask : option ResolvedTask.t)
    (taskRunsArtifacts : list (string * option Artifacts.t)) :
  (resolvedTask = None →
   Propagation.PropagateArtifacts resolvedTask taskRunsArtifacts = (None, None))
  ∧ (∀ task,
       resolvedTask = Some task → ResolvedTask.TaskSpec_ task = None →
       Propagation.PropagateArtifacts resolvedTask taskRunsArtifacts = (Some task, None))
  ∧ (∀ task spec,
       resolvedTask = Some task → ResolvedTask.TaskSpec_ task = Some spec →
       let out := Propagation.PropagateArtifacts resolvedTask taskRunsArtifacts in
       (is_Some out.2
        ↔ ∃ taskName arts a,
            (taskName, Some arts) ∈ taskRunsArtifacts
            ∧ a ∈ Artifacts.Inputs arts ++ Artifacts.Outputs arts
            ∧ ∃ err, json_Marshal (Artifact.Values a) = inl err)
       ∧ (is_Some out.2 → out.1 = Some task)
       ∧ (out.2 = None →
          ∃ sr : gmap string string,
            out.1 = Some (ResolvedTask.mk _
                            (Some (resources_ApplyReplacements spec sr ∅ ∅)))
            ∧ (∀ key v,
                 sr !! key = Some v →
                 ∃ taskName arts,
                   (taskName, Some arts) ∈ taskRunsArtifacts
                   ∧ Propagation.taskArtifactWrite taskName arts key v)
            ∧ (∀ taskName arts key v,
                 (taskName, Some arts) ∈ taskRunsArtifacts →
                 Propagation.taskArtifactWrite taskName arts key v →
                 is_Some (sr !! key)))).
Proof.
  split; [by intros ->|]. split.
  { intros task -> Hspec. unfold Propagation.PropagateArtifacts. by rewrite Hspec. }
  intros task spec -> Hspec out. unfold out, Propagation.PropagateArtifacts.
  rewrite Hspec.
  pose proof (ArtifactFacts.artifactReplacements_error taskRunsArtifacts ∅) as Herror.
  destruct (Propagation.artifactReplacements taskRunsArtifacts ∅) as [err|sr] eqn:Hsr;
    simpl.
  - split; [|split; [done|done]]. rewrite <- Herror. split; by eexists.
  - split; [|split; [by intros [? ?]|]].
    + rewrite <- Herror. split; [by intros [? ?]|by intros [? ?]].
    + intros _. exists sr. split; [done|]. split.
      * intros key v Hkey.
        destruct (ArtifactFacts.artifactReplacements_Some _ _ _ _ _ Hsr Hkey)
          as [?|Hempty]; [done|by rewrite lookup_empty in Hempty].
      * intros taskName arts key v Hin Hw.
        apply (ArtifactFacts.artifactReplacements_is_Some _ _ _ _ Hsr).
        left. by exists taskName, arts, v.
Qed.

Lemma artifacts_are_propagated_or_the_call_fails_witness :
  let task := ResolvedTask.mk ReferenceResolvers.foreign
                (Some "fetch $(tasks.build.inputs)") in
  let refused :=
    Artifact.mk ReferencePropagation.propagationExternals "source" [Some "git"; None] in
  let artifacts :=
    [("build", Some (Artifacts.mk ReferencePropagation.propagationExternals [refused] []))] in
  (Propagation.PropagateArtifacts (H0 := ReferenceResolvers.substitutionExternals)
     (H2 := ReferencePropagation.propagationExternals) (Some task) artifacts).1
  = Some task.
Proof.
  intros task refused artifacts.
  destruct (proj2 (proj2 (artifacts_are_propagated_or_the_call_fails
                            (H0 := ReferenceResolvers.substitutionExternals)
                            (H1 := ReferencePropagation.propagationExternals)
                            (Some task) artifacts))
              task "fetch $(tasks.build.inputs)" eq_refl eq_refl)
    as (Herror & Hkept & _).
  apply Hkept, Herror.
  exists "build", (Artifacts.mk ReferencePropagation.propagationExternals [refused] []),
    refused.
  split; [by left|]. split; [by left|]. by eexists.
Defined.

(** ** The display names under [ApplyContexts] *)

(** X23.  [GetContextReplacements] has the four keys of the context of the
    run and of the pipeline, with the name, the namespace and the UID of
    the run and the name of the pipeline passed.  [ApplyContexts]
    substitutes them into the display name of every task and final task,
    the matrixed ones among them: in the copy it returns, the display name
    of a task that [IsMatrixed] reports as matrixed is substituted once (by
    the loops of lines 150-155), and that of any other task twice (again
    by [ApplyReplacements]). *)
Theorem ApplyContexts_substitutes_every_display_name `{SubstitutionExternals} `{!GoQuote}
    (h : Resolvers.specs) (spec : loc) (s : PipelineSpec.t) (pipelineName : string)
    (pr : PipelineRun.t) :
  h !! spec = Some s →
  let m := Resolvers.GetContextReplacements pipelineName pr in
  (∀ key v,
     m !! key = Some v
     ↔ (key = "context.pipelineRun.name" ∧ v = PipelineRun.Name pr)
       ∨ (key = "context.pipeline.name" ∧ v = pipelineName)
       ∨ (key = "context.pipelineRun.namespace" ∧ v = PipelineRun.Namespace pr)
       ∨ (key = "context.pipelineRun.uid" ∧ v = PipelineRun.UID pr))
  ∧ ∀ h' copy s',
      Resolvers.ApplyContexts h spec pipelineName pr = Some (h', copy) →
      h' !! copy = Some s' →
      ∀ tasks tasks',
        (tasks = PipelineSpec.Tasks s ∧ tasks' = PipelineSpec.Tasks s')
        ∨ (tasks = PipelineSpec.Finally s ∧ tasks' = PipelineSpec.Finally s') →
        ∀ i t,
          tasks !! i = Some t →
          let once := substitution_ApplyReplacements (PipelineTask.DisplayName t) m in
          ∃ t',
            tasks' !! i = Some t'
            ∧ PipelineTask.DisplayName t'
              = if IsMatrixed
                     (PipelineTask.setParams
                        (Params_ReplaceVariables (PipelineTask.Params t) m
                           (Some ∅) (Some ∅))
                        (PipelineTask.setDisplayName once t))
                then once
                else substitution_ApplyReplacements once m.
Proof.
  intros Hspec m. split.
  - intros key v. unfold m, Resolvers.GetContextReplacements.
    rewrite !lookup_insert_Some, lookup_empty. split.
    + intros [[<- <-]|[? [[<- <-]|[? [[<- <-]|[? [[<- <-]|[? ?]]]]]]]]; auto 6; done.
    + intros [[-> ->]|[[-> ->]|[[-> ->]|[-> ->]]]]; auto 10.
  - intros h' copy s'. unfold Resolvers.ApplyContexts. rewrite Hspec. simpl.
    unfold Resolvers.ApplyReplacements. rewrite lookup_insert_eq. simpl.
    fold m.
    destruct (Resolvers.replaceVariablesInPipelineTasks
                (Resolvers.replaceDisplayNames m (PipelineSpec.Tasks s)) m ∅ ∅)
      as [tasks1|] eqn:Htasks; [|done]. simpl.
    destruct (Resolvers.replaceVariablesInPipelineTasks
                (Resolvers.replaceDisplayNames m (PipelineSpec.Finally s)) m ∅ ∅)
      as [finally1|] eqn:Hfinally; [|done]. simpl.
    intros [= <- <-]. rewrite lookup_insert_eq. intros [= <-]. simpl.
    assert (∀ (tasks tasks1 : list PipelineTask.t) i t,
              Resolvers.replaceVariablesInPipelineTasks
                (Resolvers.replaceDisplayNames m tasks) m ∅ ∅ = Some tasks1 →
              tasks !! i = Some t →
              ∃ t',
                tasks1 !! i = Some t'
                ∧ PipelineTask.DisplayName t'
                  = if IsMatrixed
                         (PipelineTask.setParams
                            (Params_ReplaceVariables (PipelineTask.Params t) m
                               (Some ∅) (Some ∅))
                            (PipelineTask.setDisplayName
                               (substitution_ApplyReplacements
                                  (PipelineTask.DisplayName t) m) t))
                    then substitution_ApplyReplacements (PipelineTask.DisplayName t) m
                    else substitution_ApplyReplacements
                           (substitution_ApplyReplacements
                              (PipelineTask.DisplayName t) m) m) as Heach.
    { intros tasks tasks2 i t Hcall Hi.
      apply CopyFacts.replaceVariablesInPipelineTasks_lookup in Hcall as [_ Hcall].
      destruct (Hcall i (PipelineTask.setDisplayName
                           (substitution_ApplyReplacements
                              (PipelineTask.DisplayName t) m) t))
        as (t' & Hi' & Ht').
      { unfold Resolvers.replaceDisplayNames. by rewrite list_lookup_fmap, Hi. }
      exists t'. split; [done|].
      apply CopyFacts.replaceVariablesInPipelineTask_fields in Ht' as (_ & _ & Ht').
      simpl in Ht'.
      destruct (IsMatrixed _); [by destruct Ht' as [-> _]|by destruct Ht' as [-> _]]. }
    intros tasks tasks' [[-> ->]|[-> ->]] i t Hi; by eapply Heach.
Qed.

Lemma ApplyContexts_substitutes_every_display_name_witness :
  let matrix := Matrix.mk [Param.mk "platform" (Reference.arrayValue ["linux"; "mac"])] [] in
  let plain : PipelineTask.t (H := ReferenceResolvers.foreign) :=
    ReferenceResolvers.task "build" "$(context.pipeline.name)" [] None in
  let matrixed := ReferenceResolvers.task "test" "$(context.pipeline.name)" [] (Some matrix) in
  let spec : PipelineSpec.t (H := ReferenceResolvers.foreign) :=
    PipelineSpec.mk _ [] [plain; matrixed] [] [] [] in
  let pr := PipelineRun.mk "run" "ns" "uid" (PipelineRunSpec.mk [] []) in
  let h : Resolvers.specs := {[ 1%positive := spec ]} in
  ∃ h' s' t1 t2,
    Resolvers.ApplyContexts (H0 := ReferenceResolvers.substitutionExternals)
      (H1 := ReferenceResolvers.goQuote) h 1%positive "$(context.pipelineRun.uid)" pr
    = Some (h', 2%positive)
    ∧ h' !! 2%positive = Some s'
    ∧ PipelineSpec.Tasks s' !! 0%nat = Some t1
    ∧ PipelineTask.DisplayName t1 = "uid"
    ∧ PipelineSpec.Tasks s' !! 1%nat = Some t2
    ∧ PipelineTask.DisplayName t2 = "$(context.pipelineRun.uid)".
Proof.
  intros matrix plain matrixed spec pr h.
  destruct (Resolvers.ApplyContexts (H0 := ReferenceResolvers.substitutionExternals)
              (H1 := ReferenceResolvers.goQuote) h 1%positive
              "$(context.pipelineRun.uid)" pr) as [[h' copy]|] eqn:Hcall;
    [|by vm_compute in Hcall].
  assert (copy = 2%positive) as -> by (vm_compute in Hcall; congruence).
  destruct (h' !! 2%positive) as [s'|] eqn:Hcopy;
    [|by (assert (is_Some (h' !! 2%positive)) as [? ?]
            by (vm_compute in Hcall; injection Hcall as <-; by vm_compute);
          congruence)].
  pose proof (proj2 (ApplyContexts_substitutes_every_display_name
                       (H0 := ReferenceResolvers.substitutionExternals)
                       (H1 := ReferenceResolvers.goQuote)
                       h 1%positive spec "$(context.pipelineRun.uid)" pr eq_refl)
                h' 2%positive s' Hcall Hcopy
                [plain; matrixed] (PipelineSpec.Tasks s')
                (or_introl (conj eq_refl eq_refl))) as Heach.
  destruct (Heach 0%nat plain eq_refl) as (t1 & Ht1 & Hname1).
  destruct (Heach 1%nat matrixed eq_refl) as (t2 & Ht2 & Hname2).
  exists h', s', t1, t2. repeat split; [done..| |done|]; [exact Hname1 | exact Hname2].
Defined.

(** ** What the substitutions into the run state keep *)

Module KeptFacts.
Import RunState.

Section WithForeign.
Context `{Foreign}.

Variable kept : PipelineTask.t → PipelineTask.t → Prop.
Hypothesis kept_refl : ∀ t, kept t t.
Hypothesis kept_trans : ∀ t1 t2 t3, kept t1 t2 → kept t2 t3 → kept t1 t3.

(** The loop over the entries, for a body that keeps a relation between a
    task and its substituted copy: whatever the targets are, and however
    often one of them is listed, the entries that are not targets are
    untouched, no entry is added or removed, and every entry keeps its task
    runs and its cache; its task, if it has one, is related to the one it
    had. *)
Lemma updateEntries_keep (body : PipelineTask.t → option PipelineTask.t)
    (targets : PipelineRunState) :
  (∀ t t', body t = Some t' → kept t t') →
  ∀ state state' : entries,
    foldM (updateEntry body) targets state = Some state' →
    (∀ l, l ∉ targets → state' !! l = state !! l)
    ∧ (∀ l, state !! l = None → state' !! l = None)
    ∧ ∀ l entry,
        state !! l = Some entry →
        ∃ entry',
          state' !! l = Some entry'
          ∧ ResolvedPipelineTask.TaskRuns_ entry' = ResolvedPipelineTask.TaskRuns_ entry
          ∧ ResolvedPipelineTask.ResultsCache entry'
            = ResolvedPipelineTask.ResultsCache entry
          ∧ option_Forall2 kept (ResolvedPipelineTask.PipelineTask_ entry)
              (ResolvedPipelineTask.PipelineTask_ entry').
Proof.
  intros Hbody. induction targets as [|target targets IH]; intros state state'; simpl.
  - intros [= <-]. split; [done|]. split; [done|]. intros l entry Hl.
    exists entry. split; [done|]. split; [done|]. split; [done|].
    destruct (ResolvedPipelineTask.PipelineTask_ entry); constructor. apply kept_refl.
  - destruct (updateEntry body target state) as [state1|] eqn:Hstep; [|done].
    intros Hrest. apply IH in Hrest as (Hother & Hnone & Hentry).
    unfold updateEntry in Hstep.
    destruct (state !! target) as [current|] eqn:Htarget; [|done]. simpl in Hstep.
    destruct (ResolvedPipelineTask.PipelineTask_ current) as [task|] eqn:Htask.
    + destruct (body task) as [task'|] eqn:Hcall; [|done]. simpl in Hstep.
      injection Hstep as <-. split; [|split].
      * intros l Hl. rewrite Hother by (intros ?; apply Hl; by right).
        apply lookup_insert_ne. intros ->. apply Hl. by left.
      * intros l Hl. apply Hnone. rewrite lookup_insert_ne; [done|]. congruence.
      * intros l entry Hl. destruct (decide (l = target)) as [->|Hne].
        -- rewrite Htarget in Hl. injection Hl as <-.
           destruct (Hentry target
                       (ResolvedPipelineTask.setPipelineTask (Some task') current))
             as (entry' & Hl' & Hruns & Hcache & Hkept);
             [apply lookup_insert_eq|].
           exists entry'. split; [done|]. split; [done|]. split; [done|].
           simpl in Hkept. rewrite Htask. inversion Hkept as [? t3 Hk|]; subst.
           constructor. eapply kept_trans; [by apply Hbody|done].
        -- apply Hentry. by rewrite lookup_insert_ne.
    + injection Hstep as <-. split; [|split].
      * intros l Hl. apply Hother. intros ?. apply Hl. by right.
      * done.
      * done.
Qed.

End WithForeign.
End KeptFacts.

(** X24.  What [ApplyTaskResults] and [ApplyPipelineTaskStateContext] leave
    alone when they return, for any targets, also when an entry is listed
    more than once: an entry that is not a target is untouched, no entry is
    added, and every entry keeps its task runs and its cache of results,
    and has a task after the call exactly when it had one before.  The
    task of an entry keeps its name, its retries, its embedded
    specification and its [OnError]; under [ApplyPipelineTaskStateContext]
    it keeps its matrix and its workspaces as well. *)
Theorem substitutions_into_the_state_keep_the_rest `{SubstitutionExternals}
    (targets : PipelineRunState) (resolvedResultRefs : ResolvedResultRefs)
    (replacements : gmap string string) (state state' : RunState.entries) :
  let keeps (kept : PipelineTask.t → PipelineTask.t → Prop) :=
    (∀ l, l ∉ targets → state' !! l = state !! l)
    ∧ (∀ l, state !! l = None → state' !! l = None)
    ∧ ∀ l entry,
        state !! l = Some entry →
        ∃ entry',
          state' !! l = Some entry'
          ∧ ResolvedPipelineTask.TaskRuns_ entry' = ResolvedPipelineTask.TaskRuns_ entry
          ∧ ResolvedPipelineTask.ResultsCache entry'
            = ResolvedPipelineTask.ResultsCache entry
          ∧ option_Forall2 kept (ResolvedPipelineTask.PipelineTask_ entry)
              (ResolvedPipelineTask.PipelineTask_ entry') in
  (RunState.ApplyTaskResults targets resolvedResultRefs state = Some state' →
   keeps (λ t t',
            PipelineTask.Name t' = PipelineTask.Name t
            ∧ PipelineTask.Retries t' = PipelineTask.Retries t
            ∧ PipelineTask.TaskSpec_ t' = PipelineTask.TaskSpec_ t
            ∧ PipelineTask.OnError t' = PipelineTask.OnError t))
  ∧ (RunState.ApplyPipelineTaskStateContext targets replacements state = Some state' →
     keeps (λ t t',
              PipelineTask.Name t' = PipelineTask.Name t
              ∧ PipelineTask.Retries t' = PipelineTask.Retries t
              ∧ PipelineTask.TaskSpec_ t' = PipelineTask.TaskSpec_ t
              ∧ PipelineTask.OnError t' = PipelineTask.OnError t
              ∧ PipelineTask.Matrix t' = PipelineTask.Matrix t
              ∧ PipelineTask.Workspaces t' = PipelineTask.Workspaces t)).
Proof.
  intros keeps. split; intros Hcall.
  - unfold RunState.ApplyTaskResults in Hcall.
    eapply KeptFacts.updateEntries_keep in Hcall; [exact Hcall| | |].
    + done.
    + by intros t1 t2 t3 (-> & -> & -> & ->) (-> & -> & -> & ->).
    + intros t t'. unfold RunState.applyTaskResults.
      destruct (IsMatrixed _); simpl.
      * destruct (PipelineTask.Matrix t); simpl; [|done]. by intros [= <-].
      * by intros [= <-].
  - unfold RunState.ApplyPipelineTaskStateContext in Hcall.
    eapply KeptFacts.updateEntries_keep in Hcall; [exact Hcall| | |].
    + done.
    + by intros t1 t2 t3 (-> & -> & -> & -> & -> & ->) (-> & -> & -> & -> & -> & ->).
    + by intros t t' [= <-].
Qed.

Lemma substitutions_into_the_state_keep_the_rest_witness :
  let withTask name display :=
    ReferenceResolvers.entry (Some (ReferenceResolvers.task name display [] None)) [] ∅ in
  let state : RunState.entries :=
    {[ 1%positive := ReferenceResolvers.entry None [] ∅;
       2%positive := withTask "deploy" "deploy $(tasks.build.results.digest)";
       3%positive := withTask "notify" "notify $(tasks.build.results.digest)" ]} in
  let refs : ResolvedResultRefs (Foreign := ReferenceResolvers.foreign) :=
    Parameters.mkReplacements {[ "tasks.build.results.digest" := "abc" ]} ∅ ∅ in
  ∃ state' entry' : _,
    RunState.ApplyTaskResults (H0 := ReferenceResolvers.substitutionExternals)
      [2%positive; 2%positive] refs state = Some state'
    ∧ state' !! 3%positive = state !! 3%positive
    ∧ state' !! 2%positive = Some entry'
    ∧ option_Forall2 (λ t t', PipelineTask.Name t' = PipelineTask.Name t)
        (Some (ReferenceResolvers.task "deploy" "deploy $(tasks.build.results.digest)"
                 [] None))
        (ResolvedPipelineTask.PipelineTask_ entry').
Proof.
  intros withTask state refs.
  destruct (RunState.ApplyTaskResults (H0 := ReferenceResolvers.substitutionExternals)
              [2%positive; 2%positive] refs state) as [state'|] eqn:Hcall;
    [|by vm_compute in Hcall].
  destruct (proj1 (substitutions_into_the_state_keep_the_rest
                     (H0 := ReferenceResolvers.substitutionExternals)
                     [2%positive; 2%positive] refs ∅ state state') Hcall)
    as (Hother & _ & Hentry).
  destruct (Hentry 2%positive
              (withTask "deploy" "deploy $(tasks.build.results.digest)") eq_refl)
    as (entry' & Hl & _ & _ & Hkept).
  exists state', entry'. split; [done|]. split; [|split; [done|]].
  - apply Hother. intros Hin.
    apply elem_of_cons in Hin as [?|Hin]; [done|].
    apply elem_of_cons in Hin as [?|Hin]; [done|]. by apply elem_of_nil in Hin.
  - simpl in Hkept. inversion Hkept as [? t' (Hname & _)|]; subst. by constructor.
Defined.
